(** * yosys_mau.task_loop: the task engine of [_task.py] and the context
    variables of [context.py], as a shallow embedding.

    Python objects live in a store and are named by identifiers; every
    method is a computation in a state-and-exception monad over that store,
    so that the effects of a method that raises half-way are kept, as in
    Python.  The asyncio primitives the source builds on ([Future],
    [call_soon], [create_task], [ContextVar]) are modelled with the
    behaviour asyncio documents for them. *)

From stdpp Require Import base option list gmap.

(** ** Identifiers *)

Abbreviation tid := nat (only parsing).      (* a [Task] object *)
Abbreviation fid := nat (only parsing).      (* an event-cursor [asyncio.Future] *)
Abbreviation bid := nat (only parsing).      (* an [asyncio.Task] made by [background] *)
Abbreviation handler := nat (only parsing).  (* a user error handler (opaque callable) *)

(** ** [TaskState] *)

Inductive TaskState :=
  | preparing | pending | running | waiting
  | done | cancelled | discarded | failed.

#[global] Instance TaskState_eq_dec : EqDecision TaskState.
Proof. solve_decision. Defined.

(** ** Exceptions

    An exception object is its class, the [task] attribute of the
    [TaskAborted] family and its [__cause__]. *)

Inductive exn_class :=
  | CancelledError | InvalidStateError                  (* asyncio *)
  | AssertionError | KeyError | AttributeError          (* builtins *)
  | TaskLoopError
  | TaskFailed | TaskCancelled
  | DependencyFailed | DependencyCancelled
  | ChildFailed | ChildCancelled
  | UserError (n : nat).                                (* raised by user code *)

#[global] Instance exn_class_eq_dec : EqDecision exn_class.
Proof. solve_decision. Defined.

#[local] Unset Elimination Schemes.
Inductive exn := Exn {
  exn_cls : exn_class;
  exn_task : option tid;
  exn_cause : option exn
}.
#[local] Set Elimination Schemes.

(** [isinstance(e, asyncio.CancelledError)]: [TaskCancelled] derives from
    [TaskAborted] and [asyncio.CancelledError], and the two [...Cancelled]
    wrappers derive from [TaskCancelled]. *)
Definition is_CancelledError (e : exn) : bool :=
  match exn_cls e with
  | CancelledError | TaskCancelled | DependencyCancelled | ChildCancelled => true
  | _ => false
  end.

(** [isinstance(e, Exception)]: [asyncio.CancelledError] alone derives from
    [BaseException] directly; [TaskAborted] derives from [Exception]. *)
Definition is_Exception (e : exn) : bool :=
  match exn_cls e with
  | CancelledError => false
  | _ => true
  end.

(** ** Event classes

    A class of events is written as its method resolution order without
    [object]: [TaskEvent] is [[0]], a class [n] deriving from a class [c] is
    [n :: c].  [type(event).mro()] lists the class, its bases and [object]. *)

Abbreviation etype := (list nat) (only parsing).

Definition object_ : etype := [].
Definition TaskEvent : etype := [0].
Definition DebugEvent : etype := 1 :: TaskEvent.
Definition TaskStateChange : etype := 2 :: DebugEvent.

Fixpoint mro (c : etype) : list etype :=
  match c with
  | [] => [ [] ]
  | n :: base => (n :: base) :: mro base
  end.

Inductive event_data :=
  | StateChange (previous_state : option TaskState) (state : TaskState)
  | UserData (x : nat).

Record event := Event {
  ev_class : etype;
  ev_source : tid;
  ev_data : event_data
}.

(** ** [asyncio.Future] *)

Inductive fut (A : Type) :=
  | FPending
  | FResult (a : A)
  | FException (e : exn)
  | FCancelled.
Arguments FPending {A}.
Arguments FResult {A} a.
Arguments FException {A} e.
Arguments FCancelled {A}.

Definition fut_done {A} (f : fut A) : bool :=
  match f with FPending => false | _ => true end.

(** Callbacks handed to [add_done_callback], [call_soon] and
    [add_ready_callback].  The two lambdas of [depends_on] and [__add_child]
    are distinct objects each time they are made: [k] tells them apart. *)
Inductive callback :=
  | CbDependencyFinished (k : nat) (self task : tid)
      (* lambda _: self.__dependency_finished(task) *)
  | CbChildFinished (k : nat) (self task : tid)
      (* lambda _: self.__child_finished(task) *)
  | CbDiscardVia (self task : tid)
      (* call_soon(self.__discard_via, task) *)
  | CbCancelDiscard (cell : nat)
      (* lambda: task.__cancel(discard=True), where [task] is the variable
         of the enclosing [__cleanup] frame, read when the lambda runs *)
  | CbCheckStart (self : tid).
      (* lease.add_ready_callback(self.__check_start) *)

#[global] Instance callback_eq_dec : EqDecision callback.
Proof. solve_decision. Defined.

(** A gate: the [__started] or [__finished] future of a task, with the
    done-callbacks registered on it. *)
Record gate := Gate {
  g_state : fut unit;
  g_callbacks : list callback
}.

Inductive gate_name := Started | Finished.

(** An event cursor: a future of a [TaskEventCursor(event, tail)]. *)
Abbreviation cursor := (fut (event * fid)) (only parsing).

(** ** The coroutine [__task_main] and the coroutines of [background] *)

Inductive main_pc :=
  | PcCreated          (* created by [create_task], not yet run *)
  | PcOnPrepare        (* inside [await self.on_prepare()] *)
  | PcAwaitStarted     (* at [await self.started] *)
  | PcOnRun            (* inside [await self.on_run()] *)
  | PcAwaitFinished    (* at [await self.finished] *)
  | PcExited.

#[global] Instance main_pc_eq_dec : EqDecision main_pc.
Proof. solve_decision. Defined.

Record main_task := MainTask {
  pc : main_pc;
  cancel_requested : bool          (* [asyncio.Task.cancel()] was called *)
}.

Inductive bg_target :=
  | BgHandler (h : handler) (e : exn)   (* lambda: handler(exception) *)
  | BgUser (n : nat).                   (* any other user coroutine *)

Record bg_task := BgTask {
  bg_owner : tid;
  bg_target_of : bg_target;
  bg_wait : bool;                  (* the [wait] the wrapper closed over *)
  bg_cancel_requested : bool;
  bg_exited : bool
}.

(** ** [StableSet] and [dict]

    Modelled from the spec: [yosys_mau.stable_set.StableSet] is not among
    the sources; the spec calls these attributes ordered sets.  It is a set
    that iterates in insertion order: [add] of a present element changes
    nothing, [remove] of an absent one raises [KeyError], [discard] does
    not. *)

Definition StableSet_add (x : nat) (l : list nat) : list nat :=
  if decide (x ∈ l) then l else l ++ [x].

Definition StableSet_discard (x : nat) (l : list nat) : list nat :=
  filter (λ y, y ≠ x) l.

(** A [dict] keyed by tasks keeps insertion order; assigning to a present
    key keeps its place. *)
Fixpoint dict_set {V} (k : nat) (v : V) (d : list (nat * V)) : list (nat * V) :=
  match d with
  | [] => [(k, v)]
  | (k', v') :: d' => if decide (k' = k) then (k, v) :: d' else (k', v') :: dict_set k v d'
  end.

Fixpoint dict_get {V} (k : nat) (d : list (nat * V)) : option V :=
  match d with
  | [] => None
  | (k', v') :: d' => if decide (k' = k) then Some v' else dict_get k d'
  end.

Definition dict_del {V} (k : nat) (d : list (nat * V)) : list (nat * V) :=
  filter (λ kv, kv.1 ≠ k) d.

(** ** [Task] *)

Record Task := mkTask {
  parent : option tid;
  children : list tid;
  dependencies : list tid;
  pending_dependencies : list (tid * callback);
  pending_children : list (tid * callback);
  reverse_dependencies : list tid;
  error_handlers : gmap (option tid) handler;
  state : TaskState;
  aio_main_task : main_task;
  aio_background_tasks : list bid;
  aio_wait_background_tasks : list bid;
  started : gate;
  finished : gate;
  event_cursors : gmap (list nat) fid;
  use_lease : bool;
  lease : option bool;             (* the lease held and its [ready] *)
  cancelled_by : option tid;
  cleaned_up : bool;
  discard : bool
}.

Definition set_children f T := mkTask (parent T) (f (children T)) (dependencies T) (pending_dependencies T) (pending_children T) (reverse_dependencies T) (error_handlers T) (state T) (aio_main_task T) (aio_background_tasks T) (aio_wait_background_tasks T) (started T) (finished T) (event_cursors T) (use_lease T) (lease T) (cancelled_by T) (cleaned_up T) (discard T).
Definition set_dependencies f T := mkTask (parent T) (children T) (f (dependencies T)) (pending_dependencies T) (pending_children T) (reverse_dependencies T) (error_handlers T) (state T) (aio_main_task T) (aio_background_tasks T) (aio_wait_background_tasks T) (started T) (finished T) (event_cursors T) (use_lease T) (lease T) (cancelled_by T) (cleaned_up T) (discard T).
Definition set_pending_dependencies f T := mkTask (parent T) (children T) (dependencies T) (f (pending_dependencies T)) (pending_children T) (reverse_dependencies T) (error_handlers T) (state T) (aio_main_task T) (aio_background_tasks T) (aio_wait_background_tasks T) (started T) (finished T) (event_cursors T) (use_lease T) (lease T) (cancelled_by T) (cleaned_up T) (discard T).
Definition set_pending_children f T := mkTask (parent T) (children T) (dependencies T) (pending_dependencies T) (f (pending_children T)) (reverse_dependencies T) (error_handlers T) (state T) (aio_main_task T) (aio_background_tasks T) (aio_wait_background_tasks T) (started T) (finished T) (event_cursors T) (use_lease T) (lease T) (cancelled_by T) (cleaned_up T) (discard T).
Definition set_reverse_dependencies f T := mkTask (parent T) (children T) (dependencies T) (pending_dependencies T) (pending_children T) (f (reverse_dependencies T)) (error_handlers T) (state T) (aio_main_task T) (aio_background_tasks T) (aio_wait_background_tasks T) (started T) (finished T) (event_cursors T) (use_lease T) (lease T) (cancelled_by T) (cleaned_up T) (discard T).
Definition set_error_handlers f T := mkTask (parent T) (children T) (dependencies T) (pending_dependencies T) (pending_children T) (reverse_dependencies T) (f (error_handlers T)) (state T) (aio_main_task T) (aio_background_tasks T) (aio_wait_background_tasks T) (started T) (finished T) (event_cursors T) (use_lease T) (lease T) (cancelled_by T) (cleaned_up T) (discard T).
Definition set_state v T := mkTask (parent T) (children T) (dependencies T) (pending_dependencies T) (pending_children T) (reverse_dependencies T) (error_handlers T) v (aio_main_task T) (aio_background_tasks T) (aio_wait_background_tasks T) (started T) (finished T) (event_cursors T) (use_lease T) (lease T) (cancelled_by T) (cleaned_up T) (discard T).
Definition set_aio_main_task f T := mkTask (parent T) (children T) (dependencies T) (pending_dependencies T) (pending_children T) (reverse_dependencies T) (error_handlers T) (state T) (f (aio_main_task T)) (aio_background_tasks T) (aio_wait_background_tasks T) (started T) (finished T) (event_cursors T) (use_lease T) (lease T) (cancelled_by T) (cleaned_up T) (discard T).
Definition set_aio_background_tasks f T := mkTask (parent T) (children T) (dependencies T) (pending_dependencies T) (pending_children T) (reverse_dependencies T) (error_handlers T) (state T) (aio_main_task T) (f (aio_background_tasks T)) (aio_wait_background_tasks T) (started T) (finished T) (event_cursors T) (use_lease T) (lease T) (cancelled_by T) (cleaned_up T) (discard T).
Definition set_aio_wait_background_tasks f T := mkTask (parent T) (children T) (dependencies T) (pending_dependencies T) (pending_children T) (reverse_dependencies T) (error_handlers T) (state T) (aio_main_task T) (aio_background_tasks T) (f (aio_wait_background_tasks T)) (started T) (finished T) (event_cursors T) (use_lease T) (lease T) (cancelled_by T) (cleaned_up T) (discard T).
Definition set_started f T := mkTask (parent T) (children T) (dependencies T) (pending_dependencies T) (pending_children T) (reverse_dependencies T) (error_handlers T) (state T) (aio_main_task T) (aio_background_tasks T) (aio_wait_background_tasks T) (f (started T)) (finished T) (event_cursors T) (use_lease T) (lease T) (cancelled_by T) (cleaned_up T) (discard T).
Definition set_finished f T := mkTask (parent T) (children T) (dependencies T) (pending_dependencies T) (pending_children T) (reverse_dependencies T) (error_handlers T) (state T) (aio_main_task T) (aio_background_tasks T) (aio_wait_background_tasks T) (started T) (f (finished T)) (event_cursors T) (use_lease T) (lease T) (cancelled_by T) (cleaned_up T) (discard T).
Definition set_event_cursors f T := mkTask (parent T) (children T) (dependencies T) (pending_dependencies T) (pending_children T) (reverse_dependencies T) (error_handlers T) (state T) (aio_main_task T) (aio_background_tasks T) (aio_wait_background_tasks T) (started T) (finished T) (f (event_cursors T)) (use_lease T) (lease T) (cancelled_by T) (cleaned_up T) (discard T).
Definition set_use_lease v T := mkTask (parent T) (children T) (dependencies T) (pending_dependencies T) (pending_children T) (reverse_dependencies T) (error_handlers T) (state T) (aio_main_task T) (aio_background_tasks T) (aio_wait_background_tasks T) (started T) (finished T) (event_cursors T) v (lease T) (cancelled_by T) (cleaned_up T) (discard T).
Definition set_lease v T := mkTask (parent T) (children T) (dependencies T) (pending_dependencies T) (pending_children T) (reverse_dependencies T) (error_handlers T) (state T) (aio_main_task T) (aio_background_tasks T) (aio_wait_background_tasks T) (started T) (finished T) (event_cursors T) (use_lease T) v (cancelled_by T) (cleaned_up T) (discard T).
Definition set_cancelled_by v T := mkTask (parent T) (children T) (dependencies T) (pending_dependencies T) (pending_children T) (reverse_dependencies T) (error_handlers T) (state T) (aio_main_task T) (aio_background_tasks T) (aio_wait_background_tasks T) (started T) (finished T) (event_cursors T) (use_lease T) (lease T) v (cleaned_up T) (discard T).
Definition set_cleaned_up v T := mkTask (parent T) (children T) (dependencies T) (pending_dependencies T) (pending_children T) (reverse_dependencies T) (error_handlers T) (state T) (aio_main_task T) (aio_background_tasks T) (aio_wait_background_tasks T) (started T) (finished T) (event_cursors T) (use_lease T) (lease T) (cancelled_by T) v (discard T).
Definition set_discard v T := mkTask (parent T) (children T) (dependencies T) (pending_dependencies T) (pending_children T) (reverse_dependencies T) (error_handlers T) (state T) (aio_main_task T) (aio_background_tasks T) (aio_wait_background_tasks T) (started T) (finished T) (event_cursors T) (use_lease T) (lease T) (cancelled_by T) (cleaned_up T) v.

Definition get_gate (g : gate_name) (T : Task) : gate :=
  match g with Started => started T | Finished => finished T end.

Definition set_gate (g : gate_name) (f : gate → gate) (T : Task) : Task :=
  match g with Started => set_started f T | Finished => set_finished f T end.

(** [Task.is_finished] *)
Definition is_finished (T : Task) : bool :=
  match state T with
  | done | cancelled | discarded | failed => true
  | _ => false
  end.

(** ** The state of the program *)

Record sys := mkSys {
  tasks : gmap tid Task;
  futures : gmap fid (fut (event * fid));    (* event cursors *)
  aio_tasks : gmap bid bg_task;              (* coroutines of [background] *)
  cells : gmap nat tid;     (* the variable [task] of each [__cleanup] frame *)
  ready : list callback;                     (* the event loop's queue *)
  _current_task : option tid;                (* the context variable *)
  root_task : option tid;                    (* [task_loop().root_task] *)
  job_ready : bool;   (* whether the job server grants a lease at once *)
  next_id : nat;                             (* object allocation *)
  emitted : list event   (* ghost: every event [emit] was called on, in order *)
}.

Definition set_tasks f s := mkSys (f (tasks s)) (futures s) (aio_tasks s) (cells s) (ready s) (_current_task s) (root_task s) (job_ready s) (next_id s) (emitted s).
Definition set_futures f s := mkSys (tasks s) (f (futures s)) (aio_tasks s) (cells s) (ready s) (_current_task s) (root_task s) (job_ready s) (next_id s) (emitted s).
Definition set_aio_tasks f s := mkSys (tasks s) (futures s) (f (aio_tasks s)) (cells s) (ready s) (_current_task s) (root_task s) (job_ready s) (next_id s) (emitted s).
Definition set_cells f s := mkSys (tasks s) (futures s) (aio_tasks s) (f (cells s)) (ready s) (_current_task s) (root_task s) (job_ready s) (next_id s) (emitted s).
Definition set_ready f s := mkSys (tasks s) (futures s) (aio_tasks s) (cells s) (f (ready s)) (_current_task s) (root_task s) (job_ready s) (next_id s) (emitted s).
Definition set__current_task v s := mkSys (tasks s) (futures s) (aio_tasks s) (cells s) (ready s) v (root_task s) (job_ready s) (next_id s) (emitted s).
Definition set_root_task v s := mkSys (tasks s) (futures s) (aio_tasks s) (cells s) (ready s) (_current_task s) v (job_ready s) (next_id s) (emitted s).
Definition set_job_ready v s := mkSys (tasks s) (futures s) (aio_tasks s) (cells s) (ready s) (_current_task s) (root_task s) v (next_id s) (emitted s).
Definition set_next_id v s := mkSys (tasks s) (futures s) (aio_tasks s) (cells s) (ready s) (_current_task s) (root_task s) (job_ready s) v (emitted s).
Definition set_emitted f s := mkSys (tasks s) (futures s) (aio_tasks s) (cells s) (ready s) (_current_task s) (root_task s) (job_ready s) (next_id s) (f (emitted s)).

(** ** The monad

    A computation ends with a value, with a Python exception, or is [Stuck]:
    the model has no behaviour there (an identifier that names no object, or
    a bounded recursion that ran out of its bound); Python has no such
    outcome, and no handler catches it. *)

Inductive res (A : Type) :=
  | Ok (a : A)
  | Raise (e : exn)
  | Stuck.
Arguments Ok {A} a.
Arguments Raise {A} e.
Arguments Stuck {A}.

Definition M (A : Type) : Type := sys → res A * sys.

Definition ret {A} (a : A) : M A := λ s, (Ok a, s).
Definition bind {A B} (m : M A) (f : A → M B) : M B := λ s,
  match m s with
  | (Ok a, s') => f a s'
  | (Raise e, s') => (Raise e, s')
  | (Stuck, s') => (Stuck, s')
  end.

Declare Scope M_scope.
Delimit Scope M_scope with M.
Bind Scope M_scope with M.
Notation "x ← y ; z" := (bind y (λ x, z))
  (at level 20, y at level 100, z at level 200, only parsing) : M_scope.
Notation "y ;; z" := (bind y (λ _, z))
  (at level 100, z at level 200, only parsing, right associativity) : M_scope.
#[local] Open Scope M_scope.

Definition raise {A} (c : exn_class) : M A := λ s, (Raise (Exn c None None), s).
Definition raise_exn {A} (e : exn) : M A := λ s, (Raise e, s).
Definition stuck {A} : M A := λ s, (Stuck, s).
Definition gets {A} (f : sys → A) : M A := λ s, (Ok (f s), s).
Definition modify (f : sys → sys) : M unit := λ s, (Ok tt, f s).

(** [try: body finally: fin] *)
Definition try_finally {A} (body : M A) (fin : M unit) : M A := λ s,
  let '(r, s1) := body s in
  match fin s1 with
  | (Ok _, s2) => (r, s2)
  | (Raise e, s2) => (Raise e, s2)
  | (Stuck, s2) => (Stuck, s2)
  end.

(** [try: body except ...: h], where [h e] is [None] when no clause matches. *)
Definition try_except {A} (body : M A) (h : exn → option (M A)) : M A := λ s,
  match body s with
  | (Raise e, s1) => match h e with Some k => k s1 | None => (Raise e, s1) end
  | r => r
  end.

Fixpoint for_each {A} (l : list A) (body : A → M unit) : M unit :=
  match l with
  | [] => ret tt
  | x :: l' => body x;; for_each l' body
  end.

Definition assert (b : bool) : M unit :=
  if b then ret tt else raise AssertionError.

Definition fresh : M nat := λ s, (Ok (next_id s), set_next_id (S (next_id s)) s).

Definition get_task (t : tid) : M Task := λ s,
  match tasks s !! t with
  | Some T => (Ok T, s)
  | None => (Stuck, s)
  end.

Definition modify_task (t : tid) (f : Task → Task) : M unit :=
  modify (set_tasks (alter f t)).

(** [loop.call_soon(cb)] *)
Definition call_soon (cb : callback) : M unit :=
  modify (set_ready (λ q, q ++ [cb])).

(** ** [asyncio.Future] operations on the gates of a task *)

(** [set_result], [set_exception] and the effective part of [cancel]: a
    future that is done raises [InvalidStateError]; otherwise its callbacks
    are handed to [call_soon] in registration order. *)
Definition gate_resolve (g : gate_name) (t : tid) (v : fut unit) : M unit :=
  T ← get_task t;
  if fut_done (g_state (get_gate g T)) then raise InvalidStateError
  else
    modify_task t (set_gate g (λ _, Gate v []));;
    modify (set_ready (λ q, q ++ g_callbacks (get_gate g T))).

Definition gate_set_result (g : gate_name) (t : tid) : M unit :=
  gate_resolve g t (FResult tt).

Definition gate_set_exception (g : gate_name) (t : tid) (e : exn) : M unit :=
  gate_resolve g t (FException e).

(** [Future.done()] *)
Definition gate_done (g : gate_name) (t : tid) : M bool :=
  T ← get_task t; ret (fut_done (g_state (get_gate g T))).

(** [Future.cancel()]: [False] and no change when the future is done. *)
Definition gate_cancel (g : gate_name) (t : tid) : M bool :=
  d ← gate_done g t;
  if d then ret false else gate_resolve g t FCancelled;; ret true.

(** [if not future.done(): m] *)
Definition if_not_done (g : gate_name) (t : tid) (m : M unit) : M unit :=
  d ← gate_done g t; if negb d then m else ret tt.

(** [Future.exception()] *)
Definition gate_exception (g : gate_name) (t : tid) : M (option exn) :=
  T ← get_task t;
  match g_state (get_gate g T) with
  | FPending => raise InvalidStateError
  | FCancelled => raise CancelledError
  | FResult _ => ret None
  | FException e => ret (Some e)
  end.

(** [Future.add_done_callback(cb)]: on a done future the callback is
    scheduled at once. *)
Definition gate_add_done_callback (g : gate_name) (t : tid) (cb : callback) : M unit :=
  d ← gate_done g t;
  if d then call_soon cb
  else modify_task t (set_gate g (λ G, Gate (g_state G) (g_callbacks G ++ [cb]))).

(** [Future.remove_done_callback(cb)] *)
Definition gate_remove_done_callback (g : gate_name) (t : tid) (cb : callback) : M unit :=
  modify_task t (set_gate g (λ G, Gate (g_state G) (filter (λ c, c ≠ cb) (g_callbacks G)))).

(** ** Event-cursor futures *)

Definition new_future : M fid :=
  f ← fresh; modify (set_futures (<[f := FPending]>));; ret f.

Definition future_set_result (f : fid) (v : event * fid) : M unit := λ s,
  match futures s !! f with
  | Some FPending => (Ok tt, set_futures (<[f := FResult v]>) s)
  | Some _ => (Raise (Exn InvalidStateError None None), s)
  | None => (Stuck, s)
  end.

Definition future_cancel (f : fid) : M unit := λ s,
  match futures s !! f with
  | Some FPending => (Ok tt, set_futures (<[f := FCancelled]>) s)
  | Some _ => (Ok tt, s)
  | None => (Stuck, s)
  end.

(** ** The current task *)

(** [current_task()] *)
Definition current_task : M tid := λ s,
  match _current_task s with
  | Some t => (Ok t, s)
  | None => (Raise (Exn TaskLoopError None None), s)
  end.

(** [current_task_or_none()] *)
Definition current_task_or_none : M (option tid) := gets _current_task.

(** [set_current_task(task)], and [Task.as_current_task] which returns it:
    [with task.as_current_task(): body]. *)
Definition as_current_task {A} (task : tid) (body : M A) : M A :=
  token ← gets _current_task;
  modify (set__current_task (Some task));;
  try_finally body (modify (set__current_task token)).

(** ** Events *)

(** [TaskEvent.__post_init__]: the source is the current task at
    construction. *)
Definition TaskEvent_init (cls : etype) (data : event_data) : M event :=
  source ← current_task; ret (Event cls source data).

(** One turn of the inner loop of [__emit_event__]. *)
Definition emit_to_cursor (ev : event) (current : tid) (mro_item : etype) : M unit :=
  T ← get_task current;
  match event_cursors T !! mro_item with
  | None => ret tt
  | Some cursor =>
      next_cursor ← new_future;
      future_set_result cursor (ev, next_cursor);;
      modify_task current (set_event_cursors (<[mro_item := next_cursor]>))
  end.

(** The [while current is not None] loop of [__emit_event__].  A parent is
    created before its children, so the walk from [self] takes at most
    [S self] turns. *)
Fixpoint emit_walk (fuel : nat) (ev : event) (current : option tid) : M unit :=
  match current with
  | None => ret tt
  | Some c =>
      match fuel with
      | 0 => stuck
      | S fuel' =>
          for_each (mro (ev_class ev)) (emit_to_cursor ev c);;
          T ← get_task c;
          emit_walk fuel' ev (parent T)
      end
  end.

(** [Task.__emit_event__] *)
Definition __emit_event__ (self : tid) (ev : event) : M unit :=
  assert (bool_decide (ev_source ev = self));;
  emit_walk (S self) ev (Some self).

(** [TaskEvent.emit] *)
Definition emit (ev : event) : M unit :=
  modify (set_emitted (λ l, l ++ [ev]));;
  __emit_event__ (ev_source ev) ev.

(** [Task.events(event_type, where)]: the cursor the stream starts from. *)
Definition events (self : tid) (event_type : etype) : M fid :=
  T ← get_task self;
  match event_cursors T !! event_type with
  | Some c => ret c
  | None =>
      c ← new_future;
      modify_task self (set_event_cursors (<[event_type := c]>));;
      ret c
  end.

(** ** State changes *)

(** [Task.__change_state] *)
Definition __change_state (self : tid) (new_state : TaskState) : M unit :=
  T ← get_task self;
  if decide (state T = new_state) then ret tt
  else
    let old_state := state T in
    modify_task self (set_state new_state);;
    match parent T with
    | Some _ =>
        as_current_task self
          (ev ← TaskEvent_init TaskStateChange (StateChange (Some old_state) new_state);
           emit ev)
    | None => ret tt
    end.

(** The hooks of the base class: [on_cancel] and [on_cleanup] are [pass]. *)
Definition on_cancel (self : tid) : M unit := ret tt.
Definition on_cleanup (self : tid) : M unit := ret tt.

(** ** Cancellation *)

(** [Task.__cancel].  Each call that gets past the [is_finished] test makes
    one more task terminal before it recurses, so [fuel] above the number
    of tasks that are not terminal is never used up. *)
Fixpoint cancel_rec (fuel : nat) (self : tid) (discard : bool) : M unit :=
  match fuel with
  | 0 => stuck
  | S fuel' =>
      T ← get_task self;
      if is_finished T then ret tt
      else
        modify_task self (set_aio_main_task (λ m, MainTask (pc m) true));;
        modify_task self (set_lease None);;
        if_not_done Started self (gate_cancel Started self;; ret tt);;
        if_not_done Finished self (gate_cancel Finished self;; ret tt);;
        __change_state self (if discard then discarded else cancelled);;
        T' ← get_task self;
        for_each (children T') (λ child, cancel_rec fuel' child discard);;
        as_current_task self (on_cancel self)
  end.

Definition live_count (s : sys) : nat :=
  size (filter (λ kv, is_finished kv.2 = false) (tasks s)).

Definition __cancel (self : tid) (discard : bool) : M unit := λ s,
  cancel_rec (S (live_count s)) self discard s.

(** [Task.cancel] *)
Definition cancel (self : tid) : M unit :=
  by_ ← current_task;
  modify_task self (set_cancelled_by (Some by_));;
  __cancel self false.

(** [Task.__discard_via] *)
Definition __discard_via (self task : tid) : M unit :=
  T ← get_task task;
  if decide (cancelled_by T = Some self) then ret tt
  else __cancel self true.

(** [Task.__failed] *)
Definition __failed (self : tid) (exc : option exn) : M unit :=
  T ← get_task self;
  match exc with
  | None => ret tt
  | Some exc =>
      if is_finished T then ret tt
      else
        modify_task self (set_lease None);;
        if_not_done Started self
          (gate_set_exception Started self exc;;
           gate_exception Started self;; ret tt);;
        if_not_done Finished self
          (gate_set_exception Finished self exc;;
           gate_exception Finished self;; ret tt);;
        __change_state self failed;;
        T' ← get_task self;
        for_each (children T') (λ child, __cancel child true)
  end.

(** ** Background coroutines *)

Definition create_task (b : bg_task) : M bid :=
  aio_task ← fresh; modify (set_aio_tasks (<[aio_task := b]>));; ret aio_task.

(** [asyncio.Task.cancel()] on a coroutine of [background] *)
Definition aio_task_cancel (b : bid) : M unit :=
  modify (set_aio_tasks (alter (λ B,
    BgTask (bg_owner B) (bg_target_of B) (bg_wait B) true (bg_exited B)) b)).

(** [Task.background]: the part that runs at the call; the wrapper's exit is
    [background_wrapper_exit] below. *)
Definition background (self : tid) (target : bg_target) (wait error_handler : bool)
    : M bid :=
  T ← get_task self;
  assert (error_handler ||
          bool_decide (state T = running) || bool_decide (state T = waiting));;
  let wait := if error_handler && is_finished T then false else wait in
  aio_task ← create_task (BgTask self target wait false false);
  if error_handler && is_finished T then ret aio_task
  else
    (if wait
     then modify_task self (set_aio_wait_background_tasks (StableSet_add aio_task))
     else modify_task self (set_aio_background_tasks (StableSet_add aio_task)));;
    ret aio_task.

(** ** Cleanup *)

(** [Task.__cleanup].  The lambda made in the second loop refers to the
    loop variable [task] of this frame, not to its value: [cell] is that
    variable.  Both loops assign it. *)
Definition __cleanup (self : tid) : M unit :=
  T ← get_task self;
  if cleaned_up T then ret tt
  else
    modify_task self (set_cleaned_up true);;
    on_cleanup self;;
    cell ← fresh;
    for_each (pending_children T) (λ '(task, callback),
      modify (set_cells (<[cell := task]>));;
      gate_remove_done_callback Finished task callback);;
    for_each (pending_dependencies T) (λ '(task, callback),
      modify (set_cells (<[cell := task]>));;
      gate_remove_done_callback Finished task callback;;
      D ← get_task task;
      (if decide (self ∈ reverse_dependencies D)
       then modify_task task (set_reverse_dependencies (StableSet_discard self))
       else raise KeyError);;
      D' ← get_task task;
      if bool_decide (reverse_dependencies D' = []) && discard D'
      then call_soon (CbCancelDiscard cell)
      else ret tt);;
    for_each (aio_background_tasks T) aio_task_cancel;;
    for_each (aio_wait_background_tasks T) aio_task_cancel;;
    for_each (map_to_list (event_cursors T)) (λ kv, future_cancel kv.2).

(** ** Start and finish tests *)

(** [Task.__check_start].  The lease client is outside the sources:
    [job.global_client().request_lease()] gives a lease whose [ready] is
    [job_ready]; [add_ready_callback] leaves [__check_start] with the lease,
    which calls it when it becomes ready ([lease_becomes_ready]). *)
Definition __check_start (self : tid) : M unit :=
  T ← get_task self;
  if negb (bool_decide (state T = pending)) then ret tt
  else if negb (bool_decide (pending_dependencies T = []))
  then modify_task self (set_lease None)
  else if use_lease T
  then
    (match lease T with
     | None => r ← gets job_ready; modify_task self (set_lease (Some r))
     | Some _ => ret tt
     end);;
    T' ← get_task self;
    if negb (default false (lease T')) then ret tt
    else gate_set_result Started self
  else gate_set_result Started self.

(** [Task.__check_finish] *)
Definition __check_finish (self : tid) : M unit :=
  T ← get_task self;
  if negb (bool_decide (state T = waiting)) then ret tt
  else if negb (bool_decide (pending_children T = [])) then ret tt
  else if negb (bool_decide (aio_wait_background_tasks T = [])) then ret tt
  else __cleanup self;; gate_set_result Finished self.

(** ** The propagator *)

(** [Task.__propagate_failure].  [wrap] is the pair of exception classes
    [(wrap_failed, wrap_cancelled)]. *)
Definition __propagate_failure (self task : tid) (exception : option exn)
    (wrap : option (exn_class * exn_class)) : M unit :=
  exception ←
    match exception with
    | Some e => ret (Some e)
    | None =>
        try_except (gate_exception Finished task)
          (λ exc, if is_CancelledError exc then Some (ret (Some exc)) else None)
    end;
  match exception with
  | None => ret tt
  | Some exception =>
      let exception :=
        match wrap with
        | Some (wrap_failed, wrap_cancelled) =>
            if is_CancelledError exception
            then Exn wrap_cancelled (Some task) None
            else Exn wrap_failed (Some task) (Some exception)
        | None => exception
        end in
      T ← get_task self;
      match error_handlers T !! Some task with
      | Some handler =>
          background self (BgHandler handler exception) true true;; ret tt
      | None =>
          match error_handlers T !! None with
          | Some handler =>
              background self (BgHandler handler exception) true true;; ret tt
          | None =>
              if is_CancelledError exception
              then call_soon (CbDiscardVia self task)
              else __failed self (Some exception)
          end
      end
  end.

(** [pop] of a [dict]: [KeyError] when the key is absent. *)
Definition pop_pending_dependencies (self task : tid) : M unit :=
  T ← get_task self;
  match dict_get task (pending_dependencies T) with
  | Some _ => modify_task self (set_pending_dependencies (dict_del task))
  | None => raise KeyError
  end.

Definition pop_pending_children (self task : tid) : M unit :=
  T ← get_task self;
  match dict_get task (pending_children T) with
  | Some _ => modify_task self (set_pending_children (dict_del task))
  | None => raise KeyError
  end.

(** [Task.__dependency_finished] *)
Definition __dependency_finished (self task : tid) : M unit :=
  pop_pending_dependencies self task;;
  __propagate_failure self task None (Some (DependencyFailed, DependencyCancelled));;
  __check_start self.

(** [Task.__child_finished] *)
Definition __child_finished (self task : tid) : M unit :=
  pop_pending_children self task;;
  __propagate_failure self task None (Some (ChildFailed, ChildCancelled));;
  __check_finish self.

(** ** Dependencies, handlers, children *)

Definition state_in_ppr (T : Task) : bool :=
  match state T with preparing | pending | running => true | _ => false end.

(** [Task.depends_on] *)
Definition depends_on (self task : tid) : M unit :=
  T ← get_task self;
  assert (bool_decide (state T = preparing) || bool_decide (state T = pending));;
  modify_task self (set_dependencies (StableSet_add task));;
  D ← get_task task;
  if state_in_ppr D then
    k ← fresh;
    let callback := CbDependencyFinished k self task in
    gate_add_done_callback Finished task callback;;
    modify_task self (set_pending_dependencies (dict_set task callback));;
    modify_task task (set_reverse_dependencies (StableSet_add self))
  else ret tt.

(** [Task.set_error_handler] *)
Definition set_error_handler (self : tid) (task : option tid) (h : handler) : M unit :=
  modify_task self (set_error_handlers (<[task := h]>)).

(** [Task.__add_child] *)
Definition __add_child (self task : tid) : M unit :=
  T ← get_task self;
  assert (bool_decide (state T = running));;
  modify_task self (set_children (StableSet_add task));;
  C ← get_task task;
  if state_in_ppr C then
    k ← fresh;
    let callback := CbChildFinished k self task in
    gate_add_done_callback Finished task callback;;
    modify_task self (set_pending_children (dict_set task callback))
  else ret tt.

(** ** Construction *)

Definition new_Task (parent : option tid) : Task :=
  {| parent := parent; children := []; dependencies := [];
     pending_dependencies := []; pending_children := [];
     reverse_dependencies := []; error_handlers := ∅; state := preparing;
     aio_main_task := MainTask PcCreated false;
     aio_background_tasks := []; aio_wait_background_tasks := [];
     started := Gate FPending []; finished := Gate FPending [];
     event_cursors := ∅; use_lease := false; lease := None;
     cancelled_by := None; cleaned_up := false; discard := true |}.

(** A new object in the store. *)
Definition alloc_task (T : Task) : M tid :=
  self ← fresh; modify (set_tasks (<[self := T]>));; ret self.

(** [Task.__init__], for [RootTask] when [root] is set.  The tests that can
    raise come first: an object whose constructor raised is referenced by
    nothing.  Names and paths are not modelled. *)
Definition Task_init (root : bool) : M tid :=
  if root then
    r ← gets root_task;
    assert (bool_decide (r = None));;
    self ← alloc_task (new_Task None);
    modify (set_root_task (Some self));;
    ret self
  else
    p ← current_task;
    P ← get_task p;
    assert (bool_decide (state P = running));;
    self ← alloc_task (new_Task (Some p));
    __add_child p self;;
    ret self.

(** ** Awaiting a gate: the properties [Task.started] and [Task.finished]

    [None] while the future is pending (the caller stays suspended);
    otherwise what the [await] does: return ([Ok]) or raise. *)
Definition await_gate (g : gate_name) (self : tid) (T : Task) : option (res unit) :=
  match g_state (get_gate g T) with
  | FPending => None
  | FResult _ => Some (Ok tt)
  | FCancelled => Some (Raise (Exn TaskCancelled (Some self) None))
  | FException exc =>
      if is_CancelledError exc
      then Some (Raise (Exn TaskCancelled (Some self) None))
      else Some (Raise (Exn TaskFailed (Some self) (Some exc)))
  end.

(** ** The coroutine [Task.__task_main]

    The coroutine is run one piece at a time, from one suspension to the
    next.  [Resume] continues it after the awaited thing completed;
    [Throw e] continues it with [e] raised at the suspension (user code that
    raised, or [CancelledError] thrown in by asyncio). *)
Inductive resume := Resume | Throw (e : exn).

Definition set_pc (self : tid) (p : main_pc) : M unit :=
  modify_task self (set_aio_main_task (λ m, MainTask p (cancel_requested m))).

(** [except Exception as exc: self.__propagate_failure(self, exc)] *)
Definition main_except (self : tid) (exc : exn) : M unit :=
  if is_Exception exc then __propagate_failure self self (Some exc) None
  else raise_exn exc.

(** [finally: _current_task.reset(__prev_task); self.__cleanup()].  The
    coroutine was created in the context of the constructor's caller, whose
    current task is the parent. *)
Definition main_finally (self : tid) : M unit :=
  T ← get_task self;
  modify (set__current_task (parent T));;
  __cleanup self.

(** A piece [seg] of the [try] body: it ends at the suspension [next], or
    ends the coroutine when [next] is [None] or when it raises. *)
Definition main_segment (self : tid) (seg : M unit) (next : option main_pc) : M unit :=
  λ s,
  match seg s with
  | (Ok _, s1) =>
      match next with
      | Some p => set_pc self p s1
      | None => (set_pc self PcExited;; main_finally self) s1
      end
  | (Raise e, s1) =>
      (set_pc self PcExited;; try_finally (main_except self e) (main_finally self)) s1
  | (Stuck, s1) => (Stuck, s1)
  end.

(** What [await self.started] or [await self.finished] does inside
    [__task_main], if the coroutine can go on: a cancellation of the
    coroutine reaches the property as [CancelledError], which it turns into
    [TaskCancelled(self)]. *)
Definition main_await (g : gate_name) (self : tid) (T : Task) : option (res unit) :=
  if cancel_requested (aio_main_task T)
  then Some (Raise (Exn TaskCancelled (Some self) None))
  else await_gate g self T.

Definition task_main_step (self : tid) (r : resume) : M unit :=
  T ← get_task self;
  let m := aio_main_task T in
  match pc m with
  | PcExited => ret tt
  | PcCreated =>
      if cancel_requested m then set_pc self PcExited
      else
        modify (set__current_task (Some self));;
        main_segment self
          (ev ← TaskEvent_init TaskStateChange (StateChange None (state T));
           emit ev)
          (Some PcOnPrepare)
  | PcOnPrepare =>
      modify (set__current_task (Some self));;
      match r with
      | Resume =>
          main_segment self
            (__change_state self pending;; __check_start self)
            (Some PcAwaitStarted)
      | Throw e => main_segment self (raise_exn e) None
      end
  | PcAwaitStarted =>
      modify (set__current_task (Some self));;
      match main_await Started self T with
      | None => ret tt
      | Some (Ok _) =>
          main_segment self (__change_state self running) (Some PcOnRun)
      | Some (Raise e) => main_segment self (raise_exn e) None
      | Some Stuck => stuck
      end
  | PcOnRun =>
      modify (set__current_task (Some self));;
      match r with
      | Resume =>
          main_segment self
            (modify_task self (set_lease None);;
             __change_state self waiting;;
             __check_finish self)
            (Some PcAwaitFinished)
      | Throw e => main_segment self (raise_exn e) None
      end
  | PcAwaitFinished =>
      modify (set__current_task (Some self));;
      match main_await Finished self T with
      | None => ret tt
      | Some (Ok _) => main_segment self (__change_state self done) None
      | Some (Raise e) => main_segment self (raise_exn e) None
      | Some Stuck => stuck
      end
  end.

(** The end of the wrapper coroutine of [background]: its [except] clauses
    and its [finally]. *)
Definition background_wrapper_exit (aio_task : bid) (r : resume) : M unit := λ s,
  match aio_tasks s !! aio_task with
  | None => (Stuck, s)
  | Some B =>
      if bg_exited B then (Ok tt, s)
      else
        let self := bg_owner B in
        (modify (set_aio_tasks (<[aio_task :=
           BgTask self (bg_target_of B) (bg_wait B) (bg_cancel_requested B) true]>));;
         try_finally
           (match r with
            | Resume => ret tt
            | Throw e =>
                if is_CancelledError e then ret tt else __failed self (Some e)
            end)
           (if bg_wait B then
              T ← get_task self;
              (if decide (aio_task ∈ aio_wait_background_tasks T)
               then modify_task self
                      (set_aio_wait_background_tasks (StableSet_discard aio_task))
               else raise KeyError);;
              __check_finish self
            else
              modify_task self
                (set_aio_background_tasks (StableSet_discard aio_task)))) s
  end.

(** ** The event loop *)

Definition run_callback (cb : callback) : M unit :=
  match cb with
  | CbDependencyFinished _ self task => __dependency_finished self task
  | CbChildFinished _ self task => __child_finished self task
  | CbDiscardVia self task => __discard_via self task
  | CbCancelDiscard cell =>
      v ← gets (λ s, cells s !! cell);
      match v with
      | Some task => __cancel task true
      | None => stuck
      end
  | CbCheckStart self => __check_start self
  end.

(** One turn of the loop: the first callback of the queue is taken off and
    run. *)
Definition run_once : M unit := λ s,
  match ready s with
  | [] => (Ok tt, s)
  | cb :: q => run_callback cb (set_ready (λ _, q) s)
  end.

(** The queue as it stands is run to its end (callbacks scheduled meanwhile
    are left for the next turn). *)
Definition run_ready : M unit := λ s,
  (modify (set_ready (λ q, drop (length (ready s)) q));;
   for_each (ready s) (λ cb, try_except (run_callback cb) (λ _, Some (ret tt)))) s.

(** [Task.use_lease] setter *)
Definition set_use_lease_prop (self : tid) (v : bool) : M unit :=
  T ← get_task self;
  (if v && negb (use_lease T)
   then assert (bool_decide (state T = preparing)) else ret tt);;
  modify_task self (set_use_lease v);;
  if negb v then modify_task self (set_lease None) else ret tt.

(** The lease held by [self] becomes ready and calls the callback it was
    given. *)
Definition lease_becomes_ready (self : tid) : M unit :=
  modify_task self (λ T, match lease T with
                         | Some _ => set_lease (Some true) T
                         | None => T
                         end);;
  __check_start self.

(** ** [TaskEventStream]

    A stream holds the cursor it has reached and its [where] predicate. *)
Record TaskEventStream := Stream {
  s_cursor : fid;
  s_where : event → bool
}.

Inductive anext_outcome :=
  | Yield (result : event)       (* [return result] *)
  | StopAsyncIteration
  | Suspended.                   (* the awaited cursor is still pending *)

(** [TaskEventStream.__anext__]: the outcome and the stream afterwards.  A
    tail is created after the cursor that holds it, so the loop takes at
    most [next_id - cursor] turns. *)
Fixpoint anext_loop (fuel : nat) (futs : gmap fid (fut (event * fid)))
    (cursor : fid) (where_ : event → bool) : res (anext_outcome * fid) :=
  match fuel with
  | 0 => Stuck
  | S fuel' =>
      match futs !! cursor with
      | None => Stuck
      | Some FPending => Ok (Suspended, cursor)
      | Some FCancelled => Ok (StopAsyncIteration, cursor)
      | Some (FException e) => Raise e
      | Some (FResult (result, tail)) =>
          if where_ result then Ok (Yield result, tail)
          else anext_loop fuel' futs tail where_
      end
  end.

Definition __anext__ (st : TaskEventStream) : M (anext_outcome * TaskEventStream) := λ s,
  match anext_loop (next_id s - s_cursor st) (futures s) (s_cursor st) (s_where st) with
  | Ok (o, c) => (Ok (o, Stream c (s_where st)), s)
  | Raise e => (Raise e, s)
  | Stuck => (Stuck, s)
  end.

(** [async for event in stream]: the events the loop body sees, as far as
    the stream can be read now, and whether the stream has ended. *)
Fixpoint async_for (fuel : nat) (st : TaskEventStream) : M (list event * bool) :=
  match fuel with
  | 0 => stuck
  | S fuel' =>
      r ← __anext__ st;
      match r with
      | (Yield e, st') => r' ← async_for fuel' st'; ret (e :: r'.1, r'.2)
      | (StopAsyncIteration, _) => ret ([], true)
      | (Suspended, _) => ret ([], false)
      end
  end.

(** ** context.py *)

Module TaskContextDescriptor.
Section descriptor.
Context {V : Type}.

(** [__data] (a [WeakKeyDictionary] keyed by tasks) and [__default], absent
    when the attribute is not set. *)
Record t := mk {
  data : gmap tid V;
  default : option V
}.

(** [TaskContextDescriptor(default)] *)
Definition init (default : option V) : t := mk ∅ default.

(** The loop of [__get__]; a parent is created before its children, so the
    walk from [c] takes at most [S c] turns. *)
Fixpoint get_walk (fuel : nat) (d : t) (cursor : option tid) : M (option V) :=
  match cursor with
  | None => ret None
  | Some c =>
      match fuel with
      | 0 => stuck
      | S fuel' =>
          match data d !! c with
          | Some v => ret (Some v)
          | None => T ← get_task c; get_walk fuel' d (parent T)
          end
      end
  end.

(** [TaskContextDescriptor.__get__] *)
Definition __get__ (d : t) : M V :=
  cursor ← current_task_or_none;
  r ← get_walk (match cursor with Some c => S c | None => 0 end) d cursor;
  match r with
  | Some v => ret v
  | None =>
      match default d with
      | Some v => ret v
      | None => raise AttributeError
      end
  end.

(** [TaskContextDescriptor.__set__]: the descriptor afterwards. *)
Definition __set__ (d : t) (value : V) : M t :=
  task ← current_task_or_none;
  match task with
  | None => ret (mk (data d) (Some value))
  | Some task => ret (mk (<[task := value]> (data d)) (default d))
  end.

(** [TaskContextDescriptor.__delete__]: [del self.default] on an unset
    default raises [AttributeError], which the [except KeyError] clause does
    not catch. *)
Definition __delete__ (d : t) : M t :=
  task ← current_task_or_none;
  match task with
  | None =>
      match default d with
      | Some _ => ret (mk (data d) None)
      | None => raise AttributeError
      end
  | Some task =>
      match data d !! task with
      | Some _ => ret (mk (delete task (data d)) (default d))
      | None => raise KeyError
      end
  end.

End descriptor.
Arguments t : clear implicits.
End TaskContextDescriptor.

(** [InlineContextVar]: the operation on the backing descriptor, with
    [instance] as the current task. *)
Definition InlineContextVar_get {V} (d : TaskContextDescriptor.t V) (instance : tid) : M V :=
  as_current_task instance (TaskContextDescriptor.__get__ d).

Definition InlineContextVar_set {V} (d : TaskContextDescriptor.t V) (instance : tid)
    (value : V) : M (TaskContextDescriptor.t V) :=
  as_current_task instance (TaskContextDescriptor.__set__ d value).

(** ** The program as a transition system

    What can happen next: the loop resumes a coroutine or runs a callback,
    the job server acts, or user code (inside [on_prepare], [on_run], a
    handler, a background coroutine) calls the interface with some task as
    the current one. *)

Inductive call :=
  | CallTask                                          (* Task(...) *)
  | CallDependsOn (self task : tid)
  | CallSetErrorHandler (self : tid) (task : option tid) (h : handler)
  | CallCancel (self : tid)
  | CallBackground (self : tid) (n : nat) (wait : bool)
  | CallEvents (self : tid) (event_type : etype)
  | CallEmit (cls : etype) (x : nat)                  (* UserEvent(x).emit() *)
  | CallSetDiscard (self : tid) (v : bool)
  | CallSetUseLease (self : tid) (v : bool)
  | CallAioCancel (aio_task : bid).

Inductive action :=
  | ARootTask                               (* RootTask(on_run=...) *)
  | AMain (self : tid) (r : resume)
  | ACallback
  | ABackgroundExit (aio_task : bid) (r : resume)
  | ALeaseReady (self : tid)
  | AJobServer (ready_now : bool)
  | AUser (current : tid) (c : call).

Definition exec_call (c : call) : M unit :=
  match c with
  | CallTask => Task_init false;; ret tt
  | CallDependsOn self task => depends_on self task
  | CallSetErrorHandler self task h => set_error_handler self task h
  | CallCancel self => cancel self
  | CallBackground self n wait => background self (BgUser n) wait false;; ret tt
  | CallEvents self event_type => events self event_type;; ret tt
  | CallEmit cls x => ev ← TaskEvent_init cls (UserData x); emit ev
  | CallSetDiscard self v => modify_task self (set_discard v)
  | CallSetUseLease self v => set_use_lease_prop self v
  | CallAioCancel aio_task => aio_task_cancel aio_task
  end.

Definition exec (a : action) : M unit :=
  match a with
  | ARootTask => Task_init true;; ret tt
  | AMain self r => task_main_step self r
  | ACallback => run_once
  | ABackgroundExit aio_task r => background_wrapper_exit aio_task r
  | ALeaseReady self => lease_becomes_ready self
  | AJobServer b => modify (set_job_ready b)
  | AUser current c => modify (set__current_task (Some current));; exec_call c
  end.

Definition initial (s : sys) : Prop :=
  tasks s = ∅ ∧ futures s = ∅ ∧ aio_tasks s = ∅ ∧ cells s = ∅ ∧
  ready s = [] ∧ root_task s = None ∧ emitted s = [].

Inductive reachable : sys → Prop :=
  | reachable_initial s : initial s → reachable s
  | reachable_step s a : reachable s → reachable (exec a s).2.

(** * Predicates used in the statements *)

(** [hoare P m Q]: from a state in [P], [m] ends in a state in [Q],
    whatever its outcome. *)
Definition hoare {A} (P : sys → Prop) (m : M A) (Q : sys → Prop) : Prop :=
  ∀ s, P s → Q (m s).2.

(** The state a computation ends in. *)
Definition run {A} (m : M A) (s : sys) : sys := (m s).2.

(** The state of a task, when it exists. *)
Definition state_of (s : sys) (t : tid) : option TaskState :=
  state <$> tasks s !! t.

(** ** States used as examples *)

Definition sys0 : sys := mkSys ∅ ∅ ∅ ∅ [] None None true 0 [].

Fixpoint run_actions (l : list action) (s : sys) : sys :=
  match l with
  | [] => s
  | a :: l' => run_actions l' (exec a s).2
  end.

(** The root task, object [0], once [on_run] is running. *)
Definition sys_root : sys :=
  run_actions [ARootTask; AMain 0 Resume; AMain 0 Resume; AMain 0 Resume] sys0.

(** What emitting an event leaves alone: everything but the event cursors,
    their futures and the allocation counter. *)
Definition erase_cursors (T : Task) : Task := set_event_cursors (λ _, ∅) T.

Definition emit_frame (s0 s : sys) : Prop :=
  erase_cursors <$> tasks s = erase_cursors <$> tasks s0 ∧
  aio_tasks s = aio_tasks s0 ∧ cells s = cells s0 ∧ ready s = ready s0 ∧
  _current_task s = _current_task s0 ∧ root_task s = root_task s0 ∧
  job_ready s = job_ready s0 ∧ emitted s = emitted s0.

(** The root task, and a child task, object [1], just created by it. *)
Definition sys_child : sys := run_actions [AUser 0 CallTask] sys_root.

(** ** Gates *)

(** Objects are allocated below the counter. *)
Definition tasks_bound (s : sys) : Prop :=
  ∀ t T, tasks s !! t = Some T → t < next_id s.

(** The gate [g] of the task [t] has the value [v]. *)
Definition gate_is (t : tid) (g : gate_name) (v : fut unit) (s : sys) : Prop :=
  ∃ T, tasks s !! t = Some T ∧ g_state (get_gate g T) = v.

Definition gate_resolved (t : tid) (g : gate_name) (v : fut unit) (s : sys) : Prop :=
  tasks_bound s ∧ gate_is t g v s ∧ fut_done v = true.

(** The attributes of a task the invariants below speak about; the others
    (dependencies, handlers, callbacks, leases, flags) are [minor]. *)
Definition core (T : Task) :=
  (parent T, children T, state T, pc (aio_main_task T),
   g_state (started T), g_state (finished T), event_cursors T).

Definition minor (f : Task → Task) : Prop := ∀ T, core (f T) = core T.

(** The order of the gates of one task: once the finished-gate is done, and
    from the moment [on_run] is entered, the started-gate is done. *)
Definition gates_ok (T : Task) : Prop :=
  fut_done (g_state (finished T)) = true ∨ state T = waiting ∨
  pc (aio_main_task T) = PcOnRun →
  fut_done (g_state (started T)) = true.

Definition gates_inv (s : sys) : Prop :=
  tasks_bound s ∧ ∀ t T, tasks s !! t = Some T → gates_ok T.

(** The started-gate of [t], if [t] exists, is done. *)
Definition started_done (t : tid) (s : sys) : Prop :=
  ∀ T, tasks s !! t = Some T → fut_done (g_state (started T)) = true.

(** The started-gate of [t] exists and is resolved. *)
Definition started_resolved (t : tid) (s : sys) : Prop :=
  ∃ v, gate_resolved t Started v s.

(** In [s], every finished-gate that is done belongs to a task whose
    started-gate is done. *)
Definition started_before_finished (s : sys) : Prop :=
  ∀ t T, tasks s !! t = Some T →
    fut_done (g_state (finished T)) = true →
    fut_done (g_state (started T)) = true.

(** Every finished-gate that is done in [s] has the same value in [s']. *)
Definition finished_kept (s s' : sys) : Prop :=
  ∀ t T, tasks s !! t = Some T →
    fut_done (g_state (finished T)) = true →
    ∃ T', tasks s' !! t = Some T' ∧ g_state (finished T') = g_state (finished T).

(** ** States of tasks *)

Definition terminal (st : TaskState) : bool :=
  match st with
  | done | cancelled | discarded | failed => true
  | _ => false
  end.

(** The task [t] is in the terminal state [st]. *)
Definition ended (t : tid) (st : TaskState) (s : sys) : Prop :=
  state_of s t = Some st ∧ terminal st = true.

(** ** Live tasks *)

(** The task [t] exists and is not in a terminal state. *)
Definition live (t : tid) (s : sys) : Prop :=
  ∃ T, tasks s !! t = Some T ∧ is_finished T = false.

(** ** Well-formed stores

    What the allocation of objects guarantees, as long as no event cursor
    was cancelled: the parent of a task exists and is an older object, its
    children exist, every registered event cursor is a pending future that
    is registered once, and the futures are objects that were allocated. *)
Definition parent_ok (s : sys) (t : tid) (T : Task) : Prop :=
  match parent T with
  | Some p => p < t ∧ is_Some (tasks s !! p)
  | None => True
  end.

Definition children_ok (s : sys) (T : Task) : Prop :=
  Forall (λ c, is_Some (tasks s !! c)) (children T).

Definition pending_future (s : sys) (f : fid) : Prop :=
  match futures s !! f with Some FPending => True | _ => False end.

Definition cursors_pending (s : sys) (T : Task) : Prop :=
  map_Forall (λ _ f, pending_future s f) (event_cursors T).

Definition cursors_inj (s : sys) : Prop :=
  map_Forall (λ t1 T1, map_Forall (λ ty1 f1,
    map_Forall (λ t2 T2, map_Forall (λ ty2 f2,
      f1 = f2 → t1 = t2 ∧ ty1 = ty2) (event_cursors T2)) (tasks s))
    (event_cursors T1)) (tasks s).

Definition futures_bound (s : sys) : Prop :=
  map_Forall (λ f _, f < next_id s) (futures s).

Definition wf (s : sys) : Prop :=
  map_Forall (λ t T, parent_ok s t T ∧ children_ok s T ∧ cursors_pending s T)
    (tasks s) ∧
  cursors_inj s ∧ futures_bound s.

#[global] Instance parent_ok_dec s t T : Decision (parent_ok s t T).
Proof. unfold parent_ok. destruct (parent T); apply _. Defined.

#[global] Instance pending_future_dec s f : Decision (pending_future s f).
Proof. unfold pending_future. destruct (futures s !! f) as [[]|]; apply _. Defined.

#[global] Instance wf_dec s : Decision (wf s).
Proof.
  unfold wf, children_ok, cursors_pending, cursors_inj, futures_bound. apply _.
Defined.

(** The attributes of a task that well-formedness speaks about. *)
Definition shape (T : Task) := (parent T, children T, event_cursors T).

(** ** What a cancellation looks at: parent, children and state *)

Definition view (s : sys) : gmap tid (option tid * list tid * TaskState) :=
  (λ T, (parent T, children T, state T)) <$> tasks s.

(** [u] is a task that is not terminal, and so are the tasks on a path from
    [t] down to [u] through the children. *)
Inductive live_path (s : sys) : tid → tid → Prop :=
  | live_path_here t : live t s → live_path s t t
  | live_path_child t T c u :
      tasks s !! t = Some T → is_finished T = false → c ∈ children T →
      live_path s c u → live_path s t u.

(** The state [__cancel] leaves a task in. *)
Definition cancelled_as (discard : bool) : TaskState :=
  if discard then discarded else cancelled.

(** ** Context variables *)

(** A parent is an older object than its child. *)
Definition older_parent (t : tid) (T : Task) : Prop :=
  match parent T with Some p => p < t | None => True end.

#[global] Instance older_parent_dec t T : Decision (older_parent t T).
Proof. unfold older_parent. destruct (parent T); apply _. Defined.

Definition parents_older (s : sys) : Prop := map_Forall older_parent (tasks s).

#[global] Instance parents_older_dec s : Decision (parents_older s).
Proof. unfold parents_older. apply _. Defined.

(** [nearest_override s d t v]: going up from [t] through the parents, the
    first task that has an override in [d] has the override [v]. *)
Inductive nearest_override {V} (s : sys) (d : TaskContextDescriptor.t V) :
    tid → V → Prop :=
  | nearest_here t v :
      TaskContextDescriptor.data d !! t = Some v → nearest_override s d t v
  | nearest_up t T p v :
      TaskContextDescriptor.data d !! t = None →
      tasks s !! t = Some T → parent T = Some p →
      nearest_override s d p v → nearest_override s d t v.

(** No task from [t] up to the root has an override in [d]. *)
Inductive no_override {V} (s : sys) (d : TaskContextDescriptor.t V) : tid → Prop :=
  | no_override_root t T :
      TaskContextDescriptor.data d !! t = None →
      tasks s !! t = Some T → parent T = None → no_override s d t
  | no_override_up t T p :
      TaskContextDescriptor.data d !! t = None →
      tasks s !! t = Some T → parent T = Some p →
      no_override s d p → no_override s d t.

(** What [__get__] does once the walk found no override. *)
Definition default_or_unset {V} (d : TaskContextDescriptor.t V) : res V :=
  match TaskContextDescriptor.default d with
  | Some v => Ok v
  | None => Raise (Exn AttributeError None None)
  end.

(** A property that only looks at the tasks, and holds the more objects are
    allocated. *)
Definition tasks_only (I : sys → Prop) : Prop :=
  ∀ s s', tasks s' = tasks s → next_id s ≤ next_id s' → I s → I s'.

(** The child task [1] of [sys_child] has begun [on_prepare]: it is the
    current task. *)
Definition sys_in_child : sys := run_actions [AMain 1 Resume] sys_child.

(** What [await task.started] or [await task.finished] does in [s], for a
    caller that is not cancelled itself. *)
Definition await (g : gate_name) (t : tid) (s : sys) : option (res unit) :=
  match tasks s !! t with
  | Some T => await_gate g t T
  | None => Some Stuck
  end.

(** ** Cleanup with two pending dependencies

    The root [0] creates the tasks [1] and [3], which reach [on_run]; [3]
    sets [discard = False] on itself.  The root then creates [5], which
    declares both as dependencies in [on_prepare] and waits for them; the
    root cancels [5]. *)
Definition cleanup_two_dependencies : list action :=
  [AUser 0 CallTask; AMain 1 Resume; AMain 1 Resume; AMain 1 Resume;
   AUser 0 CallTask; AMain 3 Resume; AMain 3 Resume; AMain 3 Resume;
   AUser 3 (CallSetDiscard 3 false);
   AUser 0 CallTask; AMain 5 Resume;
   AUser 5 (CallDependsOn 5 1); AUser 5 (CallDependsOn 5 3);
   AMain 5 Resume;
   AUser 0 (CallCancel 5)].

Definition sys_two_dependencies : sys :=
  run_actions cleanup_two_dependencies sys_root.

(** ** A cancelled child

    The root cancels its child [1]; the loop then tells the root that its
    child has finished, which leaves [__discard_via] in the queue. *)
Definition sys_cancelled_child : sys :=
  run_actions [AUser 0 (CallCancel 1); ACallback] sys_child.

(** ** Handlers of a cancelled observer

    The task [1], a child of the root, has a child [3], a handler for it
    (handler [7]) and a fallback handler ([8]).  The root cancels [1], whose
    coroutine ends; the loop has told the root, and is about to tell [1]
    that [3] has finished. *)
Definition handlers_of_cancelled_observer : list action :=
  [AUser 0 CallTask; AMain 1 Resume; AMain 1 Resume; AMain 1 Resume;
   AUser 1 CallTask;
   AUser 1 (CallSetErrorHandler 1 (Some 3) 7);
   AUser 1 (CallSetErrorHandler 1 None 8);
   AUser 0 (CallCancel 1);
   AMain 1 (Throw (Exn CancelledError None None));
   ACallback].

Definition sys_cancelled_observer : sys :=
  run_actions handlers_of_cancelled_observer sys_root.

(** ** A chain of dependencies

    [1], [3] and [6] are children of the root; [3] depends on [1] and [6]
    on [3].  Then [on_run] of [1] raises [UserError 0].  With [handled], the
    root has a fallback handler. *)
Definition dependency_chain (handled : bool) : list action :=
  (if handled then [AUser 0 (CallSetErrorHandler 0 None 9)] else []) ++
  [AUser 0 CallTask; AMain 1 Resume; AMain 1 Resume; AMain 1 Resume;
   AUser 0 CallTask; AMain 3 Resume; AUser 3 (CallDependsOn 3 1); AMain 3 Resume;
   AUser 0 CallTask; AMain 6 Resume; AUser 6 (CallDependsOn 6 3); AMain 6 Resume;
   AMain 1 (Throw (Exn (UserError 0) None None))].

Definition sys_dependency_chain (handled : bool) : sys :=
  run_actions (dependency_chain handled) sys_root.

(** ** The propagator *)

(** The exception the propagator hands on: [wrap_cancelled(task)], or
    [wrap_failed(task)] with the cause set. *)
Definition wrapped (wrap : option (exn_class * exn_class)) (task : tid)
    (exception : exn) : exn :=
  match wrap with
  | Some (wrap_failed, wrap_cancelled) =>
      if is_CancelledError exception
      then Exn wrap_cancelled (Some task) None
      else Exn wrap_failed (Some task) (Some exception)
  | None => exception
  end.

(** The state once the handler [h] was made a coroutine of [self] for the
    exception [e]: the coroutine is a new object; it is one the task waits
    for unless the task is in a terminal state already. *)
Definition handler_scheduled (self : tid) (T : Task) (h : handler) (e : exn)
    (s : sys) : sys :=
  let aio_task := next_id s in
  let s1 :=
    set_aio_tasks
      (<[aio_task := BgTask self (BgHandler h e) (negb (is_finished T)) false false]>)
      (set_next_id (S aio_task) s) in
  if is_finished T then s1
  else set_tasks (alter (set_aio_wait_background_tasks (StableSet_add aio_task)) self) s1.

(** The task object [t] of the state [s]. *)
Definition task_of (s : sys) (t : tid) : Task :=
  default (new_Task None) (tasks s !! t).

(** The task [t] is live and its finished-gate is pending. *)
Definition unfinished (t : tid) (s : sys) : Prop :=
  tasks_bound s ∧
  ∃ T, tasks s !! t = Some T ∧ is_finished T = false ∧
       g_state (finished T) = FPending.

(** In the chain of dependencies, with a handler on the root: the root has
    been told of the failure of [1], and [3] is about to be. *)
Definition sys_dependent_told : sys :=
  run_actions [ACallback] (sys_dependency_chain true).

(** [returns P m Q]: from a state in [P], [m] returns a value [a] and ends
    in a state with [Q a]. *)
Definition returns {A} (P : sys → Prop) (m : M A) (Q : A → sys → Prop) : Prop :=
  ∀ s, P s → ∃ a s', m s = (Ok a, s') ∧ Q a s'.

(** The state after one turn of the inner loop of [__emit_event__] that
    found the cursor [f]. *)
Definition cursor_advanced (ev : event) (c : tid) (item : etype) (f : fid) (s : sys) : sys :=
  let next_cursor := next_id s in
  set_tasks (alter (set_event_cursors (<[item := next_cursor]>)) c)
    (set_futures (<[f := FResult (ev, next_cursor)]>)
       (set_futures (<[next_cursor := FPending]>)
          (set_next_id (S next_cursor) s))).

(** ** The effect of a cancellation on the tree *)

Abbreviation tview := (gmap tid (option tid * list tid * TaskState)) (only parsing).

Definition vlive (v : tview) (u : tid) : Prop :=
  ∃ p ch st, v !! u = Some (p, ch, st) ∧ terminal st = false.

(** [v'] is [v] with some live tasks moved to the state [st]. *)
Definition moved (st : TaskState) (v v' : tview) : Prop :=
  ∀ u, v' !! u = v !! u ∨
       ∃ p ch st0, v !! u = Some (p, ch, st0) ∧ terminal st0 = false ∧
                   v' !! u = Some (p, ch, st).

(** No task that was moved from [v] to [v'] has a live child left. *)
Definition closed_under_children (v v' : tview) : Prop :=
  ∀ w p ch st c, v' !! w = Some (p, ch, st) → v' !! w ≠ v !! w → c ∈ ch →
    ¬ vlive v' c.

(** The tasks that are not terminal. *)
Definition live_set (s : sys) : gset tid :=
  dom (filter (λ kv, is_finished kv.2 = false) (tasks s)).

(** ** A grandchild

    The child [1] of the root runs and has created the task [3]. *)
Definition sys_grandchild : sys :=
  run_actions
    [AUser 0 CallTask; AMain 1 Resume; AMain 1 Resume; AMain 1 Resume;
     AUser 1 CallTask] sys_root.

(** ** A live task below a cancelled one

    [1], [3], [5] and [7] are a chain of children below the root.  [on_run]
    of [5] cancels its parent [3], which cancels [5] and [7] too, and then
    returns: [5] goes on to [waiting], with its child [7] still to be
    reported. *)
Definition sys_live_below_cancelled : sys :=
  run_actions
    [AUser 0 CallTask; AMain 1 Resume; AMain 1 Resume; AMain 1 Resume;
     AUser 1 CallTask; AMain 3 Resume; AMain 3 Resume; AMain 3 Resume;
     AUser 3 CallTask; AMain 5 Resume; AMain 5 Resume; AMain 5 Resume;
     AUser 5 CallTask;
     AUser 5 (CallCancel 3); AMain 5 Resume] sys_root.

(** ** A failure absorbed by the task's own fallback handler

    The child [1] of the root has a fallback handler ([7]), a subscriber to
    its events and a child [4]; then its [on_run] raises [UserError 0]. *)
Definition sys_absorbed_failure : sys :=
  run_actions
    [AUser 0 CallTask; AMain 1 Resume; AMain 1 Resume; AMain 1 Resume;
     AUser 1 (CallSetErrorHandler 1 None 7);
     AUser 1 (CallEvents 1 [0]);
     AUser 1 CallTask;
     AMain 1 (Throw (Exn (UserError 0) None None))] sys_root.

(** The exception the propagator routes from [task]: the one it is given,
    or else what the finished-gate of [task] holds. *)
Definition routed (s : sys) (task : tid) (exception : option exn) : option exn :=
  match exception with
  | Some e => Some e
  | None =>
      match tasks s !! task with
      | Some D =>
          match g_state (finished D) with
          | FException e => Some e
          | FCancelled => Some (Exn CancelledError None None)
          | _ => None
          end
      | None => None
      end
  end.

(** The state in which the loop calls the callback at the head of its
    queue. *)
Definition dequeued (s : sys) : sys := set_ready (λ q, tail q) s.

(** ** A task that ends with its finished-gate pending

    The child [1] of the root has a fallback handler; its [on_run] raises
    [UserError 0].  The propagator makes the handler a coroutine ([3]) that
    [1] waits for, and the cleanup at the end of [__task_main] cancels that
    coroutine.  Then [on_run] of the root returns. *)
Definition sys_idle_unfinished : sys :=
  run_actions
    [AUser 0 CallTask; AMain 1 Resume; AMain 1 Resume; AMain 1 Resume;
     AUser 1 (CallSetErrorHandler 1 None 7);
     AMain 1 (Throw (Exn (UserError 0) None None));
     ABackgroundExit 3 (Throw (Exn CancelledError None None));
     AMain 0 Resume] sys_root.

(** What [__check_finish] needs to go through: a task that waits, with no
    child and no coroutine left to wait for, no dependency left to detach
    from, and event cursors that exist. *)
Definition ready_to_finish (s : sys) (T : Task) : Prop :=
  state T = waiting ∧ pending_children T = [] ∧
  aio_wait_background_tasks T = [] ∧ pending_dependencies T = [] ∧
  ∀ ty f, event_cursors T !! ty = Some f → is_Some (futures s !! f).

(** The root inside [__task_main], when [on_run] has returned and the task
    has changed to [waiting]: the state in which it calls
    [__check_finish]. *)
Definition sys_root_waiting : sys :=
  run (modify_task 0 (set_lease None);; __change_state 0 waiting)
    (set__current_task (Some 0) sys_root).

(** In [sys_live_below_cancelled], the loop has told [1], [3] and [5] that
    their children have finished. *)
Definition sys_waiting_cancelled : sys :=
  run_actions [ACallback; ACallback; ACallback] sys_live_below_cancelled.

(** ** Waiting for a dependency *)

(** The callback [cb] is in the queue of the loop. *)
Definition queued (cb : callback) (s : sys) : Prop := cb ∈ ready s.

(** [b] waits for its dependency [a]: the callback that [depends_on] made,
    with the identity [k], is registered on the finished-gate of [a] and
    kept among the pending dependencies of [b]. *)
Definition waits_for (b a : tid) (k : nat) (s : sys) : Prop :=
  ∃ Ta Tb, tasks s !! a = Some Ta ∧ tasks s !! b = Some Tb ∧
    CbDependencyFinished k b a ∈ g_callbacks (finished Ta) ∧
    dict_get a (pending_dependencies Tb) = Some (CbDependencyFinished k b a).

(** The chain of dependencies, with a handler on the root, before [3]
    declares its dependency, and before [on_run] of [1] raises. *)
Definition sys_before_depends : sys :=
  run_actions
    [AUser 0 (CallSetErrorHandler 0 None 9);
     AUser 0 CallTask; AMain 1 Resume; AMain 1 Resume; AMain 1 Resume;
     AUser 0 CallTask; AMain 3 Resume] sys_root.

Definition sys_before_failure : sys :=
  run_actions
    [AUser 3 (CallDependsOn 3 1); AMain 3 Resume;
     AUser 0 CallTask; AMain 6 Resume; AUser 6 (CallDependsOn 6 3); AMain 6 Resume]
    sys_before_depends.

(** [3] has failed and the root has been told: [6] is about to be told. *)
Definition sys_second_told : sys :=
  run_actions [ACallback; ACallback] sys_dependent_told.

(** * Reasoning about computations *)

Section hoare.
Context {A B : Type}.
Implicit Types (P Q R : sys → Prop).

Lemma hoare_conseq P P' Q Q' (m : M A) :
  hoare P' m Q' → (∀ s, P s → P' s) → (∀ s, Q' s → Q s) → hoare P m Q.
Proof. unfold hoare. eauto. Qed.

Lemma hoare_ret P (a : A) : hoare P (ret a) P.
Proof. by intros s. Qed.

Lemma hoare_raise P c : hoare P (raise (A:=A) c) P.
Proof. by intros s. Qed.

Lemma hoare_raise_exn P e : hoare P (raise_exn (A:=A) e) P.
Proof. by intros s. Qed.

Lemma hoare_stuck P : hoare P (stuck (A:=A)) P.
Proof. by intros s. Qed.

Lemma hoare_gets P (f : sys → A) : hoare P (gets f) P.
Proof. by intros s. Qed.

Lemma hoare_bind P R Q (m : M A) (f : A → M B) :
  hoare P m R → (∀ s, R s → Q s) → (∀ a, hoare R (f a) Q) →
  hoare P (bind m f) Q.
Proof.
  intros Hm HRQ Hf s HP. specialize (Hm s HP). unfold bind.
  destruct (m s) as [[a|e|] s1]; simpl in *; auto. by apply Hf.
Qed.

(** The value [m] returned may be used: [f a] starts in a state that [m]
    reached with the value [a]. *)
Lemma hoare_bind_val P Q (m : M A) (f : A → M B) :
  (∀ s, P s → Q (m s).2) →
  (∀ a, hoare (λ s1, ∃ s, P s ∧ m s = (Ok a, s1)) (f a) Q) →
  hoare P (bind m f) Q.
Proof.
  intros Hm Hf s HP. specialize (Hm s HP). unfold bind.
  destruct (m s) as [[a|e|] s1] eqn:E; simpl in *; auto.
  apply Hf. eauto.
Qed.

Lemma hoare_try_finally P R Q (m : M A) (fin : M unit) :
  hoare P m R → hoare R fin Q → hoare P (try_finally m fin) Q.
Proof.
  intros Hm Hf s HP. specialize (Hm s HP). unfold try_finally.
  destruct (m s) as [r s1]; simpl in *. specialize (Hf s1 Hm).
  by destruct (fin s1) as [[?|?|] s2].
Qed.

Lemma hoare_try_except P R Q (m : M A) (h : exn → option (M A)) :
  hoare P m R → (∀ s, R s → Q s) → (∀ e k, h e = Some k → hoare R k Q) →
  hoare P (try_except m h) Q.
Proof.
  intros Hm HRQ Hh s HP. specialize (Hm s HP). unfold try_except.
  destruct (m s) as [[a|e|] s1]; simpl in *; auto.
  destruct (h e) as [k|] eqn:E; simpl; auto. by eapply Hh.
Qed.
End hoare.

Lemma hoare_modify P Q (f : sys → sys) :
  (∀ s, P s → Q (f s)) → hoare P (modify f) Q.
Proof. intros H s HP. by apply H. Qed.

Lemma hoare_for_each {A} (I : sys → Prop) (l : list A) (body : A → M unit) :
  (∀ x, x ∈ l → hoare I (body x) I) → hoare I (for_each l body) I.
Proof.
  induction l as [|x l IH]; intros H; simpl.
  - apply hoare_ret.
  - eapply hoare_bind; [apply H; left | done |].
    intros _. apply IH. intros y Hy. apply H. by right.
Qed.

Lemma hoare_get_task P Q {B} (t : tid) (f : Task → M B) :
  (∀ s, P s → Q s) →
  (∀ T, hoare (λ s, P s ∧ tasks s !! t = Some T) (f T) Q) →
  hoare P (bind (get_task t) f) Q.
Proof.
  intros HPQ Hf s HP. unfold bind, get_task.
  destruct (tasks s !! t) as [T|] eqn:E; simpl; auto. by apply Hf.
Qed.

Lemma hoare_assert P (b : bool) : hoare P (assert b) P.
Proof. by intros s; destruct b. Qed.

Lemma hoare_fresh P Q :
  (∀ s, P s → Q (set_next_id (S (next_id s)) s)) → hoare P fresh Q.
Proof. intros H s HP. by apply H. Qed.

(** Equations for running a computation. *)

Lemma bind_Ok {A B} (m : M A) (f : A → M B) s a s1 :
  m s = (Ok a, s1) → bind m f s = f a s1.
Proof. unfold bind. by intros ->. Qed.

Lemma bind_Raise {A B} (m : M A) (f : A → M B) s e s1 :
  m s = (Raise e, s1) → bind m f s = (Raise e, s1).
Proof. unfold bind. by intros ->. Qed.

Lemma get_task_Some t T s : tasks s !! t = Some T → get_task t s = (Ok T, s).
Proof. unfold get_task. by intros ->. Qed.

Lemma hoare_inv_bind {A B} (I : sys → Prop) (m : M A) (f : A → M B) :
  hoare I m I → (∀ a, hoare I (f a) I) → hoare I (bind m f) I.
Proof. intros. by eapply hoare_bind. Qed.

Lemma hoare_inv_try_finally {A} (I : sys → Prop) (m : M A) fin :
  hoare I m I → hoare I fin I → hoare I (try_finally m fin) I.
Proof. intros. by eapply hoare_try_finally. Qed.

Lemma hoare_inv_try_except {A} (I : sys → Prop) (m : M A) h :
  hoare I m I → (∀ e k, h e = Some k → hoare I k I) → hoare I (try_except m h) I.
Proof. intros. by eapply hoare_try_except. Qed.

Lemma hoare_inv_get_task (I : sys → Prop) (t : tid) : hoare I (get_task t) I.
Proof. intros s HI. unfold get_task. by destruct (tasks s !! t). Qed.

Lemma hoare_as_current_task {A} (I : sys → Prop) (t : tid) (m : M A) :
  (∀ s v, I s → I (set__current_task v s)) →
  hoare I m I → hoare I (as_current_task t m) I.
Proof.
  intros Hc Hm. unfold as_current_task.
  apply hoare_inv_bind; [apply hoare_gets|]. intros tok.
  apply hoare_inv_bind; [apply hoare_modify; auto|]. intros _.
  apply hoare_inv_try_finally; [done|]. apply hoare_modify; auto.
Qed.

(** The structure of a computation is taken apart down to the primitive
    operations, which [leaf] has to deal with. *)
Ltac hoare_inv leaf :=
  repeat first
    [ leaf
    | apply hoare_ret | apply hoare_raise | apply hoare_raise_exn
    | apply hoare_stuck | apply hoare_gets | apply hoare_assert
    | apply hoare_inv_get_task
    | apply hoare_inv_bind; [ | intros ? ]
    | apply hoare_inv_try_finally
    | apply hoare_inv_try_except;
        [ | let Hk := fresh in intros ? ? Hk; simpl in Hk;
            repeat case_match; simplify_eq ]
    | apply hoare_for_each; intros ? ?
    | match goal with
      | |- hoare _ (match ?x with _ => _ end) _ => destruct x
      end ].

(** The same, by the syntax of the computation alone. *)
Ltac hinv leaf :=
  repeat first
    [ leaf
    | lazymatch goal with
      | |- hoare _ (ret _) _ => apply hoare_ret
      | |- hoare _ (raise _) _ => apply hoare_raise
      | |- hoare _ (raise_exn _) _ => apply hoare_raise_exn
      | |- hoare _ stuck _ => apply hoare_stuck
      | |- hoare _ (gets _) _ => apply hoare_gets
      | |- hoare _ (assert _) _ => apply hoare_assert
      | |- hoare _ (get_task _) _ => apply hoare_inv_get_task
      | |- hoare _ (bind _ _) _ => apply hoare_inv_bind; [ | intros ? ]
      | |- hoare _ (try_finally _ _) _ => apply hoare_inv_try_finally
      | |- hoare _ (try_except _ _) _ =>
          apply hoare_inv_try_except;
            [ | let Hk := fresh in intros ? ? Hk; simpl in Hk;
                repeat case_match; simplify_eq ]
      | |- hoare _ (for_each _ _) _ => apply hoare_for_each; intros ? ?
      | |- hoare _ (match ?x with _ => _ end) _ => destruct x
      | |- _ => progress cbv beta zeta
      end ].

(** ** C10: [cancel] outside of any task *)

(** C10.  When no task is current, [cancel] raises [TaskLoopError] from
    [current_task()], evaluated before anything is assigned: the whole
    state, and with it the task's state, gates and children, is unchanged. *)
Theorem cancel_without_current_task (s : sys) (self : tid) :
  _current_task s = None →
  cancel self s = (Raise (Exn TaskLoopError None None), s).
Proof.
  intros Hcur. unfold cancel, bind, current_task. by rewrite Hcur.
Qed.

Lemma cancel_without_current_task_witness :
  _current_task (set__current_task None sys_root) = None ∧
  state_of (set__current_task None sys_root) 0 = Some running ∧
  cancel 0 (set__current_task None sys_root)
  = (Raise (Exn TaskLoopError None None), set__current_task None sys_root).
Proof.
  split; [reflexivity|]. split; [by vm_compute|].
  apply (cancel_without_current_task (set__current_task None sys_root) 0).
  reflexivity.
Defined.

(** ** Emission leaves tasks alone *)

Lemma emit_frame_refl s : emit_frame s s.
Proof. by repeat split. Qed.

Lemma emit_frame_state_of s0 s x : emit_frame s0 s → state_of s x = state_of s0 x.
Proof.
  intros [H _]. unfold state_of.
  assert (erase_cursors <$> tasks s !! x = erase_cursors <$> tasks s0 !! x) as Hx
    by (by rewrite <- !lookup_fmap, H).
  destruct (tasks s !! x) as [[]|], (tasks s0 !! x) as [[]|]; simpl in *;
    by simplify_eq.
Qed.

Lemma emit_frame_task s0 s x T0 :
  emit_frame s0 s → tasks s0 !! x = Some T0 →
  ∃ T, tasks s !! x = Some T ∧ erase_cursors T = erase_cursors T0.
Proof.
  intros [H _] H0.
  assert (erase_cursors <$> tasks s !! x = erase_cursors <$> tasks s0 !! x) as Hx
    by (by rewrite <- !lookup_fmap, H).
  rewrite H0 in Hx. destruct (tasks s !! x) as [T|]; [|done].
  exists T. split; [done|]. cbv [fmap option_fmap option_map] in Hx. congruence.
Qed.

Lemma emit_frame_alter s0 s t f :
  emit_frame s0 s → emit_frame s0 (set_tasks (alter (set_event_cursors f) t) s).
Proof.
  intros (H & ?). split; [|done]. rewrite <- H. simpl.
  apply map_eq. intros i. rewrite !lookup_fmap. destruct (decide (i = t)) as [->|].
  - rewrite lookup_alter_eq. by destruct (tasks s !! t) as [[]|].
  - by rewrite lookup_alter_ne.
Qed.

Ltac emit_frame_leaf :=
  first
    [ apply hoare_modify; intros ? ?; by apply emit_frame_alter
    | by intros ? (?&?&?&?&?&?&?&?);
        unfold new_future, future_set_result, fresh, bind, modify, ret; simpl;
        repeat case_match; simplify_eq/= ].

Lemma emit_to_cursor_frame s0 ev c item :
  hoare (emit_frame s0) (emit_to_cursor ev c item) (emit_frame s0).
Proof. unfold emit_to_cursor, modify_task. hoare_inv emit_frame_leaf. Qed.

Lemma emit_walk_frame s0 fuel ev c :
  hoare (emit_frame s0) (emit_walk fuel ev c) (emit_frame s0).
Proof.
  revert c. induction fuel as [|fuel IH]; intros [c|]; simpl;
    try apply hoare_ret; try apply hoare_stuck.
  apply hoare_inv_bind.
  - apply hoare_for_each. intros. apply emit_to_cursor_frame.
  - intros _. apply hoare_inv_bind; [apply hoare_inv_get_task|]. intros T. apply IH.
Qed.

Lemma emit_event_frame s0 self ev :
  hoare (emit_frame s0) (__emit_event__ self ev) (emit_frame s0).
Proof.
  unfold __emit_event__. apply hoare_inv_bind; [apply hoare_assert|].
  intros _. apply emit_walk_frame.
Qed.

(** ** C6: events of state changes *)

Lemma state_of_alter_set_state s self T v :
  tasks s !! self = Some T →
  state_of (set_tasks (alter (set_state v) self) s) self = Some v.
Proof. intros H. unfold state_of. simpl. by rewrite lookup_alter_eq, H. Qed.

(** C6, counterexample.  The root task goes from [preparing] to [pending]
    and then on to [running]; its second transition, like the first, emits
    no event. *)
Lemma root_second_transition_emits_nothing :
  let s := run (__change_state 0 pending)
             (run_actions [ARootTask; AMain 0 Resume] sys0) in
  let s' := run (__change_state 0 running) s in
  state_of s 0 = Some pending ∧ state_of s' 0 = Some running ∧
  emitted s' = emitted s.
Proof. by vm_compute. Qed.

Lemma as_current_task_run {A} (t : tid) (m : M A) (s : sys) :
  as_current_task t m s =
  ((m (set__current_task (Some t) s)).1,
   set__current_task (_current_task s) (m (set__current_task (Some t) s)).2).
Proof.
  unfold as_current_task, bind, gets, modify, try_finally. simpl.
  by destruct (m _).
Qed.

Lemma TaskEvent_init_run cls data s t :
  _current_task s = Some t → TaskEvent_init cls data s = (Ok (Event cls t data), s).
Proof. intros H. unfold TaskEvent_init, bind, current_task. by rewrite H. Qed.

Lemma emit_spec (ev : event) (s : sys) :
  emit_frame (set_emitted (λ l, l ++ [ev]) s) (emit ev s).2.
Proof.
  unfold emit, bind, modify. simpl.
  apply (emit_event_frame _ (ev_source ev) ev), emit_frame_refl.
Qed.

(** C6, amended.  [__change_state] to the state the task is in does
    nothing.  Otherwise the task gets the new state, and a task with a
    parent emits one [TaskStateChange] carrying the previous and the new
    state, with the task as its source; the root task, which has no parent,
    emits nothing at any of its transitions. *)
Theorem change_state_emits (s : sys) (self : tid) (T : Task) (new_state : TaskState) :
  tasks s !! self = Some T →
  (state T = new_state → __change_state self new_state s = (Ok tt, s)) ∧
  (state T ≠ new_state →
   state_of (run (__change_state self new_state) s) self = Some new_state ∧
   emitted (run (__change_state self new_state) s) =
     emitted s ++
     match parent T with
     | Some _ =>
         [Event TaskStateChange self (StateChange (Some (state T)) new_state)]
     | None => []
     end).
Proof.
  intros HT. unfold run, __change_state.
  rewrite (bind_Ok _ _ _ _ _ (get_task_Some _ _ _ HT)).
  split; intros Hst; destruct (decide (state T = new_state)); try done.
  rewrite (bind_Ok _ _ s tt (set_tasks (alter (set_state new_state) self) s))
    by done.
  pose proof (state_of_alter_set_state s self T new_state HT) as H1.
  destruct (parent T) as [p|]; simpl.
  - rewrite as_current_task_run. simpl.
    erewrite bind_Ok by (by apply TaskEvent_init_run).
    match goal with |- context [emit ?e ?s] =>
      pose proof (emit_spec e s) as Hf; destruct (emit e s) as [r s4] end.
    simpl in *. split.
    + transitivity (state_of s4 self); [done|].
      rewrite (emit_frame_state_of _ _ self Hf). exact H1.
    + transitivity (emitted s4); [done|].
      by destruct Hf as (_&_&_&_&_&_&_&->).
  - split; [done|]. by rewrite app_nil_r.
Qed.

Lemma change_state_emits_witness :
  ∃ T, tasks sys_child !! 1 = Some T ∧ state T ≠ pending ∧
    state_of (run (__change_state 1 pending) sys_child) 1 = Some pending ∧
    emitted (run (__change_state 1 pending) sys_child) =
      emitted sys_child ++
      [Event TaskStateChange 1 (StateChange (Some preparing) pending)].
Proof.
  eexists. split; [by vm_compute|].
  match goal with |- state ?T ≠ _ ∧ _ =>
    split; [done|];
    exact (proj2 (change_state_emits sys_child 1 T pending
                    ltac:(by vm_compute)) ltac:(done))
  end.
Defined.

(** * Gates resolve once *)

Lemma gate_resolved_ext t g v s s' :
  tasks s' = tasks s → next_id s ≤ next_id s' →
  gate_resolved t g v s → gate_resolved t g v s'.
Proof.
  intros Ht Hn (Hb & HT & Hv). unfold gate_resolved, tasks_bound, gate_is.
  rewrite Ht. split_and!; [|done..]. intros ?? H. apply Hb in H. lia.
Qed.

Lemma gate_resolved_alter t g v s t' (f : Task → Task) :
  (∀ T, tasks s !! t' = Some T →
        g_state (get_gate g T) = v → g_state (get_gate g (f T)) = v) →
  gate_resolved t g v s → gate_resolved t g v (set_tasks (alter f t') s).
Proof.
  intros Hf (Hb & (T & HT & HTv) & Hv). split_and!; [| |done].
  - intros x Tx. simpl. destruct (decide (x = t')) as [->|].
    + rewrite lookup_alter_eq. destruct (tasks s !! t') eqn:E; [|done].
      intros _. by eapply Hb.
    + rewrite lookup_alter_ne by done. apply Hb.
  - unfold gate_is. simpl. destruct (decide (t = t')) as [->|].
    + rewrite lookup_alter_eq, HT. simpl. eauto.
    + rewrite lookup_alter_ne by done. eauto.
Qed.

Lemma gate_resolved_modify_task t g v t' (f : Task → Task) :
  (∀ T, g_state (get_gate g T) = v → g_state (get_gate g (f T)) = v) →
  hoare (gate_resolved t g v) (modify_task t' f) (gate_resolved t g v).
Proof. intros Hf s HI. apply gate_resolved_alter; auto. Qed.

Lemma gate_resolved_insert t g v s (T' : Task) :
  gate_resolved t g v s →
  gate_resolved t g v
    (set_tasks (<[next_id s := T']>) (set_next_id (S (next_id s)) s)).
Proof.
  intros (Hb & (T & HT & HTv) & Hv). split_and!; [| |done].
  - intros x Tx. simpl. destruct (decide (x = next_id s)) as [->|].
    + intros _. lia.
    + rewrite lookup_insert_ne by done. intros H. apply Hb in H. lia.
  - exists T. split; [|done]. simpl. rewrite lookup_insert_ne; [done|].
    apply Hb in HT. lia.
Qed.

Lemma gate_resolved_gate_resolve t g v g' t' v' :
  hoare (gate_resolved t g v) (gate_resolve g' t' v') (gate_resolved t g v).
Proof.
  intros s HI. unfold gate_resolve, bind, get_task.
  destruct (tasks s !! t') as [T'|] eqn:E; [|done]. simpl.
  destruct (fut_done (g_state (get_gate g' T'))) eqn:Ed; [done|]. simpl.
  eapply gate_resolved_ext; [reflexivity|reflexivity|].
  apply gate_resolved_alter; [|done].
  destruct HI as (_ & _ & Hv).
  intros T0 H0 <-. simplify_eq. destruct g, g'; simpl in *; congruence.
Qed.

(** * Invariants of the whole engine

    A property of the state that the operations listed as hypotheses keep
    is kept by every action of the program. *)

Section engine_invariant.
Variable I : sys → Prop.

Hypothesis I_fields : ∀ s s',
  tasks s' = tasks s → futures s' = futures s → next_id s' = next_id s →
  emitted s' = emitted s → I s → I s'.
Hypothesis I_minor : ∀ t f, minor f → hoare I (modify_task t f) I.
Hypothesis I_fresh : hoare I fresh I.
Hypothesis I_resolve_started : ∀ t v, hoare I (gate_resolve Started t v) I.
Hypothesis I_future_cancel : ∀ f, hoare I (future_cancel f) I.
Hypothesis I_emit : ∀ ev, hoare I (emit ev) I.
Hypothesis I_events : ∀ t ty, hoare I (events t ty) I.
Hypothesis I_cancel_rec : ∀ fuel t d, hoare I (cancel_rec fuel t d) I.
Hypothesis I_failed : ∀ t e, hoare I (__failed t e) I.
Hypothesis I_check_finish : ∀ t, hoare I (__check_finish t) I.
Hypothesis I_Task_init : ∀ root, hoare I (Task_init root) I.
Hypothesis I_task_main_step : ∀ t r, hoare I (task_main_step t r) I.

Ltac minor_solve :=
  let T := fresh "T" in
  intros T; destruct T; unfold core; simpl;
  repeat match goal with
         | |- context [match ?x with _ => _ end] => destruct x; simpl
         end;
  reflexivity.

Ltac engine_leaf :=
  first
    [ apply I_fresh | apply I_resolve_started | apply I_future_cancel
    | apply I_emit | apply I_events | apply I_cancel_rec | apply I_failed
    | apply I_check_finish | apply I_Task_init | apply I_task_main_step
    | apply I_minor; minor_solve
    | apply hoare_modify; let s := fresh in let H := fresh in
      intros s H; apply (I_fields s); [reflexivity..|exact H] ].

Lemma I_call_soon cb : hoare I (call_soon cb) I.
Proof. unfold call_soon. engine_leaf. Qed.

Lemma I_gate_add_done_callback g t cb :
  hoare I (gate_add_done_callback g t cb) I.
Proof.
  unfold gate_add_done_callback, gate_done, call_soon.
  hoare_inv engine_leaf. destruct g; engine_leaf.
Qed.

Lemma I_gate_remove_done_callback g t cb :
  hoare I (gate_remove_done_callback g t cb) I.
Proof. unfold gate_remove_done_callback. destruct g; engine_leaf. Qed.

Lemma I___cancel t d : hoare I (__cancel t d) I.
Proof. intros s. apply I_cancel_rec. Qed.

Lemma I_cancel t : hoare I (cancel t) I.
Proof.
  unfold cancel. apply hoare_inv_bind.
  { intros s HI. unfold current_task. by destruct (_current_task s). }
  intros c. hoare_inv ltac:(first [apply I___cancel | engine_leaf]).
Qed.

Lemma I___discard_via t t' : hoare I (__discard_via t t') I.
Proof.
  unfold __discard_via. hoare_inv ltac:(first [apply I___cancel | engine_leaf]).
Qed.
Ltac engine_leaf' :=
  first
    [ apply I_call_soon | apply I_gate_add_done_callback
    | apply I_gate_remove_done_callback | apply I___cancel | apply I_cancel
    | apply I___discard_via | engine_leaf ].

Lemma I_create_task b : hoare I (create_task b) I.
Proof. unfold create_task. hoare_inv engine_leaf'. Qed.

Lemma I_aio_task_cancel b : hoare I (aio_task_cancel b) I.
Proof. unfold aio_task_cancel. engine_leaf'. Qed.

Lemma I_background t target w e : hoare I (background t target w e) I.
Proof.
  unfold background.
  hoare_inv ltac:(first [apply I_create_task | engine_leaf']).
Qed.

Lemma I___cleanup t : hoare I (__cleanup t) I.
Proof.
  unfold __cleanup, on_cleanup.
  hoare_inv ltac:(first [apply I_aio_task_cancel | engine_leaf']).
Qed.

Lemma I___check_start t : hoare I (__check_start t) I.
Proof.
  unfold __check_start, gate_set_result. hoare_inv engine_leaf'.
Qed.

Lemma I___propagate_failure t t' e w : hoare I (__propagate_failure t t' e w) I.
Proof.
  unfold __propagate_failure, gate_exception.
  hoare_inv ltac:(first [apply I_background | engine_leaf']).
Qed.

Lemma I___dependency_finished t t' : hoare I (__dependency_finished t t') I.
Proof.
  unfold __dependency_finished, pop_pending_dependencies.
  hoare_inv ltac:(first [apply I___propagate_failure | apply I___check_start
                        | engine_leaf']).
Qed.

Lemma I___child_finished t t' : hoare I (__child_finished t t') I.
Proof.
  unfold __child_finished, pop_pending_children.
  hoare_inv ltac:(first [apply I___propagate_failure | engine_leaf']).
Qed.

Lemma I_depends_on t t' : hoare I (depends_on t t') I.
Proof. unfold depends_on. hoare_inv engine_leaf'. Qed.

Lemma I_set_error_handler t k h : hoare I (set_error_handler t k h) I.
Proof. unfold set_error_handler. engine_leaf'. Qed.

Lemma I_background_wrapper_exit b r : hoare I (background_wrapper_exit b r) I.
Proof.
  intros s HI. unfold background_wrapper_exit.
  destruct (aio_tasks s !! b) as [B|]; [|done].
  destruct (bg_exited B); [done|]. revert s HI.
  change (hoare I
    (modify (set_aio_tasks (<[b := BgTask (bg_owner B) (bg_target_of B)
                                (bg_wait B) (bg_cancel_requested B) true]>));;
     try_finally
       (match r with
        | Resume => ret tt
        | Throw e =>
            if is_CancelledError e then ret tt else __failed (bg_owner B) (Some e)
        end)
       (if bg_wait B then
          T ← get_task (bg_owner B);
          (if decide (b ∈ aio_wait_background_tasks T)
           then modify_task (bg_owner B)
                  (set_aio_wait_background_tasks (StableSet_discard b))
           else raise KeyError);;
          __check_finish (bg_owner B)
        else
          modify_task (bg_owner B)
            (set_aio_background_tasks (StableSet_discard b)))) I).
  hoare_inv engine_leaf'.
Qed.

Lemma I_run_callback cb : hoare I (run_callback cb) I.
Proof.
  unfold run_callback.
  hoare_inv ltac:(first [apply I___dependency_finished | apply I___child_finished
                        | apply I___check_start | engine_leaf']).
Qed.

Lemma I_run_once : hoare I run_once I.
Proof.
  intros s HI. unfold run_once. destruct (ready s) as [|cb q] eqn:E; [done|].
  apply I_run_callback. by apply (I_fields s).
Qed.

Lemma I_lease_becomes_ready t : hoare I (lease_becomes_ready t) I.
Proof.
  unfold lease_becomes_ready.
  hoare_inv ltac:(first [apply I___check_start | engine_leaf']).
Qed.

Lemma I_set_use_lease_prop t v : hoare I (set_use_lease_prop t v) I.
Proof. unfold set_use_lease_prop. hoare_inv engine_leaf'. Qed.

Lemma I_exec_call c : hoare I (exec_call c) I.
Proof.
  unfold exec_call, TaskEvent_init, current_task.
  hoare_inv ltac:(first [apply I_depends_on | apply I_set_error_handler
                        | apply I_background | apply I_set_use_lease_prop
                        | apply I_aio_task_cancel | engine_leaf']).
  intros s HI. by destruct (_current_task s).
Qed.

(** Every action keeps the property. *)
Lemma I_exec a : hoare I (exec a) I.
Proof.
  unfold exec.
  hoare_inv ltac:(first [apply I_run_once | apply I_background_wrapper_exit
                        | apply I_lease_becomes_ready | apply I_exec_call
                        | engine_leaf']).
Qed.

Lemma I_reachable s : (∀ s0, initial s0 → I s0) → reachable s → I s.
Proof.
  intros Hi. induction 1 as [s Hs|s a Hs IH]; [by apply Hi|].
  by apply I_exec.
Qed.
End engine_invariant.


(** ** Properties of the tasks alone

    The primitive operations that leave the tasks as they are. *)

Section tasks_only.
Variable I : sys → Prop.
Hypothesis HI : tasks_only I.

Lemma to_modify (f : sys → sys) :
  (∀ s, tasks (f s) = tasks s ∧ next_id s ≤ next_id (f s)) →
  hoare I (modify f) I.
Proof. intros Hf s Hs. destruct (Hf s). by apply (HI s). Qed.

Lemma to_fresh : hoare I fresh I.
Proof. intros s Hs. apply (HI s); simpl; done || lia. Qed.

Lemma to_new_future : hoare I new_future I.
Proof. intros s Hs. apply (HI s); simpl; done || lia. Qed.

Lemma to_future_set_result f v : hoare I (future_set_result f v) I.
Proof.
  intros s Hs. unfold future_set_result.
  destruct (futures s !! f) as [[| | |]|]; simpl; try done.
  by apply (HI s).
Qed.

Lemma to_future_cancel f : hoare I (future_cancel f) I.
Proof.
  intros s Hs. unfold future_cancel.
  destruct (futures s !! f) as [[| | |]|]; simpl; try done.
  by apply (HI s).
Qed.

Lemma to_current_task : hoare I current_task I.
Proof. intros s Hs. unfold current_task. by destruct (_current_task s). Qed.

Lemma to_call_soon cb : hoare I (call_soon cb) I.
Proof. intros s Hs. by apply (HI s). Qed.

Lemma to_create_task b : hoare I (create_task b) I.
Proof. intros s Hs. apply (HI s); simpl; done || lia. Qed.

Lemma to_aio_task_cancel b : hoare I (aio_task_cancel b) I.
Proof. intros s Hs. by apply (HI s). Qed.

Lemma to_as_current_task {A} t (m : M A) :
  hoare I m I → hoare I (as_current_task t m) I.
Proof.
  apply hoare_as_current_task. intros s v Hs. by apply (HI s).
Qed.

Lemma to_fields s s' :
  tasks s' = tasks s → futures s' = futures s → next_id s' = next_id s →
  emitted s' = emitted s → I s → I s'.
Proof. intros ? ? ? ?. apply HI; [done|lia]. Qed.
End tasks_only.

(** The leaves that leave the tasks alone; [H] proves [tasks_only I]. *)
Ltac to_leaf H :=
  lazymatch goal with
  | |- hoare _ fresh _ => apply to_fresh; H
  | |- hoare _ new_future _ => apply to_new_future; H
  | |- hoare _ (future_set_result _ _) _ => apply to_future_set_result; H
  | |- hoare _ (future_cancel _) _ => apply to_future_cancel; H
  | |- hoare _ current_task _ => apply to_current_task; H
  | |- hoare _ (call_soon _) _ => apply to_call_soon; H
  | |- hoare _ (create_task _) _ => apply to_create_task; H
  | |- hoare _ (aio_task_cancel _) _ => apply to_aio_task_cancel; H
  | |- hoare _ (as_current_task _ _) _ => apply to_as_current_task; [H|]
  | |- hoare _ (modify (set_tasks _)) _ => fail
  | |- hoare _ (modify _) _ =>
      apply to_modify; [H|intros; split; [reflexivity|simpl; lia]]
  end.

(** The walk of [__emit_event__] keeps what its leaves keep. *)
Lemma hoare_emit (I : sys → Prop) ev :
  tasks_only I →
  (∀ t f, hoare I (modify_task t (set_event_cursors f)) I) →
  hoare I (emit ev) I.
Proof.
  intros H Hc. unfold emit, __emit_event__.
  apply hoare_inv_bind; [to_leaf ltac:(exact H)|]. intros _.
  apply hoare_inv_bind; [apply hoare_assert|]. intros _.
  generalize (S (ev_source ev)), (Some (ev_source ev)).
  intros fuel. induction fuel as [|fuel IH]; intros [c|]; simpl;
    try apply hoare_ret; try apply hoare_stuck.
  apply hoare_inv_bind.
  - apply hoare_for_each. intros item _. unfold emit_to_cursor.
    apply hoare_inv_bind; [apply hoare_inv_get_task|]. intros T.
    destruct (event_cursors T !! item); [|apply hoare_ret].
    apply hoare_inv_bind; [to_leaf ltac:(exact H)|]. intros next.
    apply hoare_inv_bind; [to_leaf ltac:(exact H)|]. intros _. apply Hc.
  - intros _. apply hoare_inv_bind; [apply hoare_inv_get_task|]. intros T.
    apply IH.
Qed.

Lemma hoare_events (I : sys → Prop) t ty :
  tasks_only I →
  (∀ t f, hoare I (modify_task t (set_event_cursors f)) I) →
  hoare I (events t ty) I.
Proof.
  intros H Hc. unfold events.
  apply hoare_inv_bind; [apply hoare_inv_get_task|]. intros T.
  destruct (event_cursors T !! ty); [apply hoare_ret|].
  apply hoare_inv_bind; [to_leaf ltac:(exact H)|]. intros c.
  apply hoare_inv_bind; [apply Hc|]. intros _. apply hoare_ret.
Qed.

(** ** A resolved gate keeps its value *)

Lemma gate_resolved_tasks_only t g v : tasks_only (gate_resolved t g v).
Proof. intros s s' ? ?. by apply gate_resolved_ext. Qed.

Ltac gate_setter_solve :=
  let T := fresh "T" in let H := fresh "H" in
  intros T H; destruct T; unfold get_gate, set_gate in *;
  simpl in *; repeat case_match; simpl in *; done.

Ltac gate_leaf :=
  first
    [ lazymatch goal with
      | |- hoare _ (gate_resolve _ _ _) _ => apply gate_resolved_gate_resolve
      | |- hoare _ (modify_task _ _) _ =>
          apply gate_resolved_modify_task; gate_setter_solve
      end
    | to_leaf ltac:(apply gate_resolved_tasks_only) ].

Section once.
Variables (t : tid) (g : gate_name) (v : fut unit).
#[local] Abbreviation I := (gate_resolved t g v).

Lemma once_fields s s' :
  tasks s' = tasks s → futures s' = futures s → next_id s' = next_id s →
  emitted s' = emitted s → I s → I s'.
Proof. apply to_fields, gate_resolved_tasks_only. Qed.

Lemma once_minor t' f : minor f → hoare I (modify_task t' f) I.
Proof.
  intros Hf. apply gate_resolved_modify_task. intros T <-.
  specialize (Hf T). unfold core in Hf. destruct g; simpl; congruence.
Qed.

Lemma once_emit ev : hoare I (emit ev) I.
Proof.
  apply hoare_emit; [apply gate_resolved_tasks_only|]. intros. gate_leaf.
Qed.

Lemma once_events t' ty : hoare I (events t' ty) I.
Proof.
  apply hoare_events; [apply gate_resolved_tasks_only|]. intros. gate_leaf.
Qed.

Lemma once_change_state t' st : hoare I (__change_state t' st) I.
Proof.
  unfold __change_state, TaskEvent_init.
  hoare_inv ltac:(first [apply once_emit | gate_leaf]).
Qed.

Lemma once_cancel_rec fuel t' d : hoare I (cancel_rec fuel t' d) I.
Proof.
  revert t'. induction fuel as [|fuel IH]; intros t'; simpl.
  - apply hoare_stuck.
  - unfold if_not_done, gate_done, gate_cancel, gate_done, on_cancel.
    hoare_inv ltac:(first [apply IH | apply once_change_state | gate_leaf]).
Qed.

Lemma once_failed t' e : hoare I (__failed t' e) I.
Proof.
  unfold __failed, if_not_done, gate_done, gate_set_exception, gate_exception.
  hoare_inv ltac:(first [apply once_change_state | gate_leaf]).
  intros s. apply once_cancel_rec.
Qed.

Lemma once_cleanup t' : hoare I (__cleanup t') I.
Proof.
  apply I___cleanup;
    [apply once_fields|apply once_minor|gate_leaf|intros; gate_leaf].
Qed.

Lemma once_check_finish t' : hoare I (__check_finish t') I.
Proof.
  unfold __check_finish, gate_set_result.
  hoare_inv ltac:(first [apply once_cleanup | gate_leaf]).
Qed.

Lemma once_alloc_task T' : hoare I (alloc_task T') I.
Proof. intros s HI. by apply gate_resolved_insert. Qed.

Lemma once_Task_init root : hoare I (Task_init root) I.
Proof.
  unfold Task_init, __add_child, gate_add_done_callback, gate_done.
  hoare_inv ltac:(first [apply once_alloc_task | gate_leaf]).
Qed.

Lemma once_propagate_failure t1 t2 e w : hoare I (__propagate_failure t1 t2 e w) I.
Proof.
  apply I___propagate_failure;
    [apply once_fields|apply once_minor|gate_leaf|apply once_failed].
Qed.

Lemma once_check_start t' : hoare I (__check_start t') I.
Proof.
  apply I___check_start;
    [apply once_fields|apply once_minor|intros; gate_leaf].
Qed.

Lemma once_main_segment self seg next :
  hoare I seg I → hoare I (main_segment self seg next) I.
Proof.
  intros Hseg s HI. specialize (Hseg s HI). unfold main_segment.
  destruct (seg s) as [[[]|e|] s1]; simpl in *; [| |done].
  - destruct next as [p|]; revert s1 Hseg.
    + apply gate_resolved_modify_task. gate_setter_solve.
    + change (hoare I (set_pc self PcExited;; main_finally self) I).
      unfold set_pc, main_finally.
      hoare_inv ltac:(first [apply once_cleanup | gate_leaf]).
  - revert s1 Hseg.
    change (hoare I (set_pc self PcExited;;
                     try_finally (main_except self e) (main_finally self)) I).
    unfold set_pc, main_finally, main_except.
    hoare_inv ltac:(first [apply once_cleanup | apply once_propagate_failure
                          | gate_leaf]).
Qed.

Lemma once_task_main_step self r : hoare I (task_main_step self r) I.
Proof.
  unfold task_main_step, set_pc, TaskEvent_init.
  hinv ltac:(first
    [ lazymatch goal with
      | |- hoare _ (main_segment _ _ _) _ => apply once_main_segment
      | |- hoare _ (emit _) _ => apply once_emit
      | |- hoare _ (__change_state _ _) _ => apply once_change_state
      | |- hoare _ (__check_finish _) _ => apply once_check_finish
      | |- hoare _ (__check_start _) _ => apply once_check_start
      end
    | gate_leaf ]).
Qed.

(** Every action of the program leaves a resolved gate as it is. *)
Lemma once_exec a : hoare I (exec a) I.
Proof.
  apply I_exec;
    [ apply once_fields | apply once_minor | gate_leaf | intros; gate_leaf
    | apply once_emit | apply once_events | apply once_cancel_rec
    | apply once_failed | apply once_check_finish | apply once_Task_init
    | apply once_task_main_step ].
Qed.
End once.
(** ** The finished-gate comes after the started-gate *)

Lemma hoare_conj {A} (P P' Q Q' : sys → Prop) (m : M A) :
  hoare P m Q → hoare P' m Q' → hoare (λ s, P s ∧ P' s) m (λ s, Q s ∧ Q' s).
Proof. intros H H' s [? ?]. split; auto. Qed.

Lemma gates_inv_ext s s' :
  tasks s' = tasks s → next_id s ≤ next_id s' → gates_inv s → gates_inv s'.
Proof.
  intros Ht Hn [Hb H]. unfold gates_inv, tasks_bound. rewrite Ht.
  split; [|done]. intros ?? Hx. apply Hb in Hx. lia.
Qed.

Lemma gates_inv_alter s t (f : Task → Task) :
  (∀ T, tasks s !! t = Some T → gates_ok T → gates_ok (f T)) →
  gates_inv s → gates_inv (set_tasks (alter f t) s).
Proof.
  intros Hf [Hb H]. split.
  - intros x Tx. simpl. destruct (decide (x = t)) as [->|].
    + rewrite lookup_alter_eq. destruct (tasks s !! t) eqn:E; [|done].
      intros _. by eapply Hb.
    + rewrite lookup_alter_ne by done. apply Hb.
  - intros x Tx. simpl. destruct (decide (x = t)) as [->|].
    + rewrite lookup_alter_eq. destruct (tasks s !! t) eqn:E; [|done].
      intros [= <-]. eauto.
    + rewrite lookup_alter_ne by done. apply H.
Qed.

Lemma gates_inv_modify_task t (f : Task → Task) :
  (∀ T, gates_ok T → gates_ok (f T)) →
  hoare gates_inv (modify_task t f) gates_inv.
Proof. intros Hf s HI. apply gates_inv_alter; auto. Qed.

Lemma gates_inv_insert s T' :
  gates_ok T' → gates_inv s →
  gates_inv (set_tasks (<[next_id s := T']>) (set_next_id (S (next_id s)) s)).
Proof.
  intros HT' [Hb H]. split.
  - intros x Tx. simpl. destruct (decide (x = next_id s)) as [->|].
    + intros _. lia.
    + rewrite lookup_insert_ne by done. intros Hx. apply Hb in Hx. lia.
  - intros x Tx. simpl. destruct (decide (x = next_id s)) as [->|].
    + rewrite lookup_insert_eq. by intros [= <-].
    + rewrite lookup_insert_ne by done. apply H.
Qed.

Lemma gates_inv_resolve_started t v :
  hoare gates_inv (gate_resolve Started t v) gates_inv.
Proof.
  intros s HI. unfold gate_resolve, bind, get_task.
  destruct (tasks s !! t) as [T|] eqn:E; [|done]. simpl.
  destruct (fut_done (g_state (started T))) eqn:Ed; [done|]. simpl.
  eapply gates_inv_ext; [reflexivity|reflexivity|].
  apply gates_inv_alter; [|done]. intros T0 H0 Hok. simplify_eq.
  unfold gates_ok in *. destruct T; simpl in *. intros H.
  apply Hok in H. congruence.
Qed.

(** Resolving the finished-gate of a task whose started-gate is done. *)
Lemma gates_inv_resolve_finished t v :
  hoare (λ s, gates_inv s ∧ started_done t s)
    (gate_resolve Finished t v) (λ s, gates_inv s ∧ started_done t s).
Proof.
  intros s [HI Hd]. unfold gate_resolve, bind, get_task.
  destruct (tasks s !! t) as [T|] eqn:E; [|done]. simpl.
  destruct (fut_done (g_state (finished T))) eqn:Ed; [done|]. simpl.
  split.
  - eapply gates_inv_ext; [reflexivity|reflexivity|].
    apply gates_inv_alter; [|done]. intros T0 H0 Hok. simplify_eq.
    specialize (Hd _ E). unfold gates_ok. by destruct T.
  - intros T'. simpl. rewrite lookup_alter_eq, E. intros [= <-].
    specialize (Hd _ E). by destruct T.
Qed.

Ltac gates_setter_solve :=
  let T := fresh "T" in let H := fresh "H" in
  intros T H; destruct T; unfold gates_ok in *; simpl in *;
  repeat case_match; simpl in *; try exact H; intuition congruence.

Lemma gates_inv_tasks_only : tasks_only gates_inv.
Proof. intros s s' ? ?. by apply gates_inv_ext. Qed.

Ltac gates_leaf :=
  first
    [ lazymatch goal with
      | |- hoare _ (gate_resolve Started _ _) _ => apply gates_inv_resolve_started
      | |- hoare _ (modify_task _ _) _ =>
          apply gates_inv_modify_task; gates_setter_solve
      end
    | to_leaf ltac:(apply gates_inv_tasks_only) ].

Lemma gates_fields s s' :
  tasks s' = tasks s → futures s' = futures s → next_id s' = next_id s →
  emitted s' = emitted s → gates_inv s → gates_inv s'.
Proof. apply to_fields, gates_inv_tasks_only. Qed.

Lemma gates_minor t f : minor f → hoare gates_inv (modify_task t f) gates_inv.
Proof.
  intros Hf. apply gates_inv_modify_task. intros T.
  specialize (Hf T). unfold core in Hf.
  injection Hf as _ _ H1 H2 H3 H4 _. unfold gates_ok.
  by rewrite H1, H2, H3, H4.
Qed.

Lemma gates_emit ev : hoare gates_inv (emit ev) gates_inv.
Proof. apply hoare_emit; [apply gates_inv_tasks_only|]. intros. gates_leaf. Qed.

Lemma gates_events t ty : hoare gates_inv (events t ty) gates_inv.
Proof. apply hoare_events; [apply gates_inv_tasks_only|]. intros. gates_leaf. Qed.

Lemma gates_cleanup t : hoare gates_inv (__cleanup t) gates_inv.
Proof.
  apply I___cleanup;
    [apply gates_fields|apply gates_minor|gates_leaf|intros; gates_leaf].
Qed.

Lemma started_resolved_done t s : started_resolved t s → started_done t s.
Proof.
  intros (v & _ & (T & HT & <-) & Hv) T' HT'. by simplify_eq.
Qed.

Lemma started_resolved_intro t s T :
  tasks_bound s → tasks s !! t = Some T →
  fut_done (g_state (started T)) = true → started_resolved t s.
Proof. intros Hb HT Hd. exists (g_state (started T)). split_and!; [done| |done]. by exists T. Qed.

Lemma started_resolved_stable {A} t (m : M A) :
  (∀ v, hoare (gate_resolved t Started v) m (gate_resolved t Started v)) →
  hoare (started_resolved t) m (started_resolved t).
Proof. intros H s [v Hv]. exists v. by apply H. Qed.

Lemma gates_change_state t st :
  hoare (λ s, gates_inv s ∧ (st = waiting → started_done t s))
    (__change_state t st) gates_inv.
Proof.
  unfold __change_state. apply hoare_get_task; [tauto|]. intros T.
  destruct (decide (state T = st)); [by intros s [[? ?] ?]|].
  eapply hoare_bind with (R := gates_inv); [|done|].
  - intros s [[HI Hw] HT]. apply gates_inv_alter; [|done].
    intros T0 HT0 Hok. rewrite HT in HT0. injection HT0 as <-.
    unfold gates_ok in *.
    destruct (decide (st = waiting)) as [->|].
    + intros _. specialize (Hw eq_refl _ HT). by destruct T.
    + destruct T; simpl in *. intuition congruence.
  - intros _. unfold TaskEvent_init.
    hinv ltac:(first
      [ lazymatch goal with |- hoare _ (emit _) _ => apply gates_emit end
      | gates_leaf ]).
Qed.

Lemma gates_change_state' t st :
  st ≠ waiting → hoare gates_inv (__change_state t st) gates_inv.
Proof.
  intros Hst. eapply hoare_conseq; [apply (gates_change_state t st)| |done].
  intros s HI. split; [done|]. done.
Qed.

Lemma gate_resolve_started_done t v :
  fut_done v = true →
  hoare gates_inv (gate_resolve Started t v) (λ s, gates_inv s ∧ started_done t s).
Proof.
  intros Hv s HI. split; [by apply gates_inv_resolve_started|].
  unfold gate_resolve, bind, get_task.
  destruct (tasks s !! t) as [T|] eqn:E; simpl; [|by intros ? ?; simplify_eq].
  destruct (fut_done (g_state (started T))) eqn:Ed; simpl.
  - intros T' ?. by simplify_eq.
  - intros T'. unfold modify_task, modify. simpl.
    rewrite lookup_alter_eq, E. intros [= <-]. by destruct T.
Qed.

Lemma started_done_frame t s s' :
  tasks s' = tasks s → started_done t s → started_done t s'.
Proof. unfold started_done. by intros ->. Qed.

(** A test of [done()]: the continuation starts knowing the gate. *)
Lemma hoare_gate_done {B} (P Q : sys → Prop) g t (k : bool → M B) :
  (∀ s, P s → tasks s !! t = None → Q s) →
  (∀ T, hoare (λ s, P s ∧ tasks s !! t = Some T)
          (k (fut_done (g_state (get_gate g T)))) Q) →
  hoare P (bind (gate_done g t) k) Q.
Proof.
  intros HPQ Hk s HP. unfold gate_done, bind, get_task, ret. cbv beta.
  destruct (tasks s !! t) as [T|] eqn:E; simpl; [|by apply HPQ].
  by apply Hk.
Qed.

Lemma started_done_None t s : tasks s !! t = None → started_done t s.
Proof. intros H T HT. by rewrite H in HT. Qed.

(** [if not self.__started.done(): m], where [m] resolves the gate. *)
Lemma gates_started_block t (m : M unit) :
  hoare gates_inv m (λ s, gates_inv s ∧ started_done t s) →
  hoare gates_inv (if_not_done Started t m)
    (λ s, gates_inv s ∧ started_done t s).
Proof.
  intros Hm. unfold if_not_done. apply hoare_gate_done.
  - intros s ? ?. split; [done|]. by apply started_done_None.
  - intros T. destruct (fut_done _) eqn:Ed; simpl.
    + intros s [? HT]. simpl. split; [done|]. intros T' ?. by simplify_eq.
    + eapply hoare_conseq; [apply Hm|tauto|done].
Qed.

Lemma gates_cancel_started t :
  hoare gates_inv (gate_cancel Started t;; ret tt)
    (λ s, gates_inv s ∧ started_done t s).
Proof.
  eapply hoare_bind with (R := λ s, gates_inv s ∧ started_done t s);
    [|done|intros; apply hoare_ret].
  unfold gate_cancel. apply hoare_gate_done.
  - intros s ? ?. split; [done|]. by apply started_done_None.
  - intros T. destruct (fut_done _) eqn:Ed; simpl.
    + intros s [? HT]. simpl. split; [done|]. intros T' ?. by simplify_eq.
    + eapply hoare_bind with (R := λ s, gates_inv s ∧ started_done t s);
        [|done|intros; apply hoare_ret].
      eapply hoare_conseq;
        [by apply (gate_resolve_started_done t FCancelled)|tauto|done].
Qed.

Lemma gates_set_exception_started t e :
  hoare gates_inv
    (gate_set_exception Started t e;; gate_exception Started t;; ret tt)
    (λ s, gates_inv s ∧ started_done t s).
Proof.
  eapply hoare_bind with (R := λ s, gates_inv s ∧ started_done t s);
    [by apply gate_resolve_started_done|done|].
  intros _. unfold gate_exception. hinv fail.
Qed.

Ltac gates_finished_leaf :=
  idtac;
  lazymatch goal with
  | |- hoare _ (gate_resolve Finished _ _) _ => apply gates_inv_resolve_finished
  end.

Lemma gates_finished_block_cancel t :
  hoare (λ s, gates_inv s ∧ started_done t s)
    (if_not_done Finished t (gate_cancel Finished t;; ret tt))
    (λ s, gates_inv s ∧ started_done t s).
Proof.
  unfold if_not_done, gate_cancel, gate_done. hinv gates_finished_leaf.
Qed.

Lemma gates_finished_block_exception t e :
  hoare (λ s, gates_inv s ∧ started_done t s)
    (if_not_done Finished t
       (gate_set_exception Finished t e;; gate_exception Finished t;; ret tt))
    (λ s, gates_inv s ∧ started_done t s).
Proof.
  unfold if_not_done, gate_set_exception, gate_exception, gate_done.
  hinv gates_finished_leaf.
Qed.

Lemma gates_cancel_rec fuel t d : hoare gates_inv (cancel_rec fuel t d) gates_inv.
Proof.
  revert t. induction fuel as [|fuel IH]; intros t; simpl.
  - apply hoare_stuck.
  - apply hoare_inv_bind; [apply hoare_inv_get_task|]. intros T.
    destruct (is_finished T); [apply hoare_ret|].
    apply hoare_inv_bind; [gates_leaf|]. intros _.
    apply hoare_inv_bind; [gates_leaf|]. intros _.
    eapply hoare_bind;
      [apply gates_started_block, gates_cancel_started
      |by intros ? [? ?]|]. intros _.
    eapply hoare_bind;
      [apply gates_finished_block_cancel|by intros ? [? ?]|]. intros _.
    eapply hoare_conseq with (Q' := gates_inv); [| |done].
    2:{ intros s H. exact (proj1 H). }
    unfold on_cancel.
    hinv ltac:(first
      [ lazymatch goal with
        | |- hoare _ (cancel_rec _ _ _) _ => apply IH
        | |- hoare _ (__change_state _ _) _ =>
            apply gates_change_state'; by destruct d
        end
      | gates_leaf ]).
Qed.

Lemma gates_failed t e : hoare gates_inv (__failed t e) gates_inv.
Proof.
  unfold __failed.
  apply hoare_inv_bind; [apply hoare_inv_get_task|]. intros T.
  destruct e as [e|]; [|apply hoare_ret].
  destruct (is_finished T); [apply hoare_ret|].
  apply hoare_inv_bind; [gates_leaf|]. intros _.
  eapply hoare_bind;
    [apply gates_started_block, gates_set_exception_started
    |by intros ? [? ?]|]. intros _.
  eapply hoare_bind;
    [apply gates_finished_block_exception|by intros ? [? ?]|]. intros _.
  eapply hoare_conseq with (Q' := gates_inv); [| |done].
  2:{ intros s H. exact (proj1 H). }
  hinv ltac:(first
    [ lazymatch goal with
      | |- hoare _ (__change_state _ _) _ => by apply gates_change_state'
      | |- hoare _ (__cancel _ _) _ => intros s; apply gates_cancel_rec
      end
    | gates_leaf ]).
Qed.

Lemma gates_check_finish t : hoare gates_inv (__check_finish t) gates_inv.
Proof.
  unfold __check_finish. apply hoare_get_task; [done|]. intros T.
  destruct (bool_decide (state T = waiting)) eqn:Hw; simpl;
    [|by intros s [? ?]].
  apply bool_decide_eq_true in Hw.
  destruct (bool_decide (pending_children T = [])); simpl; [|by intros s [? ?]].
  destruct (bool_decide (aio_wait_background_tasks T = [])); simpl;
    [|by intros s [? ?]].
  eapply hoare_conseq with
    (P' := λ s, gates_inv s ∧ started_resolved t s) (Q' := gates_inv); [| |done].
  2:{ intros s [HI HT]. split; [done|].
      eapply started_resolved_intro; [apply HI|done|].
      destruct HI as [_ HI]. apply (HI _ _ HT). auto. }
  eapply hoare_bind with (R := λ s, gates_inv s ∧ started_resolved t s).
  - apply hoare_conj; [apply gates_cleanup|].
    apply started_resolved_stable. intros v. apply once_cleanup.
  - by intros ? [? ?].
  - intros _. unfold gate_set_result.
    eapply hoare_conseq; [apply (gates_inv_resolve_finished t)| |].
    + intros s [? ?]. split; [done|]. by apply started_resolved_done.
    + by intros ? [? ?].
Qed.

Lemma gates_alloc_task T' :
  gates_ok T' → hoare gates_inv (alloc_task T') gates_inv.
Proof. intros HT' s HI. by apply gates_inv_insert. Qed.

Lemma gates_Task_init root : hoare gates_inv (Task_init root) gates_inv.
Proof.
  unfold Task_init, __add_child, gate_add_done_callback, gate_done.
  hinv ltac:(first
    [ lazymatch goal with
      | |- hoare _ (alloc_task _) _ =>
          apply gates_alloc_task; unfold gates_ok; simpl; intuition congruence
      end
    | gates_leaf ]).
Qed.

Lemma gates_propagate_failure t1 t2 e w :
  hoare gates_inv (__propagate_failure t1 t2 e w) gates_inv.
Proof.
  apply I___propagate_failure;
    [apply gates_fields|apply gates_minor|gates_leaf|apply gates_failed].
Qed.

Lemma gates_check_start t : hoare gates_inv (__check_start t) gates_inv.
Proof.
  apply I___check_start;
    [apply gates_fields|apply gates_minor|intros; gates_leaf].
Qed.

(** The coroutine may suspend at [next] when the piece it ran leaves the
    started-gate done, if [next] is [on_run]. *)
Lemma gates_main_segment self seg next (P R : sys → Prop) :
  hoare P seg R → (∀ s, R s → gates_inv s) →
  (next = Some PcOnRun → ∀ s, R s → started_done self s) →
  hoare P (main_segment self seg next) gates_inv.
Proof.
  intros Hseg HR Hnext s HP. specialize (Hseg s HP). unfold main_segment.
  destruct (seg s) as [[[]|e|] s1]; simpl in *; [| |by apply HR].
  - destruct next as [p|].
    + apply gates_inv_alter; [|by apply HR].
      intros T HT Hok. unfold gates_ok in *.
      destruct (decide (p = PcOnRun)) as [->|].
      * intros _. specialize (Hnext eq_refl _ Hseg _ HT). by destruct T.
      * destruct T; simpl in *. intuition congruence.
    + apply HR in Hseg. revert s1 Hseg.
      change (hoare gates_inv (set_pc self PcExited;; main_finally self) gates_inv).
      unfold set_pc, main_finally.
      hinv ltac:(first
        [ lazymatch goal with
          | |- hoare _ (__cleanup _) _ => apply gates_cleanup
          end
        | gates_leaf ]).
  - apply HR in Hseg. revert s1 Hseg.
    change (hoare gates_inv
              (set_pc self PcExited;;
               try_finally (main_except self e) (main_finally self)) gates_inv).
    unfold set_pc, main_finally, main_except.
    hinv ltac:(first
      [ lazymatch goal with
        | |- hoare _ (__cleanup _) _ => apply gates_cleanup
        | |- hoare _ (__propagate_failure _ _ _ _) _ =>
            apply gates_propagate_failure
        end
      | gates_leaf ]).
Qed.

Lemma gates_main_segment' self seg next :
  next ≠ Some PcOnRun →
  hoare gates_inv seg gates_inv →
  hoare gates_inv (main_segment self seg next) gates_inv.
Proof. intros Hn Hseg. by eapply gates_main_segment. Qed.

Lemma hoare_modify_bind {B} (P Q : sys → Prop) f (m : M B) :
  (∀ s, P s → hoare (λ s1, s1 = f s) m Q) → hoare P (modify f;; m) Q.
Proof. intros H s HP. unfold bind, modify. simpl. by eapply H. Qed.

Lemma gates_task_main_step self r :
  hoare gates_inv (task_main_step self r) gates_inv.
Proof.
  unfold task_main_step. apply hoare_get_task; [done|]. intros T.
  destruct (pc (aio_main_task T)) eqn:Hpc.
  - (* PcCreated *)
    eapply hoare_conseq with (P' := gates_inv) (Q' := gates_inv);
      [|by intros ? [? ?]|done].
    destruct (cancel_requested _); unfold set_pc; [gates_leaf|].
    apply hoare_inv_bind; [gates_leaf|]. intros _.
    apply gates_main_segment'; [done|]. unfold TaskEvent_init.
    hinv ltac:(first
      [ lazymatch goal with |- hoare _ (emit _) _ => apply gates_emit end
      | gates_leaf ]).
  - (* PcOnPrepare *)
    eapply hoare_conseq with (P' := gates_inv) (Q' := gates_inv);
      [|by intros ? [? ?]|done].
    apply hoare_inv_bind; [gates_leaf|]. intros _.
    destruct r; apply gates_main_segment'; try done.
    + hinv ltac:(first
        [ lazymatch goal with
          | |- hoare _ (__change_state _ _) _ => by apply gates_change_state'
          | |- hoare _ (__check_start _) _ => apply gates_check_start
          end
        | gates_leaf ]).
    + apply hoare_raise_exn.
  - (* PcAwaitStarted *)
    apply hoare_modify_bind. intros s [HI HT] s1 ->.
    unfold main_await, await_gate.
    destruct (cancel_requested _).
    { apply gates_main_segment'; [done|apply hoare_raise_exn|].
      by eapply gates_inv_ext; [..|exact HI]. }
    destruct (g_state (get_gate Started T)) eqn:Hg; simpl.
    + by eapply gates_inv_ext; [..|exact HI].
    + eapply (gates_main_segment _ _ _
                (λ s, gates_inv s ∧ started_resolved self s)
                (λ s, gates_inv s ∧ started_resolved self s)).
      * apply hoare_conj; [by apply gates_change_state'|].
        apply started_resolved_stable. intros v. apply once_change_state.
      * by intros ? [? ?].
      * intros _ s' [_ H']. by apply started_resolved_done.
      * split; [by eapply gates_inv_ext; [..|exact HI]|].
        eapply (started_resolved_intro _ _ T); simpl; [|done|].
        -- apply HI.
        -- simpl in Hg. by rewrite Hg.
    + destruct (is_CancelledError e);
        (apply gates_main_segment'; [done|apply hoare_raise_exn|];
         by eapply gates_inv_ext; [..|exact HI]).
    + apply gates_main_segment'; [done|apply hoare_raise_exn|].
      by eapply gates_inv_ext; [..|exact HI].
  - (* PcOnRun *)
    apply hoare_modify_bind. intros s [HI HT] s1 ->.
    assert (gates_inv (set__current_task (Some self) s)) as HI'
      by (by eapply gates_inv_ext; [..|exact HI]).
    destruct r.
    + eapply (gates_main_segment _ _ _
                (λ s, gates_inv s ∧ started_resolved self s) gates_inv);
        [|done|done|].
      * eapply hoare_bind with (R := λ s, gates_inv s ∧ started_resolved self s).
        -- apply hoare_conj; [gates_leaf|].
           apply started_resolved_stable. intros v. gate_leaf.
        -- by intros ? [? ?].
        -- intros _. eapply hoare_bind with (R := gates_inv); [|done|].
           ++ eapply hoare_conseq; [apply (gates_change_state self waiting)| |done].
              intros s' [? ?]. split; [done|]. intros _.
              by apply started_resolved_done.
           ++ intros _. apply gates_check_finish.
      * split; [done|].
        eapply (started_resolved_intro _ _ T); simpl; [apply HI|done|].
        destruct HI as [_ HI]. apply (HI _ _ HT). auto.
    + by apply gates_main_segment'; [done|apply hoare_raise_exn|].
  - (* PcAwaitFinished *)
    apply hoare_modify_bind. intros s [HI HT] s1 ->.
    assert (gates_inv (set__current_task (Some self) s)) as HI'
      by (by eapply gates_inv_ext; [..|exact HI]).
    unfold main_await, await_gate.
    destruct (cancel_requested _).
    { by apply gates_main_segment'; [done|apply hoare_raise_exn|]. }
    destruct (g_state (get_gate Finished T)) eqn:Hg; simpl; [done|..].
    + apply gates_main_segment'; [done| |done]. by apply gates_change_state'.
    + destruct (is_CancelledError e);
        by (apply gates_main_segment'; [done|apply hoare_raise_exn|]).
    + by apply gates_main_segment'; [done|apply hoare_raise_exn|].
  - (* PcExited *)
    intros s [? ?]. done.
Qed.

(** Every action of the program keeps the order of the gates. *)
Lemma gates_exec a : hoare gates_inv (exec a) gates_inv.
Proof.
  apply I_exec;
    [ apply gates_fields | apply gates_minor | gates_leaf | intros; gates_leaf
    | apply gates_emit | apply gates_events | apply gates_cancel_rec
    | apply gates_failed | apply gates_check_finish | apply gates_Task_init
    | apply gates_task_main_step ].
Qed.

Lemma gates_initial s : initial s → gates_inv s.
Proof.
  intros (Ht & _). split; intros t T; rewrite Ht, lookup_empty; done.
Qed.

Lemma gates_reachable s : reachable s → gates_inv s.
Proof.
  induction 1 as [s Hs|s a Hs IH]; [by apply gates_initial|].
  by apply gates_exec.
Qed.

Lemma gates_inv_order s : gates_inv s → started_before_finished s.
Proof. intros [_ H] t T HT Hd. apply (H _ _ HT). auto. Qed.

Lemma finished_kept_intro {A} (m : M A) s :
  tasks_bound s →
  (∀ t v, hoare (gate_resolved t Finished v) m (gate_resolved t Finished v)) →
  finished_kept s (m s).2.
Proof.
  intros Hb Hm t T HT Hd.
  destruct (Hm t (g_state (finished T)) s) as (_ & (T' & ? & ?) & _); [|by eauto].
  split_and!; [done| |done]. by exists T.
Qed.

Lemma reachable_run_actions l s : reachable s → reachable (run_actions l s).
Proof.
  revert s. induction l as [|a l IH]; intros s Hs; simpl; [done|].
  apply IH. by apply reachable_step.
Qed.

Lemma sys0_reachable : reachable sys0.
Proof. apply reachable_initial. by repeat split. Qed.

Lemma sys_root_reachable : reachable sys_root.
Proof. apply reachable_run_actions, sys0_reachable. Qed.

(** * C8: context variables *)

Section context.
Context {V : Type}.
Implicit Types (d : TaskContextDescriptor.t V).

Lemma parents_older_lt s t T p :
  parents_older s → tasks s !! t = Some T → parent T = Some p → p < t.
Proof.
  intros H HT Hp. specialize (H t T HT). unfold older_parent in H.
  by rewrite Hp in H.
Qed.

Lemma get_walk_nearest s d t v :
  parents_older s → nearest_override s d t v →
  ∀ fuel, t < fuel →
  TaskContextDescriptor.get_walk fuel d (Some t) s = (Ok (Some v), s).
Proof.
  intros Hs. induction 1 as [t v Hv|t T p v Hd HT Hp _ IH];
    intros [|fuel] Hlt; try lia; simpl.
  - by rewrite Hv.
  - rewrite Hd. rewrite (bind_Ok _ _ _ _ _ (get_task_Some _ _ _ HT)), Hp.
    apply IH. pose proof (parents_older_lt _ _ _ _ Hs HT Hp). lia.
Qed.

Lemma get_walk_no_override s d t :
  parents_older s → no_override s d t →
  ∀ fuel, t < fuel →
  TaskContextDescriptor.get_walk fuel d (Some t) s = (Ok None, s).
Proof.
  intros Hs. induction 1 as [t T Hd HT Hp|t T p Hd HT Hp _ IH];
    intros [|fuel] Hlt; try lia; simpl.
  - rewrite Hd. rewrite (bind_Ok _ _ _ _ _ (get_task_Some _ _ _ HT)), Hp.
    by destruct fuel.
  - rewrite Hd. rewrite (bind_Ok _ _ _ _ _ (get_task_Some _ _ _ HT)), Hp.
    apply IH. pose proof (parents_older_lt _ _ _ _ Hs HT Hp). lia.
Qed.

(** C8.  Reading a context variable gives the override of the nearest
    ancestor of the current task, itself included, that has one; without
    such an override, and also without a current task, it gives the default,
    and fails with [AttributeError] ("not set") when there is none.  Writing
    sets the default when no task is current, and otherwise the override of
    the current task and nothing else. *)
Theorem context_variable_read_write (s : sys) d :
  parents_older s →
  (∀ t v, _current_task s = Some t → nearest_override s d t v →
     TaskContextDescriptor.__get__ d s = (Ok v, s)) ∧
  (∀ t, _current_task s = Some t → no_override s d t →
     TaskContextDescriptor.__get__ d s = (default_or_unset d, s)) ∧
  (_current_task s = None →
     TaskContextDescriptor.__get__ d s = (default_or_unset d, s)) ∧
  (∀ value, _current_task s = None →
     TaskContextDescriptor.__set__ d value s =
     (Ok (TaskContextDescriptor.mk (TaskContextDescriptor.data d) (Some value)), s)) ∧
  (∀ value t, _current_task s = Some t →
     TaskContextDescriptor.__set__ d value s =
     (Ok (TaskContextDescriptor.mk
            (<[t := value]> (TaskContextDescriptor.data d))
            (TaskContextDescriptor.default d)), s)).
Proof.
  intros Hs. unfold TaskContextDescriptor.__get__, TaskContextDescriptor.__set__,
    current_task_or_none, gets, default_or_unset.
  split_and!.
  - intros t v Hc Hn. unfold bind at 1. rewrite Hc.
    by rewrite (bind_Ok _ _ _ _ _ (get_walk_nearest s d t v Hs Hn (S t) (Nat.lt_succ_diag_r t))).
  - intros t Hc Hn. unfold bind at 1. rewrite Hc.
    rewrite (bind_Ok _ _ _ _ _ (get_walk_no_override s d t Hs Hn (S t) (Nat.lt_succ_diag_r t))).
    by destruct (TaskContextDescriptor.default d).
  - intros Hc. unfold bind. rewrite Hc. simpl.
    by destruct (TaskContextDescriptor.default d).
  - intros value Hc. unfold bind. by rewrite Hc.
  - intros value t Hc. unfold bind. by rewrite Hc.
Qed.
End context.

Lemma sys_in_child_parents_older : parents_older sys_in_child.
Proof. apply (bool_decide_unpack (parents_older sys_in_child)). by vm_compute. Qed.

Lemma context_variable_read_write_witness :
  parents_older sys_in_child ∧
  TaskContextDescriptor.__get__
    (TaskContextDescriptor.mk {[0 := 5]} (Some 7)) sys_in_child
  = (Ok 5, sys_in_child).
Proof.
  split; [exact sys_in_child_parents_older|].
  refine (proj1 (context_variable_read_write sys_in_child
                   (TaskContextDescriptor.mk {[0 := 5]} (Some 7))
                   sys_in_child_parents_older) 1 5 ltac:(by vm_compute) _).
  eapply nearest_up; [done|by vm_compute|reflexivity|]. by apply nearest_here.
Defined.
(** * Terminal states

    Outside of [__task_main], a task that has reached a terminal state
    keeps it: [__cancel] and [__failed] return at once on such a task. *)

Lemma is_finished_terminal T : is_finished T = terminal (state T).
Proof. done. Qed.

Lemma ended_ext t st s s' : tasks s' = tasks s → ended t st s → ended t st s'.
Proof. unfold ended, state_of. by intros ->. Qed.

Lemma ended_alter t st s t' (f : Task → Task) :
  (∀ T, tasks s !! t' = Some T → t' = t → state (f T) = state T) →
  ended t st s → ended t st (set_tasks (alter f t') s).
Proof.
  intros Hf [H Ht]. split; [|done]. unfold state_of in *. simpl.
  destruct (decide (t = t')) as [->|].
  - rewrite lookup_alter_eq. destruct (tasks s !! t') as [T|] eqn:E; [|done].
    simpl in *. by rewrite Hf.
  - by rewrite lookup_alter_ne.
Qed.

Lemma ended_modify_task t st t' (f : Task → Task) :
  (∀ T, state (f T) = state T) → hoare (ended t st) (modify_task t' f) (ended t st).
Proof. intros Hf s HI. apply ended_alter; auto. Qed.

Ltac ended_setter_solve :=
  let T := fresh "T" in
  intros T; destruct T; unfold set_gate in *;
  simpl in *; repeat case_match; simpl in *; done.

Lemma ended_tasks_only t st : tasks_only (ended t st).
Proof. intros s s' ? ?. by apply ended_ext. Qed.

Ltac ended_leaf :=
  first
    [ lazymatch goal with
      | |- hoare _ (modify_task _ _) _ =>
          apply ended_modify_task; ended_setter_solve
      end
    | to_leaf ltac:(apply ended_tasks_only) ].

Section ended.
Variables (t : tid) (st : TaskState).
#[local] Abbreviation I := (ended t st).

Lemma ended_fields s s' :
  tasks s' = tasks s → futures s' = futures s → next_id s' = next_id s →
  emitted s' = emitted s → I s → I s'.
Proof. apply to_fields, ended_tasks_only. Qed.

Lemma ended_minor t' f : minor f → hoare I (modify_task t' f) I.
Proof.
  intros Hf. apply ended_modify_task. intros T.
  specialize (Hf T). unfold core in Hf. congruence.
Qed.

Lemma ended_gate_resolve g t' v : hoare I (gate_resolve g t' v) I.
Proof. unfold gate_resolve. hinv ended_leaf. Qed.

Lemma ended_emit ev : hoare I (emit ev) I.
Proof. apply hoare_emit; [apply ended_tasks_only|]. intros. ended_leaf. Qed.

Lemma ended_events t' ty : hoare I (events t' ty) I.
Proof. apply hoare_events; [apply ended_tasks_only|]. intros. ended_leaf. Qed.

(** A state change of another task, or of a task that is not terminal. *)
Lemma ended_change_state t' v :
  hoare (λ s, I s ∧ ∃ T, tasks s !! t' = Some T ∧ is_finished T = false)
    (__change_state t' v) I.
Proof.
  unfold __change_state. apply hoare_get_task; [tauto|]. intros T.
  destruct (decide (state T = v)); [by intros s [[? ?] ?]|].
  eapply hoare_bind with (R := I); [|done|].
  - intros s [[HI (T' & HT' & Hlive)] HT]. simplify_eq.
    apply ended_alter; [|done]. intros T1 H1 ->.
    destruct HI as [HI Hst]. unfold state_of in HI. rewrite HT' in HI.
    simpl in HI. rewrite is_finished_terminal in Hlive. congruence.
  - intros _. unfold TaskEvent_init.
    hinv ltac:(first
      [ lazymatch goal with |- hoare _ (emit _) _ => apply ended_emit end
      | ended_leaf ]).
Qed.

Lemma ended_cancel_rec fuel t' d : hoare I (cancel_rec fuel t' d) I.
Proof.
  revert t'. induction fuel as [|fuel IH]; intros t'; simpl.
  - apply hoare_stuck.
  - apply hoare_get_task; [done|]. intros T.
    destruct (is_finished T) eqn:Hf; [by intros s [? ?]|].
    set (P := λ s, I s ∧ ∃ T, tasks s !! t' = Some T ∧ is_finished T = false).
    eapply hoare_conseq with (P' := P) (Q' := I); [| |done].
    2:{ intros s [? ?]. split; [done|]. eauto. }
    assert (∀ f, (∀ T, state (f T) = state T) → hoare P (modify_task t' f) P)
      as Hmod.
    { intros f Hst s [HI (T' & HT' & Hl)]. split; [by apply ended_alter; auto|].
      exists (f T'). simpl. rewrite lookup_alter_eq, HT'. split; [done|].
      unfold is_finished in *. by rewrite Hst. }
    assert (∀ g v, hoare P (gate_resolve g t' v) P) as Hres.
    { intros g v. unfold gate_resolve. apply hoare_inv_bind.
      { apply hoare_inv_get_task. }
      intros T0. destruct (fut_done _); [apply hoare_raise|].
      apply hoare_inv_bind; [apply Hmod; ended_setter_solve|].
      intros _. by apply hoare_modify. }
    assert (∀ g, hoare P (if_not_done g t' (gate_cancel g t';; ret tt)) P)
      as Hblk.
    { intros g. unfold if_not_done, gate_cancel, gate_done.
      hinv ltac:(idtac; lazymatch goal with
                 | |- hoare _ (gate_resolve _ _ _) _ => apply Hres
                 end). }
    eapply hoare_bind with (R := P); [apply Hmod; ended_setter_solve|by intros ? [? ?]|].
    intros _.
    eapply hoare_bind with (R := P); [apply Hmod; ended_setter_solve|by intros ? [? ?]|].
    intros _.
    eapply hoare_bind with (R := P); [apply Hblk|by intros ? [? ?]|]. intros _.
    eapply hoare_bind with (R := P); [apply Hblk|by intros ? [? ?]|]. intros _.
    eapply hoare_bind with (R := I); [apply ended_change_state|done|].
    intros _. unfold on_cancel.
    hinv ltac:(first
      [ lazymatch goal with |- hoare _ (cancel_rec _ _ _) _ => apply IH end
      | ended_leaf ]).
Qed.
End ended.

(** * Cleanup and the dependencies of a task *)

(** C7, on the code as it is.  When the task [5] is cleaned up with the
    pending dependencies [1] ([discard] set, [5] its only reverse
    dependency) and [3] ([discard] unset), the callback that [__cleanup]
    schedules for [1] reads the loop variable [task] when it runs, after the
    loop has ended: it cancels [3], the last dependency, and [1] keeps
    running. *)
Lemma cleanup_cancels_last_dependency :
  let s := sys_two_dependencies in
  let s1 := run_actions [AMain 5 Resume] s in
  let s' := run_actions [ACallback; ACallback; ACallback] s1 in
  (pending_dependencies <$> tasks s !! 5) =
    Some [(1, CbDependencyFinished 7 5 1); (3, CbDependencyFinished 8 5 3)] ∧
  (reverse_dependencies <$> tasks s !! 1) = Some [5] ∧
  (discard <$> tasks s !! 1) = Some true ∧
  (discard <$> tasks s !! 3) = Some false ∧
  (reverse_dependencies <$> tasks s1 !! 1) = Some [] ∧
  ready s1 = [CbChildFinished 6 0 5; CbDiscardVia 5 5; CbCancelDiscard 9] ∧
  cells s1 !! 9 = Some 3 ∧
  state_of s' 1 = Some running ∧ state_of s' 3 = Some discarded.
Proof. by vm_compute. Qed.

(** * The deferred discard *)

(** ** A live task that is cancelled *)

Lemma live_alter t s t' (f : Task → Task) :
  (∀ T, state (f T) = state T) → live t s → live t (set_tasks (alter f t') s).
Proof.
  intros Hf (T & HT & Hl). destruct (decide (t = t')) as [->|].
  - exists (f T). simpl. rewrite lookup_alter_eq, HT. split; [done|].
    unfold is_finished in *. by rewrite Hf.
  - exists T. simpl. by rewrite lookup_alter_ne.
Qed.

Lemma live_modify_task t t' (f : Task → Task) :
  (∀ T, state (f T) = state T) → hoare (live t) (modify_task t' f) (live t).
Proof. intros Hf s H. by apply live_alter. Qed.

Lemma live_tasks_only t : tasks_only (live t).
Proof. intros s s' Ht _ (T & HT & Hl). exists T. by rewrite Ht. Qed.

Ltac live_leaf :=
  first
    [ lazymatch goal with
      | |- hoare _ (modify_task _ _) _ =>
          apply live_modify_task; ended_setter_solve
      end
    | to_leaf ltac:(apply live_tasks_only) ].

Lemma live_gate_resolve t g t' v : hoare (live t) (gate_resolve g t' v) (live t).
Proof. unfold gate_resolve. hinv live_leaf. Qed.

Lemma live_if_not_done t g t' (m : M unit) :
  hoare (live t) m (live t) → hoare (live t) (if_not_done g t' m) (live t).
Proof.
  intros Hm. unfold if_not_done, gate_done.
  hinv ltac:(first [exact Hm | live_leaf]).
Qed.

(** A step that returns: what follows it starts from the state it made. *)
Lemma hoare_bind_ok {A B} (P R Q : sys → Prop) (m : M A) (f : A → M B) :
  (∀ s, P s → ∃ a, (m s).1 = Ok a ∧ R (m s).2) →
  (∀ a, hoare R (f a) Q) → hoare P (bind m f) Q.
Proof.
  intros Hm Hf s HP. destruct (Hm s HP) as (a & Ha & HR).
  unfold bind. destruct (m s) as [r s1]. simpl in *. subst r. by apply Hf.
Qed.

Lemma cancel_gate_block_ok g t T s :
  tasks s !! t = Some T →
  (if_not_done g t (gate_cancel g t;; ret tt) s).1 = Ok tt.
Proof.
  intros HT.
  unfold if_not_done, gate_cancel, gate_done, gate_resolve, bind, get_task,
    ret, modify_task, modify, raise.
  rewrite HT. simpl. destruct (fut_done _) eqn:E; simpl; [done|].
  rewrite HT. simpl. rewrite E. simpl. rewrite HT. simpl. by rewrite E.
Qed.


Lemma live_gate_cancel t g t' : hoare (live t) (gate_cancel g t';; ret tt) (live t).
Proof.
  unfold gate_cancel, gate_done.
  hinv ltac:(first
    [ lazymatch goal with
      | |- hoare _ (gate_resolve _ _ _) _ => apply live_gate_resolve
      end
    | live_leaf ]).
Qed.

Lemma hoare_get_task_ex (P Q : sys → Prop) {B} (t : tid) (f : Task → M B) :
  (∀ s, P s → is_Some (tasks s !! t)) →
  (∀ T, hoare (λ s, P s ∧ tasks s !! t = Some T) (f T) Q) →
  hoare P (bind (get_task t) f) Q.
Proof.
  intros Hex Hf s HP. destruct (Hex s HP) as [T HT].
  rewrite (bind_Ok _ _ _ _ _ (get_task_Some _ _ _ HT)). by apply Hf.
Qed.

Lemma live_is_Some t s : live t s → is_Some (tasks s !! t).
Proof. intros (T & HT & _). by exists T. Qed.

(** A live task that changes to a terminal state is in it afterwards,
    whether or not the event of the change could be delivered. *)
Lemma change_state_ended t v :
  terminal v = true → hoare (live t) (__change_state t v) (ended t v).
Proof.
  intros Hv. unfold __change_state.
  apply hoare_get_task_ex; [apply live_is_Some|].
  intros T. destruct (decide (state T = v)) as [<-|Hne].
  { intros s [(T' & HT' & Hl) HT]. simplify_eq.
    rewrite is_finished_terminal in Hl. congruence. }
  eapply hoare_bind with (R := ended t v).
  - intros s [_ HT]. split; [|done]. by eapply state_of_alter_set_state.
  - done.
  - intros _. destruct (parent T); [|apply hoare_ret].
    unfold TaskEvent_init.
    hinv ltac:(first
      [ lazymatch goal with |- hoare _ (emit _) _ => apply ended_emit end
      | ended_leaf ]).
Qed.

Lemma cancel_rec_live fuel t d :
  hoare (live t) (cancel_rec (S fuel) t d)
    (ended t (if d then discarded else cancelled)).
Proof.
  simpl. apply hoare_get_task_ex; [apply live_is_Some|].
  intros T. destruct (is_finished T) eqn:Hf.
  { intros s [(T' & HT' & Hl) HT]. simplify_eq. congruence. }
  eapply hoare_conseq with (P' := live t); [|by intros ? [? ?]|done].
  apply hoare_bind_ok with (R := live t).
  { intros s H. exists tt. split; [done|].
    revert s H. apply live_modify_task. ended_setter_solve. }
  intros _. apply hoare_bind_ok with (R := live t).
  { intros s H. exists tt. split; [done|].
    revert s H. apply live_modify_task. ended_setter_solve. }
  intros _. apply hoare_bind_ok with (R := live t).
  { intros s H. exists tt. split.
    - destruct H as (T' & HT' & _). by eapply cancel_gate_block_ok.
    - revert s H. apply live_if_not_done, live_gate_cancel. }
  intros _. apply hoare_bind_ok with (R := live t).
  { intros s H. exists tt. split.
    - destruct H as (T' & HT' & _). by eapply cancel_gate_block_ok.
    - revert s H. apply live_if_not_done, live_gate_cancel. }
  intros _. eapply hoare_bind;
    [apply change_state_ended; by destruct d|done|]. intros _.
  unfold on_cancel.
  hinv ltac:(first
    [ lazymatch goal with
      | |- hoare _ (cancel_rec _ _ _) _ => apply ended_cancel_rec
      end
    | ended_leaf ]).
Qed.


(** * The propagator and error handlers *)

(** C3, counterexample.  The task [1] is cancelled and has handlers: one
    for its child [3], and a fallback.  When it is told that [3] was
    cancelled, the handler for [3] becomes a coroutine ([6]) that receives
    [ChildCancelled(3)], but not one the task waits for: [wait] is unset
    and no set of [1] holds the coroutine. *)
Lemma handler_of_finished_task_not_awaited :
  let s := sys_cancelled_observer in
  let s' := run (__child_finished 1 3) s in
  ready s = [CbChildFinished 4 1 3; CbDiscardVia 0 1] ∧
  state_of s 1 = Some cancelled ∧
  (error_handlers <$> tasks s !! 1) = Some {[ Some 3 := 7; None := 8 ]} ∧
  __child_finished 1 3 s = (Ok tt, s') ∧
  aio_tasks s' =
    {[ 6 := BgTask 1 (BgHandler 7 (Exn ChildCancelled (Some 3) None))
              false false false ]} ∧
  (aio_wait_background_tasks <$> tasks s' !! 1) = Some [] ∧
  (aio_background_tasks <$> tasks s' !! 1) = Some [].
Proof. by vm_compute. Qed.

Lemma background_handler_run self T target s :
  tasks s !! self = Some T →
  background self target true true s =
  (Ok (next_id s),
   let aio_task := next_id s in
   let s1 :=
     set_aio_tasks
       (<[aio_task := BgTask self target (negb (is_finished T)) false false]>)
       (set_next_id (S aio_task) s) in
   if is_finished T then s1
   else set_tasks
          (alter (set_aio_wait_background_tasks (StableSet_add aio_task)) self) s1).
Proof.
  intros HT. unfold background.
  rewrite (bind_Ok _ _ _ _ _ (get_task_Some _ _ _ HT)). simpl.
  unfold bind, assert, ret, create_task, fresh, modify_task, modify. simpl.
  by destruct (is_finished T).
Qed.

(** * Failure of a dependency *)


(** ** The steps of [__failed] *)

Lemma failed_gate_block_run g t T e s :
  tasks s !! t = Some T →
  if_not_done g t (gate_set_exception g t e;; gate_exception g t;; ret tt) s =
  (Ok tt,
   if fut_done (g_state (get_gate g T)) then s
   else set_ready (λ q, q ++ g_callbacks (get_gate g T))
          (set_tasks (alter (set_gate g (λ _, Gate (FException e) [])) t) s)).
Proof.
  intros HT.
  unfold if_not_done, gate_set_exception, gate_exception, gate_done,
    gate_resolve, bind, get_task, ret, modify_task, modify, raise.
  rewrite HT. simpl. destruct (fut_done _) eqn:E; simpl; [done|].
  rewrite HT. simpl. rewrite E. simpl. rewrite lookup_alter_eq, HT. simpl.
  by destruct g.
Qed.

Lemma tasks_bound_alter s t (f : Task → Task) :
  tasks_bound s → tasks_bound (set_tasks (alter f t) s).
Proof.
  intros Hb x Tx. simpl. destruct (decide (x = t)) as [->|].
  - rewrite lookup_alter_eq. destruct (tasks s !! t) eqn:E; [|done].
    intros _. by eapply Hb.
  - rewrite lookup_alter_ne by done. apply Hb.
Qed.

Lemma unfinished_alter t s t' (f : Task → Task) :
  (∀ T, state (f T) = state T) →
  (∀ T, g_state (finished (f T)) = g_state (finished T)) →
  unfinished t s → unfinished t (set_tasks (alter f t') s).
Proof.
  intros Hst Hfin (Hb & T & HT & Hl & Hp). split; [by apply tasks_bound_alter|].
  destruct (decide (t = t')) as [->|].
  - exists (f T). simpl. rewrite lookup_alter_eq, HT. split_and!; [done| |].
    + unfold is_finished in *. by rewrite Hst.
    + by rewrite Hfin.
  - exists T. simpl. by rewrite lookup_alter_ne.
Qed.

Lemma hoare___cancel (I : sys → Prop) t d :
  (∀ fuel, hoare I (cancel_rec fuel t d) I) → hoare I (__cancel t d) I.
Proof. intros H s. apply H. Qed.

Lemma failed_unfinished t e :
  hoare (unfinished t) (__failed t (Some e))
    (λ s, ended t failed s ∧ gate_resolved t Finished (FException e) s).
Proof.
  unfold __failed. apply hoare_get_task_ex.
  { intros s (_ & T & HT & _). by exists T. }
  intros T. destruct (is_finished T) eqn:Hf.
  { intros s [(_ & T' & HT' & Hl & _) HT]. simplify_eq. congruence. }
  eapply hoare_conseq with (P' := unfinished t)
    (Q' := λ s, ended t failed s ∧ gate_resolved t Finished (FException e) s);
    [|by intros ? [? ?]|done].
  apply hoare_bind_ok with (R := unfinished t).
  { intros s H. exists tt. split; [done|]. by apply unfinished_alter. }
  intros _. apply hoare_bind_ok with (R := unfinished t).
  { intros s H. pose proof H as (Hb & T' & HT' & Hl & Hp).
    rewrite (failed_gate_block_run _ _ T') by done. exists tt.
    split; [done|]. simpl. destruct (fut_done _); [done|].
    destruct H as (Hb' & H). split; [by apply tasks_bound_alter|].
    simpl. rewrite lookup_alter_eq, HT'. simpl. eauto. }
  intros _.
  apply hoare_bind_ok
    with (R := λ s, live t s ∧ gate_resolved t Finished (FException e) s).
  { intros s (Hb & T' & HT' & Hl & Hp).
    rewrite (failed_gate_block_run _ _ T') by done. exists tt.
    split; [done|]. simpl. rewrite Hp. simpl. split.
    - eexists. simpl. rewrite lookup_alter_eq, HT'. simpl. split; [done|].
      done.
    - split_and!; [by apply tasks_bound_alter| |done].
      eexists. simpl. rewrite lookup_alter_eq, HT'. simpl. split; done. }
  intros _. eapply hoare_bind;
    [apply hoare_conj; [by apply change_state_ended|apply once_change_state]
    |done|].
  intros _. apply hoare_inv_bind; [apply hoare_inv_get_task|].
  intros T1. apply hoare_for_each. intros c _.
  apply hoare___cancel. intros fuel.
  apply hoare_conj; [apply ended_cancel_rec|apply once_cancel_rec].
Qed.
Lemma check_start_ended t st s : ended t st s → __check_start t s = (Ok tt, s).
Proof.
  intros [H Ht]. unfold state_of in H.
  destruct (tasks s !! t) as [T|] eqn:E; [|done]. simpl in H. simplify_eq.
  unfold __check_start. rewrite (bind_Ok _ _ _ _ _ (get_task_Some _ _ _ E)).
  by destruct (state T).
Qed.

(** What [__propagate_failure] does with the failure of [task] when [self]
    has no handler for it: [self] fails with the wrapped exception. *)
Lemma propagate_failure_unhandled_run s self task T S e cf cc :
  tasks s !! task = Some S → g_state (finished S) = FException e →
  is_CancelledError e = false →
  tasks s !! self = Some T →
  error_handlers T !! Some task = None → error_handlers T !! None = None →
  is_CancelledError (Exn cf (Some task) (Some e)) = false →
  __propagate_failure self task None (Some (cf, cc)) s =
  __failed self (Some (Exn cf (Some task) (Some e))) s.
Proof.
  intros HS He Hc HT Hh1 Hh2 Hcf. unfold __propagate_failure.
  assert (try_except (gate_exception Finished task)
            (λ exc, if is_CancelledError exc then Some (ret (Some exc)) else None) s =
          (Ok (Some e), s)) as Hx.
  { unfold try_except, gate_exception.
    rewrite (bind_Ok _ _ _ _ _ (get_task_Some _ _ _ HS)). simpl.
    by rewrite He. }
  rewrite (bind_Ok _ _ _ _ _ Hx). rewrite Hc.
  rewrite (bind_Ok _ _ _ _ _ (get_task_Some _ _ _ HT)).
  by rewrite Hh1, Hh2, Hcf.
Qed.

Lemma dependency_finished_fails (s : sys) (a b : tid) (Ta Tb : Task) (e : exn)
    (cb : callback) :
  tasks_bound s →
  tasks s !! a = Some Ta → g_state (finished Ta) = FException e →
  is_CancelledError e = false →
  tasks s !! b = Some Tb → is_finished Tb = false →
  g_state (finished Tb) = FPending →
  dict_get a (pending_dependencies Tb) = Some cb →
  error_handlers Tb !! Some a = None → error_handlers Tb !! None = None →
  let s' := run (__dependency_finished b a) s in
  ended b failed s' ∧
  gate_resolved b Finished (FException (Exn DependencyFailed (Some a) (Some e))) s'.
Proof.
  intros Hb Ha He Hc HTb Hl Hp Hcb Hh1 Hh2 s'.
  assert (a ≠ b) as Hab by (intros ->; simplify_eq; congruence).
  set (s1 := set_tasks (alter (set_pending_dependencies (dict_del a)) b) s).
  assert (pop_pending_dependencies b a s = (Ok tt, s1)) as Hpop.
  { unfold pop_pending_dependencies.
    rewrite (bind_Ok _ _ _ _ _ (get_task_Some _ _ _ HTb)). by rewrite Hcb. }
  assert (tasks s1 !! a = Some Ta) as Ha1.
  { unfold s1. simpl. by rewrite lookup_alter_ne. }
  assert (tasks s1 !! b = Some (set_pending_dependencies (dict_del a) Tb)) as Hb1.
  { unfold s1. simpl. by rewrite lookup_alter_eq, HTb. }
  assert (unfinished b s1) as Hu.
  { apply unfinished_alter; [done|done|]. split; [done|]. eauto. }
  unfold s', run, __dependency_finished.
  rewrite (bind_Ok _ _ _ _ _ Hpop).
  pose proof (propagate_failure_unhandled_run s1 b a _ Ta e
    DependencyFailed DependencyCancelled Ha1 He Hc Hb1 Hh1 Hh2 eq_refl) as Hrun.
  unfold bind. rewrite Hrun.
  pose proof (failed_unfinished b (Exn DependencyFailed (Some a) (Some e)) s1 Hu)
    as HQ.
  destruct (__failed b _ s1) as [[[]|?|] s2]; simpl in *; [|exact HQ..].
  rewrite (check_start_ended b failed) by apply HQ. exact HQ.
Qed.

Lemma sys_dependent_told_bound : tasks_bound sys_dependent_told.
Proof.
  apply gates_reachable. unfold sys_dependent_told, sys_dependency_chain.
  apply reachable_run_actions, reachable_run_actions, sys_root_reachable.
Qed.


(** * Well-formed stores *)

Lemma pending_future_eq s f : pending_future s f ↔ futures s !! f = Some FPending.
Proof. unfold pending_future. destruct (futures s !! f) as [[]|]; naive_solver. Qed.

Lemma wf_parent s :
  wf s → ∀ t T p, tasks s !! t = Some T → parent T = Some p →
  p < t ∧ is_Some (tasks s !! p).
Proof.
  intros (H & _ & _) t T p HT Hp. apply (map_Forall_lookup_1 _ _ _ _ H) in HT as (H1 & _).
  unfold parent_ok in H1. by rewrite Hp in H1.
Qed.

Lemma wf_children s :
  wf s → ∀ t T c, tasks s !! t = Some T → c ∈ children T →
  is_Some (tasks s !! c).
Proof.
  intros (H & _ & _) t T c HT Hc.
  apply (map_Forall_lookup_1 _ _ _ _ H) in HT as (_ & H1 & _).
  unfold children_ok in H1. rewrite Forall_forall in H1. by apply H1.
Qed.

Lemma wf_cursor s :
  wf s → ∀ t T ty f, tasks s !! t = Some T → event_cursors T !! ty = Some f →
  futures s !! f = Some FPending.
Proof.
  intros (H & _ & _) t T ty f HT Hc.
  apply (map_Forall_lookup_1 _ _ _ _ H) in HT as (_ & _ & H1).
  apply pending_future_eq. exact (map_Forall_lookup_1 _ _ ty f H1 Hc).
Qed.

Lemma wf_cursor_inj s :
  wf s → ∀ t1 T1 ty1 t2 T2 ty2 f,
  tasks s !! t1 = Some T1 → event_cursors T1 !! ty1 = Some f →
  tasks s !! t2 = Some T2 → event_cursors T2 !! ty2 = Some f →
  t1 = t2 ∧ ty1 = ty2.
Proof.
  intros (_ & H & _) t1 T1 ty1 t2 T2 ty2 f HT1 Hc1 HT2 Hc2.
  apply (map_Forall_lookup_1 _ _ _ _ H) in HT1.
  apply (map_Forall_lookup_1 _ _ _ _ HT1) in Hc1.
  apply (map_Forall_lookup_1 _ _ _ _ Hc1) in HT2.
  by apply (map_Forall_lookup_1 _ _ _ _ HT2) in Hc2.
Qed.

Lemma wf_future_bound s :
  wf s → ∀ f v, futures s !! f = Some v → f < next_id s.
Proof. intros (_ & _ & H) f v Hf. by apply (map_Forall_lookup_1 _ _ _ _ H) in Hf. Qed.

Lemma wf_fresh_future s : wf s → futures s !! next_id s = None.
Proof.
  intros H. destruct (futures s !! next_id s) eqn:E; [|done].
  apply (wf_future_bound _ H) in E. lia.
Qed.

Lemma wf_intro s :
  (∀ t T p, tasks s !! t = Some T → parent T = Some p →
     p < t ∧ is_Some (tasks s !! p)) →
  (∀ t T c, tasks s !! t = Some T → c ∈ children T → is_Some (tasks s !! c)) →
  (∀ t T ty f, tasks s !! t = Some T → event_cursors T !! ty = Some f →
     futures s !! f = Some FPending) →
  (∀ t1 T1 ty1 t2 T2 ty2 f,
     tasks s !! t1 = Some T1 → event_cursors T1 !! ty1 = Some f →
     tasks s !! t2 = Some T2 → event_cursors T2 !! ty2 = Some f →
     t1 = t2 ∧ ty1 = ty2) →
  (∀ f v, futures s !! f = Some v → f < next_id s) →
  wf s.
Proof.
  intros H1 H2 H3 H4 H5. split_and!.
  - intros t T HT. split_and!.
    + unfold parent_ok. destruct (parent T) eqn:E; [|done]. by eapply H1.
    + apply Forall_forall. intros c Hc. by eapply H2.
    + intros ty f Hf. apply pending_future_eq. by eapply H3.
  - intros t1 T1 HT1 ty1 f1 Hf1 t2 T2 HT2 ty2 f2 Hf2 <-. by eapply H4.
  - intros f v Hf. by eapply H5.
Qed.

Lemma wf_fields s s' :
  tasks s' = tasks s → futures s' = futures s → next_id s ≤ next_id s' →
  wf s → wf s'.
Proof.
  intros Ht Hf Hn H. apply wf_intro; rewrite ?Ht, ?Hf.
  - apply (wf_parent s H).
  - apply (wf_children s H).
  - apply (wf_cursor s H).
  - apply (wf_cursor_inj s H).
  - intros f v Hv. apply (wf_future_bound _ H) in Hv. lia.
Qed.

Lemma lookup_alter_shape (m : gmap tid Task) (f : Task → Task) t x T' :
  (∀ T, shape (f T) = shape T) →
  alter f t m !! x = Some T' →
  ∃ T, m !! x = Some T ∧ shape T' = shape T.
Proof.
  intros Hf. destruct (decide (x = t)) as [->|].
  - rewrite lookup_alter_eq. destruct (m !! t) as [T|]; [|done].
    intros [= <-]. eauto.
  - rewrite lookup_alter_ne by done. eauto.
Qed.

Lemma is_Some_alter (m : gmap tid Task) (f : Task → Task) t x :
  is_Some (alter f t m !! x) ↔ is_Some (m !! x).
Proof.
  destruct (decide (x = t)) as [->|].
  - rewrite lookup_alter_eq. destruct (m !! t); simpl; split; intros [? ?]; eauto; done.
  - by rewrite lookup_alter_ne.
Qed.

Lemma wf_alter s t (f : Task → Task) :
  (∀ T, shape (f T) = shape T) → wf s → wf (set_tasks (alter f t) s).
Proof.
  intros Hf H. apply wf_intro; simpl.
  - intros x Tx p Hx Hp.
    apply (lookup_alter_shape _ _ _ _ _ Hf) in Hx as (T & Hx & Hs).
    unfold shape in Hs. rewrite is_Some_alter. apply (wf_parent s H x T); congruence.
  - intros x Tx c Hx Hc.
    apply (lookup_alter_shape _ _ _ _ _ Hf) in Hx as (T & Hx & Hs).
    unfold shape in Hs. rewrite is_Some_alter. apply (wf_children s H x T); congruence.
  - intros x Tx ty fu Hx Hc.
    apply (lookup_alter_shape _ _ _ _ _ Hf) in Hx as (T & Hx & Hs).
    unfold shape in Hs. apply (wf_cursor s H x T ty); congruence.
  - intros x1 T1 ty1 x2 T2 ty2 fu Hx1 Hc1 Hx2 Hc2.
    apply (lookup_alter_shape _ _ _ _ _ Hf) in Hx1 as (T1' & Hx1 & Hs1).
    apply (lookup_alter_shape _ _ _ _ _ Hf) in Hx2 as (T2' & Hx2 & Hs2).
    unfold shape in *. apply (wf_cursor_inj s H x1 T1' ty1 x2 T2' ty2 fu); congruence.
  - apply (wf_future_bound s H).
Qed.
Lemma emit_to_cursor_run ev c item s T :
  wf s → tasks s !! c = Some T →
  emit_to_cursor ev c item s =
  (Ok tt, match event_cursors T !! item with
          | Some f => cursor_advanced ev c item f s
          | None => s
          end).
Proof.
  intros H HT. unfold emit_to_cursor.
  rewrite (bind_Ok _ _ _ _ _ (get_task_Some _ _ _ HT)).
  destruct (event_cursors T !! item) as [f|] eqn:Ef; [|done].
  pose proof (wf_cursor s H c T item f HT Ef) as Hp.
  pose proof (wf_fresh_future s H) as Hn.
  assert (f ≠ next_id s) as Hne by congruence.
  unfold new_future, fresh, future_set_result, bind, modify, ret, modify_task.
  simpl. rewrite lookup_insert_ne by done. by rewrite Hp.
Qed.
Lemma lookup_alter_Some_inv (m : gmap tid Task) (f : Task → Task) t x T' :
  alter f t m !! x = Some T' →
  ∃ T, m !! x = Some T ∧ T' = if decide (x = t) then f T else T.
Proof.
  destruct (decide (x = t)) as [->|].
  - rewrite lookup_alter_eq. destruct (m !! t) as [T|]; [|done].
    intros [= <-]. eauto.
  - rewrite lookup_alter_ne by done. eauto.
Qed.

(** The cursors registered after one has advanced. *)
Lemma registered_advanced ev c item f s x T' ty g :
  tasks (cursor_advanced ev c item f s) !! x = Some T' →
  event_cursors T' !! ty = Some g →
  ∃ T, tasks s !! x = Some T ∧ parent T' = parent T ∧ children T' = children T ∧
    ((x = c ∧ ty = item ∧ g = next_id s) ∨
     (event_cursors T !! ty = Some g ∧ ¬ (x = c ∧ ty = item))).
Proof.
  unfold cursor_advanced. simpl. intros Hx Hg.
  apply lookup_alter_Some_inv in Hx as (T & Hx & ->). exists T.
  destruct (decide (x = c)) as [->|].
  2:{ split_and!; [done..|]. right. split; [done|]. by intros [? _]. }
  destruct T. simpl in *. split_and!; [done..|].
  destruct (decide (ty = item)) as [->|].
  - rewrite lookup_insert_eq in Hg. left. split_and!; congruence.
  - rewrite lookup_insert_ne in Hg by done. right. split; [done|]. by intros [_ ?].
Qed.

Lemma wf_cursor_advanced ev c item f s T :
  wf s → tasks s !! c = Some T → event_cursors T !! item = Some f →
  wf (cursor_advanced ev c item f s).
Proof.
  intros H HT Hf.
  pose proof (wf_cursor s H c T item f HT Hf) as Hp.
  pose proof (wf_fresh_future s H) as Hn.
  assert (∀ x Tx ty g, tasks s !! x = Some Tx → event_cursors Tx !! ty = Some g →
            g ≠ next_id s) as Hold.
  { intros x Tx ty g Hx Hg. pose proof (wf_cursor s H x Tx ty g Hx Hg). congruence. }
  assert (∀ x, is_Some (tasks (cursor_advanced ev c item f s) !! x) ↔
               is_Some (tasks s !! x)) as Hdom.
  { intros x. unfold cursor_advanced. simpl. apply is_Some_alter. }
  apply wf_intro.
  - intros x T' p Hx Hp'. unfold cursor_advanced in Hx. simpl in Hx.
    apply lookup_alter_Some_inv in Hx as (Tx & Hx & ->). rewrite Hdom.
    apply (wf_parent s H x Tx); [done|]. rewrite <- Hp'.
    destruct (decide _); [|done]. by destruct Tx.
  - intros x T' ch Hx Hc. unfold cursor_advanced in Hx. simpl in Hx.
    apply lookup_alter_Some_inv in Hx as (Tx & Hx & ->). rewrite Hdom.
    apply (wf_children s H x Tx); [done|].
    destruct (decide _); [|done]. by destruct Tx.
  - intros x T' ty g Hx Hg.
    destruct (registered_advanced _ _ _ _ _ _ _ _ _ Hx Hg)
      as (Tx & HTx & _ & _ & [(-> & -> & ->)|[Hg' Hne]]).
    + unfold cursor_advanced. simpl.
      rewrite lookup_insert_ne by congruence. by rewrite lookup_insert_eq.
    + unfold cursor_advanced. simpl.
      assert (g ≠ f).
      { intros ->. apply Hne.
        apply (wf_cursor_inj s H x Tx ty c T item f); done. }
      rewrite lookup_insert_ne by done.
      rewrite lookup_insert_ne by (symmetry; by eapply Hold).
      by eapply (wf_cursor s H).
  - intros x1 T1 ty1 x2 T2 ty2 g Hx1 Hg1 Hx2 Hg2.
    destruct (registered_advanced _ _ _ _ _ _ _ _ _ Hx1 Hg1)
      as (T1' & HT1 & _ & _ & [(-> & -> & ->)|[Hg1' Hne1]]);
    destruct (registered_advanced _ _ _ _ _ _ _ _ _ Hx2 Hg2)
      as (T2' & HT2 & _ & _ & [(-> & -> & Hg)|[Hg2' Hne2]]).
    + done.
    + exfalso. by eapply (Hold x2 T2' ty2 (next_id s)).
    + subst g. exfalso. by eapply (Hold x1 T1' ty1 (next_id s)).
    + by eapply (wf_cursor_inj s H).
  - intros g v. unfold cursor_advanced. simpl.
    destruct (decide (g = f)) as [->|].
    + intros _. apply (wf_future_bound s H) in Hp. lia.
    + rewrite lookup_insert_ne by done.
      destruct (decide (g = next_id s)) as [->|]; [lia|].
      rewrite lookup_insert_ne by done. intros Hg.
      apply (wf_future_bound s H) in Hg. lia.
Qed.
(** ** Emission returns *)

Lemma emit_frame_trans s0 s1 s2 : emit_frame s0 s1 → emit_frame s1 s2 → emit_frame s0 s2.
Proof.
  intros (?&?&?&?&?&?&?&?) (?&?&?&?&?&?&?&?). repeat split; congruence.
Qed.

Lemma emit_frame_is_Some s0 s x :
  emit_frame s0 s → is_Some (tasks s0 !! x) → is_Some (tasks s !! x).
Proof.
  intros H [T0 H0]. destruct (emit_frame_task _ _ _ _ H H0) as (T & HT & _).
  by exists T.
Qed.

Lemma emit_frame_fields s0 s s' :
  tasks s' = tasks s → aio_tasks s' = aio_tasks s → cells s' = cells s →
  ready s' = ready s → _current_task s' = _current_task s →
  root_task s' = root_task s → job_ready s' = job_ready s →
  emitted s' = emitted s → emit_frame s0 s → emit_frame s0 s'.
Proof.
  intros ???????? (?&?&?&?&?&?&?&?). repeat split; congruence.
Qed.

Lemma view_erase s : view s = (λ T, (parent T, children T, state T)) <$> (erase_cursors <$> tasks s).
Proof.
  unfold view. rewrite <- map_fmap_compose. apply map_fmap_ext.
  by intros ? [] _.
Qed.

Lemma view_emit_frame s0 s : emit_frame s0 s → view s = view s0.
Proof. intros [H _]. by rewrite !view_erase, H. Qed.

Lemma view_fields s s' : tasks s' = tasks s → view s' = view s.
Proof. unfold view. by intros ->. Qed.

Lemma view_alter_same s t (f : Task → Task) :
  (∀ T, (parent (f T), children (f T), state (f T)) =
        (parent T, children T, state T)) →
  view (set_tasks (alter f t) s) = view s.
Proof.
  intros Hf. unfold view. simpl. apply map_eq. intros x. rewrite !lookup_fmap.
  destruct (decide (x = t)) as [->|].
  - rewrite lookup_alter_eq. destruct (tasks s !! t); simpl; [|done].
    by rewrite Hf.
  - by rewrite lookup_alter_ne.
Qed.

Lemma view_set_state s t T v :
  tasks s !! t = Some T →
  view (set_tasks (alter (set_state v) t) s) =
  <[t := (parent T, children T, v)]> (view s).
Proof.
  intros HT. unfold view. simpl. apply map_eq. intros x. rewrite lookup_fmap.
  destruct (decide (x = t)) as [->|].
  - rewrite lookup_alter_eq, lookup_insert_eq, HT. by destruct T.
  - by rewrite lookup_alter_ne, lookup_insert_ne, lookup_fmap.
Qed.

Lemma mro_loop_returns ev c (l : list etype) s :
  wf s → is_Some (tasks s !! c) →
  ∃ s', for_each l (emit_to_cursor ev c) s = (Ok tt, s') ∧ wf s' ∧ emit_frame s s'.
Proof.
  revert s. induction l as [|item l IH]; intros s H [T HT]; simpl.
  { exists s. split_and!; [done..|apply emit_frame_refl]. }
  pose proof (emit_to_cursor_run ev c item s T H HT) as Hrun.
  pose proof (emit_to_cursor_frame s ev c item s (emit_frame_refl s)) as Hfr.
  rewrite Hrun in Hfr. simpl in Hfr.
  rewrite (bind_Ok _ _ _ _ _ Hrun).
  set (s1 := match event_cursors T !! item with
             | Some f => cursor_advanced ev c item f s
             | None => s
             end) in *.
  assert (wf s1) as H1.
  { unfold s1. destruct (event_cursors T !! item) eqn:E; [|done].
    by eapply wf_cursor_advanced. }
  destruct (IH s1 H1) as (s' & Hs' & H' & Hfr').
  { eapply emit_frame_is_Some; [done|]. by exists T. }
  exists s'. split_and!; [done..|]. by eapply emit_frame_trans.
Qed.

Lemma emit_walk_returns ev fuel c s :
  wf s → is_Some (tasks s !! c) → c < fuel →
  ∃ s', emit_walk fuel ev (Some c) s = (Ok tt, s') ∧ wf s' ∧ emit_frame s s'.
Proof.
  revert c s. induction fuel as [|fuel IH]; intros c s H Hc Hlt; [lia|]. simpl.
  destruct (mro_loop_returns ev c (mro (ev_class ev)) s H Hc)
    as (s1 & Hs1 & H1 & Hfr1).
  rewrite (bind_Ok _ _ _ _ _ Hs1).
  destruct (emit_frame_is_Some _ _ _ Hfr1 Hc) as [T1 HT1].
  rewrite (bind_Ok _ _ _ _ _ (get_task_Some _ _ _ HT1)).
  destruct (parent T1) as [p|] eqn:Ep.
  - destruct (wf_parent s1 H1 c T1 p HT1 Ep) as [Hp Hex].
    destruct (IH p s1 H1 Hex) as (s' & Hs' & H' & Hfr'); [lia|].
    exists s'. split_and!; [done..|]. by eapply emit_frame_trans.
  - exists s1. destruct fuel; by split_and!.
Qed.

Lemma emit_returns ev s :
  wf s → is_Some (tasks s !! ev_source ev) →
  ∃ s', emit ev s = (Ok tt, s') ∧ wf s' ∧
        emit_frame (set_emitted (λ l, l ++ [ev]) s) s'.
Proof.
  intros H Hsrc.
  destruct (emit_walk_returns ev (S (ev_source ev)) (ev_source ev)
              (set_emitted (λ l, l ++ [ev]) s)) as (s' & Hs' & H' & Hfr);
    [by eapply wf_fields; [..|exact H]|done|lia|].
  exists s'. split; [|done].
  unfold emit, __emit_event__, modify, assert, bind.
  rewrite bool_decide_eq_true_2 by done. exact Hs'.
Qed.

(** A change of state returns, and only the state of the task changes. *)
Lemma change_state_returns t v s T :
  wf s → tasks s !! t = Some T → state T ≠ v →
  ∃ s', __change_state t v s = (Ok tt, s') ∧ wf s' ∧
        view s' = <[t := (parent T, children T, v)]> (view s).
Proof.
  intros H HT Hne. unfold __change_state.
  rewrite (bind_Ok _ _ _ _ _ (get_task_Some _ _ _ HT)).
  rewrite decide_False by done.
  set (s1 := set_tasks (alter (set_state v) t) s).
  assert (wf s1) as H1 by (apply wf_alter; [by intros []|done]).
  assert (view s1 = <[t := (parent T, children T, v)]> (view s)) as Hv1
    by by apply view_set_state.
  assert (modify_task t (set_state v) s = (Ok tt, s1)) as Hmod by done.
  rewrite (bind_Ok _ _ _ _ _ Hmod).
  destruct (parent T) as [p|]; [|by exists s1].
  rewrite as_current_task_run.
  set (s2 := set__current_task (Some t) s1).
  set (ev := Event TaskStateChange t (StateChange (Some (state T)) v)).
  assert (TaskEvent_init TaskStateChange (StateChange (Some (state T)) v) s2 =
          (Ok ev, s2)) as Hev by by apply TaskEvent_init_run.
  fold s2. rewrite (bind_Ok _ _ _ _ _ Hev).
  destruct (emit_returns ev s2) as (s3 & Hs3 & H3 & Hfr).
  { by eapply wf_fields; [..|exact H1]. }
  { simpl. unfold s2, s1. simpl. rewrite is_Some_alter. by exists T. }
  rewrite Hs3. simpl. eexists. split; [done|]. split.
  - by eapply wf_fields; [..|exact H3].
  - rewrite <- Hv1. apply view_emit_frame in Hfr.
    etrans; [|etrans; [exact Hfr|]]; by apply view_fields.
Qed.
(** * Cancellation reaches the live descendants *)

Lemma view_lookup s t T :
  tasks s !! t = Some T → view s !! t = Some (parent T, children T, state T).
Proof. intros H. unfold view. by rewrite lookup_fmap, H. Qed.

Lemma view_lookup_inv s t p ch st :
  view s !! t = Some (p, ch, st) →
  ∃ T, tasks s !! t = Some T ∧ parent T = p ∧ children T = ch ∧ state T = st.
Proof.
  unfold view. rewrite lookup_fmap. destruct (tasks s !! t) as [T|]; [|done].
  intros [= <- <- <-]. eauto.
Qed.

Lemma live_vlive s t : live t s ↔ vlive (view s) t.
Proof.
  split.
  - intros (T & HT & Hl). exists (parent T), (children T), (state T).
    split; [by apply view_lookup|]. by rewrite <- is_finished_terminal.
  - intros (p & ch & st & Hv & Hl). apply view_lookup_inv in Hv as (T & HT & _ & _ & <-).
    exists T. by rewrite is_finished_terminal.
Qed.

Lemma state_of_view s t : state_of s t = (λ x, x.2) <$> view s !! t.
Proof. unfold state_of, view. rewrite lookup_fmap. by destruct (tasks s !! t). Qed.

Lemma elem_of_live_set s t : t ∈ live_set s ↔ live t s.
Proof.
  unfold live_set, live. rewrite elem_of_dom. unfold is_Some.
  setoid_rewrite map_lookup_filter_Some. simpl. naive_solver.
Qed.

Lemma live_count_live_set s : live_count s = size (live_set s).
Proof. unfold live_count, live_set. by rewrite size_dom. Qed.

Lemma moved_refl st v : moved st v v.
Proof. intros u. by left. Qed.

Lemma moved_trans st v1 v2 v3 :
  terminal st = true → moved st v1 v2 → moved st v2 v3 → moved st v1 v3.
Proof.
  intros Hst H12 H23 u. destruct (H23 u) as [E|(p & ch & st0 & E2 & Hl & E3)].
  - rewrite E. apply H12.
  - destruct (H12 u) as [E'|(p' & ch' & st0' & E1 & Hl' & E2')].
    + right. exists p, ch, st0. by rewrite <- E'.
    + rewrite E2 in E2'. simplify_eq. congruence.
Qed.

Lemma moved_is_Some st v v' u : moved st v v' → is_Some (v' !! u) ↔ is_Some (v !! u).
Proof.
  intros H. destruct (H u) as [->|(p & ch & st0 & -> & _ & ->)]; [done|].
  split; eauto.
Qed.

Lemma moved_vlive st v v' u : terminal st = true → moved st v v' → vlive v' u → vlive v u.
Proof.
  intros Hst H (p & ch & st' & Hu & Hl).
  destruct (H u) as [E|(p' & ch' & st0 & E & _ & E')].
  - exists p, ch, st'. by rewrite <- E.
  - rewrite Hu in E'. simplify_eq. congruence.
Qed.

Lemma moved_insert st v t p ch st0 :
  v !! t = Some (p, ch, st0) → terminal st0 = false →
  moved st v (<[t := (p, ch, st)]> v).
Proof.
  intros Ht Hl u. destruct (decide (u = t)) as [->|].
  - right. exists p, ch, st0. by rewrite lookup_insert_eq.
  - left. by rewrite lookup_insert_ne.
Qed.

Lemma live_set_moved st s s' :
  terminal st = true → moved st (view s) (view s') → live_set s' ⊆ live_set s.
Proof.
  intros Hst H u. rewrite !elem_of_live_set, !live_vlive. by apply moved_vlive with st.
Qed.

Lemma live_count_moved st s s' :
  terminal st = true → moved st (view s) (view s') → live_count s' ≤ live_count s.
Proof.
  intros Hst H. rewrite !live_count_live_set.
  by apply subseteq_size, live_set_moved with st.
Qed.

Lemma live_count_moved_lt st s s' t :
  terminal st = true → moved st (view s) (view s') → live t s → ¬ live t s' →
  live_count s' < live_count s.
Proof.
  intros Hst H Hl Hn. rewrite !live_count_live_set. apply subset_size.
  split; [by apply live_set_moved with st|].
  intros Hsub. apply Hn. apply elem_of_live_set, Hsub, elem_of_live_set, Hl.
Qed.

Lemma live_path_start s t u : live_path s t u → live t s.
Proof. destruct 1; [done|]. by exists T. Qed.

Lemma live_path_view s s' t u : view s' = view s → live_path s t u → live_path s' t u.
Proof.
  intros Hv. induction 1 as [t Hl|t T c u HT Hl Hc _ IH].
  - apply live_path_here. apply live_vlive. rewrite Hv. by apply live_vlive.
  - apply view_lookup in HT. rewrite <- Hv in HT.
    apply view_lookup_inv in HT as (T' & HT' & _ & Hch & Hst).
    eapply live_path_child; [done| |by rewrite Hch|done].
    rewrite !is_finished_terminal in *. congruence.
Qed.

(** Every task that a cancellation has moved took its live descendants
    along. *)
Lemma moved_live_path st s s' t u :
  terminal st = true →
  moved st (view s) (view s') → closed_under_children (view s) (view s') →
  live_path s t u → view s' !! t ≠ view s !! t →
  state_of s' u = Some st.
Proof.
  intros Hst Hm Hc. induction 1 as [t Hl|t T c u HT Hl Hch Hp IH]; intros Hne.
  - destruct (Hm t) as [E|(p & ch & st0 & _ & _ & E)]; [done|].
    by rewrite state_of_view, E.
  - destruct (Hm t) as [E|(p & ch & st0 & E0 & _ & E)]; [done|].
    apply view_lookup in HT. rewrite HT in E0. simplify_eq.
    apply IH. intros Ec.
    apply (Hc t _ _ _ c E Hne Hch). unfold vlive. rewrite Ec.
    apply live_vlive. by eapply live_path_start.
Qed.
(** ** [__cancel] returns *)

Lemma cancel_gate_block_returns g t s :
  wf s → is_Some (tasks s !! t) →
  ∃ s', if_not_done g t (gate_cancel g t;; ret tt) s = (Ok tt, s') ∧
        wf s' ∧ view s' = view s.
Proof.
  intros H [T HT].
  exists (if fut_done (g_state (get_gate g T)) then s
          else set_ready (λ q, q ++ g_callbacks (get_gate g T))
                 (set_tasks (alter (set_gate g (λ _, Gate FCancelled [])) t) s)).
  split.
  { unfold if_not_done, gate_cancel, gate_done, gate_resolve, bind, get_task,
      ret, modify_task, modify, raise.
    rewrite HT. simpl. destruct (fut_done _) eqn:E; simpl; [done|].
    rewrite HT. simpl. rewrite E. simpl. rewrite HT. simpl. by rewrite E. }
  destruct (fut_done _); [done|]. split.
  - eapply wf_fields; [..|apply (wf_alter s t), H]; [done..|].
    intros []. by destruct g.
  - etrans; [by apply view_fields|]. apply view_alter_same.
    intros []. by destruct g.
Qed.

Lemma view_is_Some s t : is_Some (view s !! t) ↔ is_Some (tasks s !! t).
Proof. unfold view. rewrite lookup_fmap. apply fmap_is_Some. Qed.

Lemma cancel_rec_returns fuel t d s :
  wf s → is_Some (tasks s !! t) → live_count s < fuel →
  ∃ s', cancel_rec fuel t d s = (Ok tt, s') ∧ wf s' ∧
        moved (cancelled_as d) (view s) (view s') ∧ ¬ live t s' ∧
        closed_under_children (view s) (view s').
Proof.
  assert (terminal (cancelled_as d) = true) as Hst by by destruct d.
  revert t s. induction fuel as [|fuel IH]; intros t s H [T HT] Hfuel; [lia|].
  simpl. rewrite (bind_Ok _ _ _ _ _ (get_task_Some _ _ _ HT)).
  destruct (is_finished T) eqn:Hfin.
  { exists s. split_and!; [done|done|apply moved_refl| |].
    - intros (T' & HT' & Hl). simplify_eq. congruence.
    - intros w p ch st c Hw Hne. done. }
  (* the task itself *)
  set (sa := set_tasks (alter (set_aio_main_task (λ m, MainTask (pc m) true)) t) s).
  assert (wf sa ∧ view sa = view s) as [Ha Hva].
  { split; [apply wf_alter; [by intros []|done]|].
    apply view_alter_same. by intros []. }
  assert (modify_task t (set_aio_main_task (λ m, MainTask (pc m) true)) s =
          (Ok tt, sa)) as Hma by done.
  rewrite (bind_Ok _ _ _ _ _ Hma).
  set (sb := set_tasks (alter (set_lease None) t) sa).
  assert (wf sb ∧ view sb = view s) as [Hb Hvb].
  { split; [apply wf_alter; [by intros []|done]|].
    rewrite <- Hva. apply view_alter_same. by intros []. }
  assert (modify_task t (set_lease None) sa = (Ok tt, sb)) as Hmb by done.
  rewrite (bind_Ok _ _ _ _ _ Hmb).
  assert (∀ x, view x = view s → is_Some (tasks x !! t)) as Hex.
  { intros x Hx. pose proof (view_lookup _ _ _ HT) as Hv. rewrite <- Hx in Hv.
    apply view_lookup_inv in Hv as (T' & HT' & _). by exists T'. }
  destruct (cancel_gate_block_returns Started t sb Hb (Hex _ Hvb))
    as (sc & Hsc & Hc & Hvc).
  rewrite (bind_Ok _ _ _ _ _ Hsc). rewrite Hvb in Hvc.
  destruct (cancel_gate_block_returns Finished t sc Hc (Hex _ Hvc))
    as (sd & Hsd & Hd & Hvd).
  rewrite (bind_Ok _ _ _ _ _ Hsd). rewrite Hvc in Hvd.
  pose proof (view_lookup _ _ _ HT) as Hv. rewrite <- Hvd in Hv.
  apply view_lookup_inv in Hv as (Td & HTd & Hpd & Hcd & Hsd').
  destruct (change_state_returns t (cancelled_as d) sd Td Hd HTd)
    as (se & Hse & He & Hve).
  { rewrite Hsd'. intros E. rewrite is_finished_terminal, E in Hfin. congruence. }
  rewrite (bind_Ok _ _ _ _ _ Hse).
  rewrite Hpd, Hcd, Hvd in Hve.
  assert (moved (cancelled_as d) (view s) (view se)) as Hme.
  { rewrite Hve. eapply moved_insert; [by apply view_lookup|].
    by rewrite <- is_finished_terminal. }
  assert (view se !! t = Some (parent T, children T, cancelled_as d)) as Hte
    by by rewrite Hve, lookup_insert_eq.
  pose proof Hte as Hte'.
  apply view_lookup_inv in Hte' as (Te & HTe & _ & Hce & Hse').
  rewrite (bind_Ok _ _ _ _ _ (get_task_Some _ _ _ HTe)). rewrite Hce.
  assert (¬ live t se) as Hnl.
  { intros (T' & HT' & Hl'). simplify_eq.
    rewrite is_finished_terminal, Hse' in Hl'. congruence. }
  assert (live_count se < live_count s) as Hlt.
  { eapply live_count_moved_lt; [exact Hst|exact Hme| |exact Hnl]. by exists T. }
  (* the children *)
  assert (∀ l x, wf x → (∀ c, c ∈ l → is_Some (tasks x !! c)) →
            live_count x < fuel →
            ∃ x', for_each l (λ child, cancel_rec fuel child d) x = (Ok tt, x') ∧
                  wf x' ∧ moved (cancelled_as d) (view x) (view x') ∧
                  (∀ c, c ∈ l → ¬ live c x') ∧
                  closed_under_children (view x) (view x')) as Hloop.
  { clear -IH Hst. induction l as [|c l IHl]; intros x Hx Hl Hfuel; simpl.
    { exists x. split_and!; [done|done|apply moved_refl| |].
      - intros c Hc. by apply elem_of_nil in Hc.
      - intros w p ch st c Hw Hne. done. }
    destruct (IH c x Hx) as (x1 & Hx1 & H1 & Hm1 & Hn1 & Hc1);
      [apply Hl; by left|done|].
    rewrite (bind_Ok _ _ _ _ _ Hx1).
    destruct (IHl x1 H1) as (x' & Hx' & H' & Hm' & Hn' & Hc').
    { intros c0 Hc0. apply view_is_Some.
      rewrite (moved_is_Some _ _ _ _ Hm1). apply view_is_Some, Hl. by right. }
    { pose proof (live_count_moved _ _ _ Hst Hm1). lia. }
    exists x'. split_and!; [done|done|by eapply moved_trans| |].
    - intros c' [->|Hin]%elem_of_cons; [|by apply Hn'].
      rewrite live_vlive. intros Hv. apply Hn1. rewrite live_vlive.
      by eapply moved_vlive.
    - intros w p ch st c' Hw Hne Hch.
      destruct (decide (view x' !! w = view x1 !! w)) as [E|E].
      + rewrite E in Hw, Hne. intros Hv.
        apply (Hc1 w p ch st c' Hw Hne Hch). by eapply moved_vlive.
      + by eapply Hc'. }
  destruct (Hloop (children T) se He) as (sf & Hsf & Hf & Hmf & Hnf & Hcf).
  { intros c Hin. by apply (wf_children se He t Te); [|rewrite Hce]. }
  { lia. }
  rewrite (bind_Ok _ _ _ _ _ Hsf). rewrite as_current_task_run.
  unfold on_cancel, ret. simpl. eexists. split; [done|].
  set (sg := set__current_task _ _).
  assert (view sg = view sf) as Hvg by done.
  assert (moved (cancelled_as d) (view s) (view sf)) as Hm
    by by eapply moved_trans.
  rewrite Hvg. split_and!; [..|done| |].
  - by eapply wf_fields; [..|exact Hf].
  - rewrite live_vlive, Hvg. intros Hv. apply Hnl, live_vlive.
    by eapply moved_vlive.
  - intros w p ch st c Hw Hne Hch.
    destruct (decide (view sf !! w = view se !! w)) as [E|E]; [|by eapply Hcf].
    destruct (decide (w = t)) as [->|Hwt].
    + rewrite E, Hte in Hw. simplify_eq. rewrite <- live_vlive. by apply Hnf.
    + exfalso. apply Hne. rewrite E, Hve. by rewrite lookup_insert_ne.
Qed.

Lemma cancel_rec_reaches (s : sys) (t u : tid) (d : bool) :
  wf s → live_path s t u →
  ∃ s', __cancel t d s = (Ok tt, s') ∧ wf s' ∧
        state_of s' u = Some (cancelled_as d).
Proof.
  intros H Hp. pose proof (live_path_start _ _ _ Hp) as Hl.
  destruct (cancel_rec_returns (S (live_count s)) t d s H)
    as (s' & Hs' & H' & Hm & Hn & Hc); [by apply live_is_Some|lia|].
  exists s'. split_and!; [done..|].
  eapply moved_live_path; [by destruct d|exact Hm|exact Hc|exact Hp|].
  intros E. apply Hn. rewrite live_vlive. unfold vlive. rewrite E.
  by apply live_vlive.
Qed.


Lemma sys_grandchild_wf : wf (set__current_task (Some 0) sys_grandchild).
Proof.
  apply (bool_decide_unpack (wf (set__current_task (Some 0) sys_grandchild))).
  by vm_compute.
Qed.

Lemma sys_grandchild_live_path :
  live_path (set__current_task (Some 0) sys_grandchild) 1 3.
Proof.
  eapply (live_path_child _ 1 (task_of sys_grandchild 1) 3 3);
    [by vm_compute|by vm_compute|vm_compute; left|].
  apply live_path_here. exists (task_of sys_grandchild 3). by vm_compute.
Qed.

(** ** Handlers absorb the failure *)

Lemma routed_run s task exception e :
  routed s task exception = Some e →
  (match exception with
   | Some e => ret (Some e)
   | None =>
       try_except (gate_exception Finished task)
         (λ exc, if is_CancelledError exc then Some (ret (Some exc)) else None)
   end) s = (Ok (Some e), s).
Proof.
  unfold routed. destruct exception as [e0|]; [by intros [= ->]|].
  destruct (tasks s !! task) as [D|] eqn:HD; [|done].
  unfold try_except, gate_exception.
  rewrite (bind_Ok _ _ _ _ _ (get_task_Some _ _ _ HD)).
  destruct (g_state (finished D)) eqn:Eg; simpl; rewrite ?Eg; try done.
  all: by intros [= <-].
Qed.

Lemma propagate_failure_handled_run s self task T exception e wrap h :
  tasks s !! self = Some T →
  error_handlers T !! Some task = Some h ∨
  (error_handlers T !! Some task = None ∧ error_handlers T !! None = Some h) →
  routed s task exception = Some e →
  __propagate_failure self task exception wrap s =
  (Ok tt, handler_scheduled self T h (wrapped wrap task e) s).
Proof.
  intros HT Hh Hr. unfold __propagate_failure.
  rewrite (bind_Ok _ _ _ _ _ (routed_run _ _ _ _ Hr)).
  fold (wrapped wrap task e).
  rewrite (bind_Ok _ _ _ _ _ (get_task_Some _ _ _ HT)).
  assert (∀ h0, (background self (BgHandler h0 (wrapped wrap task e))
                   true true;; ret tt) s =
                (Ok tt, handler_scheduled self T h0 (wrapped wrap task e) s))
    as Hbg.
  { intros h0. unfold bind. by rewrite (background_handler_run _ T). }
  destruct Hh as [->|[-> ->]]; apply Hbg.
Qed.

Lemma StableSet_add_nonempty x l : StableSet_add x l ≠ [].
Proof.
  unfold StableSet_add. destruct (decide (x ∈ l)) as [Hx|].
  - intros ->. by apply elem_of_nil in Hx.
  - by destruct l.
Qed.

(** With the coroutine of a handler to wait for, the task does not
    finish. *)
Lemma check_finish_handler_scheduled s self T h e :
  tasks s !! self = Some T →
  __check_finish self (handler_scheduled self T h e s) =
  (Ok tt, handler_scheduled self T h e s).
Proof.
  intros HT. unfold __check_finish, handler_scheduled, bind, get_task.
  destruct (is_finished T) eqn:Hf; simpl.
  - rewrite HT. simpl. unfold is_finished in Hf. by destruct (state T).
  - rewrite lookup_alter_eq, HT. simpl.
    destruct (bool_decide (state T = waiting)); simpl; [|done].
    destruct (bool_decide (pending_children T = [])); simpl; [|done].
    rewrite bool_decide_eq_false_2; [done|]. apply StableSet_add_nonempty.
Qed.
Lemma routed_alter s t (f : Task → Task) task exception :
  (∀ T, finished (f T) = finished T) →
  routed (set_tasks (alter f t) s) task exception = routed s task exception.
Proof.
  intros Hf. unfold routed. destruct exception; [done|]. simpl.
  destruct (decide (task = t)) as [->|].
  - rewrite lookup_alter_eq. destruct (tasks s !! t); simpl; [|done].
    by rewrite Hf.
  - by rewrite lookup_alter_ne.
Qed.

(** C3, as the code has it.  The propagator is given the exception or,
    when a child or a dependency has finished, reads it from the
    finished-gate of the source [task].  A handler registered for [task] is
    the one that runs, also when a fallback handler is registered; without
    one the fallback handler runs.  The handler is made a coroutine of
    [self] that receives the exception (wrapped when [wrap] is given), and
    [self] keeps its state.  The coroutine is one [self] waits for exactly
    when [self] is not in a terminal state; the test for finishing that
    follows in [__child_finished] then changes nothing.  So the callbacks
    [__child_finished] and [__dependency_finished], which take the source
    off the pending ones first, schedule the handler and nothing else; the
    latter goes on to the test for starting. *)
Theorem propagate_failure_handled (s : sys) (self task : tid) (T : Task)
    (e : exn) (h : handler) :
  tasks s !! self = Some T →
  error_handlers T !! Some task = Some h ∨
  (error_handlers T !! Some task = None ∧ error_handlers T !! None = Some h) →
  (∀ exception wrap, routed s task exception = Some e →
     let e' := wrapped wrap task e in
     let s' := handler_scheduled self T h e' s in
     __propagate_failure self task exception wrap s = (Ok tt, s') ∧
     aio_tasks s' !! next_id s =
       Some (BgTask self (BgHandler h e') (negb (is_finished T)) false false) ∧
     state_of s' self = state_of s self ∧
     (aio_wait_background_tasks <$> tasks s' !! self) =
       Some (if is_finished T then aio_wait_background_tasks T
             else StableSet_add (next_id s) (aio_wait_background_tasks T)) ∧
     __check_finish self s' = (Ok tt, s')) ∧
  (∀ cb, routed s task None = Some e →
     dict_get task (pending_children T) = Some cb →
     __child_finished self task s =
     (Ok tt,
      handler_scheduled self (set_pending_children (dict_del task) T) h
        (wrapped (Some (ChildFailed, ChildCancelled)) task e)
        (set_tasks (alter (set_pending_children (dict_del task)) self) s))) ∧
  (∀ cb, routed s task None = Some e →
     dict_get task (pending_dependencies T) = Some cb →
     __dependency_finished self task s =
     __check_start self
       (handler_scheduled self (set_pending_dependencies (dict_del task) T) h
          (wrapped (Some (DependencyFailed, DependencyCancelled)) task e)
          (set_tasks (alter (set_pending_dependencies (dict_del task)) self) s))).
Proof.
  intros HT Hh. split_and!.
  - intros exception wrap Hr e' s'. split_and!.
    + by apply propagate_failure_handled_run.
    + unfold s', handler_scheduled. destruct (is_finished T); simpl;
        by rewrite lookup_insert_eq.
    + unfold s', handler_scheduled, state_of. destruct (is_finished T); simpl;
        [done|]. by rewrite lookup_alter_eq, HT.
    + unfold s', handler_scheduled. destruct (is_finished T); simpl.
      * by rewrite HT.
      * by rewrite lookup_alter_eq, HT.
    + by apply check_finish_handler_scheduled.
  - intros cb Hr Hcb.
    set (s1 := set_tasks (alter (set_pending_children (dict_del task)) self) s).
    set (T1 := set_pending_children (dict_del task) T).
    assert (pop_pending_children self task s = (Ok tt, s1)) as Hpop.
    { unfold pop_pending_children.
      rewrite (bind_Ok _ _ _ _ _ (get_task_Some _ _ _ HT)). by rewrite Hcb. }
    assert (tasks s1 !! self = Some T1) as HT1.
    { unfold s1. simpl. by rewrite lookup_alter_eq, HT. }
    unfold __child_finished. rewrite (bind_Ok _ _ _ _ _ Hpop).
    rewrite (bind_Ok _ _ _ _ _
      (propagate_failure_handled_run s1 self task T1 None e _ h HT1 Hh
         ltac:(unfold s1; by rewrite routed_alter))).
    by apply check_finish_handler_scheduled.
  - intros cb Hr Hcb.
    set (s1 := set_tasks (alter (set_pending_dependencies (dict_del task)) self) s).
    set (T1 := set_pending_dependencies (dict_del task) T).
    assert (pop_pending_dependencies self task s = (Ok tt, s1)) as Hpop.
    { unfold pop_pending_dependencies.
      rewrite (bind_Ok _ _ _ _ _ (get_task_Some _ _ _ HT)). by rewrite Hcb. }
    assert (tasks s1 !! self = Some T1) as HT1.
    { unfold s1. simpl. by rewrite lookup_alter_eq, HT. }
    unfold __dependency_finished. rewrite (bind_Ok _ _ _ _ _ Hpop).
    by rewrite (bind_Ok _ _ _ _ _
      (propagate_failure_handled_run s1 self task T1 None e _ h HT1 Hh
         ltac:(unfold s1; by rewrite routed_alter))).
Qed.
Lemma propagate_failure_handled_witness :
  let E := Exn (UserError 0) None None in
  (__child_finished 1 3 (dequeued sys_cancelled_observer) =
   (Ok tt,
    handler_scheduled 1
      (set_pending_children (dict_del 3) (task_of sys_cancelled_observer 1)) 7
      (Exn ChildCancelled (Some 3) None)
      (set_tasks (alter (set_pending_children (dict_del 3)) 1)
         (dequeued sys_cancelled_observer)))) ∧
  (__child_finished 0 1 (dequeued (sys_dependency_chain true)) =
   (Ok tt,
    handler_scheduled 0
      (set_pending_children (dict_del 1) (task_of (sys_dependency_chain true) 0)) 9
      (Exn ChildFailed (Some 1) (Some E))
      (set_tasks (alter (set_pending_children (dict_del 1)) 0)
         (dequeued (sys_dependency_chain true))))) ∧
  exec ACallback sys_cancelled_observer =
    __child_finished 1 3 (dequeued sys_cancelled_observer) ∧
  exec ACallback (sys_dependency_chain true) =
    __child_finished 0 1 (dequeued (sys_dependency_chain true)) ∧
  state_of sys_cancelled_observer 1 = Some cancelled ∧
  state_of (sys_dependency_chain true) 0 = Some running ∧
  aio_tasks (run_actions [ACallback] (sys_dependency_chain true)) =
    {[ 10 := BgTask 0 (BgHandler 9 (Exn ChildFailed (Some 1) (Some E)))
               true false false ]} ∧
  (aio_wait_background_tasks <$>
     tasks (run_actions [ACallback] (sys_dependency_chain true)) !! 0) = Some [10].
Proof.
  intros E. split; [|split].
  - exact (proj1 (proj2 (propagate_failure_handled
      (dequeued sys_cancelled_observer) 1 3
      (task_of sys_cancelled_observer 1) (Exn CancelledError None None) 7
      ltac:(vm_compute; reflexivity)
      ltac:(left; vm_compute; reflexivity)))
      (CbChildFinished 4 1 3)
      ltac:(vm_compute; reflexivity) ltac:(vm_compute; reflexivity)).
  - exact (proj1 (proj2 (propagate_failure_handled
      (dequeued (sys_dependency_chain true)) 0 1
      (task_of (sys_dependency_chain true) 0) E 9
      ltac:(vm_compute; reflexivity)
      ltac:(right; vm_compute; split; reflexivity)))
      (CbChildFinished 2 0 1)
      ltac:(vm_compute; reflexivity) ltac:(vm_compute; reflexivity)).
  - vm_compute. repeat split.
Defined.
(** * The finished-gate is resolved *)


(** ** [__cancel] resolves the gates *)

Lemma cancel_gate_block_run g t T s :
  tasks s !! t = Some T →
  if_not_done g t (gate_cancel g t;; ret tt) s =
  (Ok tt,
   if fut_done (g_state (get_gate g T)) then s
   else set_ready (λ q, q ++ g_callbacks (get_gate g T))
          (set_tasks (alter (set_gate g (λ _, Gate FCancelled [])) t) s)).
Proof.
  intros HT.
  unfold if_not_done, gate_cancel, gate_done, gate_resolve, bind, get_task,
    ret, modify_task, modify, raise.
  rewrite HT. simpl. destruct (fut_done _) eqn:E; simpl; [done|].
  rewrite HT. simpl. rewrite E. simpl. rewrite HT. simpl. by rewrite E.
Qed.

Lemma cancel_rec_unfinished fuel t d :
  hoare (unfinished t) (cancel_rec (S fuel) t d)
    (λ s, ended t (cancelled_as d) s ∧ gate_resolved t Finished FCancelled s).
Proof.
  simpl. apply hoare_get_task_ex.
  { intros s (_ & T & HT & _). by exists T. }
  intros T. destruct (is_finished T) eqn:Hf.
  { intros s [(_ & T' & HT' & Hl & _) HT]. simplify_eq. congruence. }
  eapply hoare_conseq with (P' := unfinished t)
    (Q' := λ s, ended t (cancelled_as d) s ∧ gate_resolved t Finished FCancelled s);
    [|by intros ? [? ?]|done].
  apply hoare_bind_ok with (R := unfinished t).
  { intros s H. exists tt. split; [done|]. by apply unfinished_alter. }
  intros _. apply hoare_bind_ok with (R := unfinished t).
  { intros s H. exists tt. split; [done|]. by apply unfinished_alter. }
  intros _. apply hoare_bind_ok with (R := unfinished t).
  { intros s H. pose proof H as (Hb & T' & HT' & Hl & Hp).
    rewrite (cancel_gate_block_run _ _ T') by done. exists tt.
    split; [done|]. simpl. destruct (fut_done _); [done|].
    split; [by apply tasks_bound_alter|].
    simpl. rewrite lookup_alter_eq, HT'. simpl. eauto. }
  intros _.
  apply hoare_bind_ok
    with (R := λ s, live t s ∧ gate_resolved t Finished FCancelled s).
  { intros s (Hb & T' & HT' & Hl & Hp).
    rewrite (cancel_gate_block_run _ _ T') by done. exists tt.
    split; [done|]. simpl. rewrite Hp. simpl. split.
    - eexists. simpl. rewrite lookup_alter_eq, HT'. simpl. split; [done|].
      done.
    - split_and!; [by apply tasks_bound_alter| |done].
      eexists. simpl. rewrite lookup_alter_eq, HT'. simpl. split; done. }
  intros _. eapply hoare_bind;
    [apply hoare_conj;
       [apply change_state_ended; by destruct d|apply once_change_state]
    |done|].
  intros _. apply hoare_inv_bind; [apply hoare_inv_get_task|].
  intros T1. apply hoare_inv_bind.
  - apply hoare_for_each. intros c _.
    apply hoare_conj; [apply ended_cancel_rec|apply once_cancel_rec].
  - intros _. unfold on_cancel.
    apply hoare_conj; hinv ltac:(first [ended_leaf | gate_leaf]).
Qed.
(** ** [__check_finish] resolves the finished-gate *)

Lemma for_each_returns {A} (I : sys → Prop) (l : list A) (body : A → M unit) :
  (∀ x s, x ∈ l → I s → ∃ s', body x s = (Ok tt, s') ∧ I s') →
  ∀ s, I s → ∃ s', for_each l body s = (Ok tt, s') ∧ I s'.
Proof.
  induction l as [|x l IH]; intros Hbody s HI; simpl.
  - by exists s.
  - destruct (Hbody x s) as (s1 & Hs1 & H1); [by left|done|].
    rewrite (bind_Ok _ _ _ _ _ Hs1). apply IH; [|done].
    intros y s0 Hy. apply Hbody. by right.
Qed.

(** The cleanup of a task that has nothing to detach from returns, and
    changes no task but for the flag [cleaned_up]. *)
Lemma cleanup_returns t T s :
  tasks s !! t = Some T →
  pending_children T = [] → pending_dependencies T = [] →
  (∀ ty f, event_cursors T !! ty = Some f → is_Some (futures s !! f)) →
  ∃ s', __cleanup t s = (Ok tt, s') ∧
        tasks s' = (if cleaned_up T then tasks s
                    else alter (set_cleaned_up true) t (tasks s)).
Proof.
  intros HT Hpc Hpd Hcur. unfold __cleanup.
  rewrite (bind_Ok _ _ _ _ _ (get_task_Some _ _ _ HT)).
  destruct (cleaned_up T); [by exists s|].
  rewrite Hpc, Hpd. unfold on_cleanup.
  set (s1 := set_tasks (alter (set_cleaned_up true) t) s).
  set (s2 := set_next_id (S (next_id s1)) s1).
  set (I := λ x : sys, tasks x = tasks s1 ∧
                       ∀ f, is_Some (futures s !! f) → is_Some (futures x !! f)).
  assert (I s2) as H2 by done.
  destruct (for_each_returns I (aio_background_tasks T) aio_task_cancel)
    with (s := s2) as (s3 & Hs3 & H3); [|done|].
  { intros b x _ Hx. by eexists. }
  destruct (for_each_returns I (aio_wait_background_tasks T) aio_task_cancel)
    with (s := s3) as (s4 & Hs4 & H4); [|done|].
  { intros b x _ Hx. by eexists. }
  destruct (for_each_returns I (map_to_list (event_cursors T))
              (λ kv, future_cancel kv.2))
    with (s := s4) as (s5 & Hs5 & H5); [|done|].
  { intros [ty f] x Hin [Hx1 Hx2]. apply elem_of_map_to_list in Hin.
    simpl. unfold future_cancel.
    destruct (Hx2 f) as [v Hv]; [by eapply Hcur|]. rewrite Hv.
    destruct v; eexists; (split; [done|]); split; try done.
    intros f' Hf'. simpl. destruct (decide (f' = f)) as [->|].
    - by rewrite lookup_insert_eq.
    - rewrite lookup_insert_ne by done. by apply Hx2. }
  exists s5. split; [|apply H5].
  assert (modify_task t (set_cleaned_up true) s = (Ok tt, s1)) as Hm by done.
  rewrite (bind_Ok _ _ _ _ _ Hm).
  unfold ret at 1. unfold bind at 1.
  assert (fresh s1 = (Ok (next_id s1), s2)) as Hf by done.
  rewrite (bind_Ok _ _ _ _ _ Hf). simpl.
  unfold ret at 1. unfold bind at 1. unfold ret at 1. unfold bind at 1.
  rewrite (bind_Ok _ _ _ _ _ Hs3), (bind_Ok _ _ _ _ _ Hs4). exact Hs5.
Qed.
Lemma check_finish_run t T s :
  tasks s !! t = Some T → ready_to_finish s T →
  ∃ s1, __check_finish t s = gate_set_result Finished t s1 ∧
        tasks s1 = (if cleaned_up T then tasks s
                    else alter (set_cleaned_up true) t (tasks s)).
Proof.
  intros HT (Hst & Hpc & Hbg & Hpd & Hcur).
  destruct (cleanup_returns t T s HT Hpc Hpd Hcur) as (s1 & Hs1 & Ht1).
  exists s1. split; [|done]. unfold __check_finish.
  rewrite (bind_Ok _ _ _ _ _ (get_task_Some _ _ _ HT)).
  rewrite Hst, Hpc, Hbg. simpl. by rewrite (bind_Ok _ _ _ _ _ Hs1).
Qed.

Lemma check_finish_resolves t T s :
  tasks s !! t = Some T → ready_to_finish s T →
  (g_state (finished T) = FPending →
     (__check_finish t s).1 = Ok tt ∧
     gate_is t Finished (FResult tt) (run (__check_finish t) s)) ∧
  (fut_done (g_state (finished T)) = true →
     (__check_finish t s).1 = Raise (Exn InvalidStateError None None) ∧
     gate_is t Finished (g_state (finished T)) (run (__check_finish t) s)).
Proof.
  intros HT Hr. unfold run.
  destruct (check_finish_run t T s HT Hr) as (s1 & -> & Ht1).
  assert (∃ T1, tasks s1 !! t = Some T1 ∧ finished T1 = finished T)
    as (T1 & HT1 & Hf1).
  { rewrite Ht1. destruct (cleaned_up T); [by exists T|].
    exists (set_cleaned_up true T). by rewrite lookup_alter_eq, HT. }
  unfold gate_set_result, gate_resolve.
  rewrite (bind_Ok _ _ _ _ _ (get_task_Some _ _ _ HT1)). simpl. rewrite Hf1.
  split; intros Hg; rewrite Hg; simpl.
  - unfold modify_task, modify, bind, gate_is. simpl. split; [done|].
    eexists. rewrite lookup_alter_eq, HT1. simpl. done.
  - unfold raise. simpl. split; [done|]. exists T1. by rewrite <- Hf1.
Qed.

(** * C1: the finished-gate resolves at most once, after the started-gate *)

Lemma sys_child_reachable : reachable sys_child.
Proof. apply reachable_run_actions, sys_root_reachable. Qed.

Lemma sys_cancelled_child_reachable : reachable sys_cancelled_child.
Proof. apply reachable_run_actions, sys_child_reachable. Qed.

(** * What is queued stays queued *)

Lemma queued_emit cb ev : hoare (queued cb) (emit ev) (queued cb).
Proof.
  intros s Hq. pose proof (emit_spec ev s) as (_ & _ & _ & Hr & _).
  unfold queued. by rewrite Hr.
Qed.

Ltac queued_leaf :=
  idtac;
  lazymatch goal with
  | |- hoare _ (emit _) _ => apply queued_emit
  | |- hoare _ (as_current_task _ _) _ =>
      apply hoare_as_current_task; [by intros ? ? ?|]
  | |- hoare _ (modify_task _ _) _ => apply hoare_modify; by intros ? ?
  | |- hoare _ (call_soon _) _ =>
      apply hoare_modify; intros ? ?; unfold queued in *; simpl;
      rewrite elem_of_app; by left
  | |- hoare _ (modify (set_ready (λ q, q ++ _))) _ =>
      apply hoare_modify; intros ? ?; unfold queued in *; simpl;
      rewrite elem_of_app; by left
  | |- hoare _ (modify _) _ => apply hoare_modify; by intros ? ?
  | |- hoare _ fresh _ => by intros ? ?
  | |- hoare _ new_future _ => by intros ? ?
  | |- hoare _ current_task _ =>
      let s := fresh in intros s ?; unfold current_task;
      by destruct (_current_task s)
  | |- hoare _ (future_cancel _) _ =>
      let s := fresh in intros s ?; unfold future_cancel;
      by repeat case_match
  | |- hoare _ (future_set_result _ _) _ =>
      let s := fresh in intros s ?; unfold future_set_result;
      by repeat case_match
  | |- hoare _ (aio_task_cancel _) _ => by intros ? ?
  | |- hoare _ (create_task _) _ => by intros ? ?
  end.

Lemma queued_gate_resolve cb g t v :
  hoare (queued cb) (gate_resolve g t v) (queued cb).
Proof. unfold gate_resolve. hinv queued_leaf. Qed.

Lemma queued_change_state cb t st :
  hoare (queued cb) (__change_state t st) (queued cb).
Proof. unfold __change_state, TaskEvent_init. hinv queued_leaf. Qed.

Lemma queued_cancel_rec cb fuel t d :
  hoare (queued cb) (cancel_rec fuel t d) (queued cb).
Proof.
  revert t. induction fuel as [|fuel IH]; intros t; simpl.
  - apply hoare_stuck.
  - unfold if_not_done, gate_done, gate_cancel, gate_done, on_cancel.
    hinv ltac:(first
      [ lazymatch goal with
        | |- hoare _ (cancel_rec _ _ _) _ => apply IH
        | |- hoare _ (__change_state _ _) _ => apply queued_change_state
        | |- hoare _ (gate_resolve _ _ _) _ => apply queued_gate_resolve
        end
      | queued_leaf ]).
Qed.

Lemma queued_cleanup cb t : hoare (queued cb) (__cleanup t) (queued cb).
Proof.
  unfold __cleanup, on_cleanup, gate_remove_done_callback.
  hinv queued_leaf.
Qed.
(** * A dependency that fails *)

Lemma dict_get_set {V} (k : nat) (v : V) (d : list (nat * V)) :
  dict_get k (dict_set k v d) = Some v.
Proof.
  induction d as [|[k' v'] d IH]; simpl.
  - by rewrite decide_True.
  - destruct (decide (k' = k)) as [->|]; simpl.
    + by rewrite decide_True.
    + by rewrite decide_False.
Qed.

(** [depends_on] registers the callback. *)
Lemma depends_on_registers s a b Ta Tb :
  a ≠ b → tasks s !! a = Some Ta → tasks s !! b = Some Tb →
  state Tb = preparing ∨ state Tb = pending →
  state_in_ppr Ta = true → g_state (finished Ta) = FPending →
  (depends_on b a s).1 = Ok tt ∧ waits_for b a (next_id s) (run (depends_on b a) s).
Proof.
  intros Hab Ha Hb Hst Hppr Hg.
  set (cb := CbDependencyFinished (next_id s) b a).
  set (s1 := set_tasks (alter (set_dependencies (StableSet_add a)) b) s).
  set (s2 := set_next_id (S (next_id s)) s1).
  set (s3 := set_tasks (alter (set_gate Finished
                (λ G, Gate (g_state G) (g_callbacks G ++ [cb]))) a) s2).
  set (s4 := set_tasks (alter (set_pending_dependencies (dict_set a cb)) b) s3).
  set (s5 := set_tasks (alter (set_reverse_dependencies (StableSet_add b)) a) s4).
  assert (depends_on b a s = (Ok tt, s5)) as Hrun.
  { unfold depends_on.
    rewrite (bind_Ok _ _ _ _ _ (get_task_Some _ _ _ Hb)).
    assert (assert (bool_decide (state Tb = preparing) ||
                    bool_decide (state Tb = pending)) s = (Ok tt, s)) as Has.
    { by destruct Hst as [-> | ->]. }
    rewrite (bind_Ok _ _ _ _ _ Has).
    assert (modify_task b (set_dependencies (StableSet_add a)) s = (Ok tt, s1))
      as Hm1 by done.
    rewrite (bind_Ok _ _ _ _ _ Hm1).
    assert (tasks s1 !! a = Some Ta) as Ha1.
    { unfold s1. simpl. by rewrite lookup_alter_ne. }
    rewrite (bind_Ok _ _ _ _ _ (get_task_Some _ _ _ Ha1)). rewrite Hppr.
    assert (fresh s1 = (Ok (next_id s), s2)) as Hf by done.
    rewrite (bind_Ok _ _ _ _ _ Hf). fold cb.
    assert (gate_add_done_callback Finished a cb s2 = (Ok tt, s3)) as Hadd.
    { unfold gate_add_done_callback, gate_done.
      assert (tasks s2 !! a = Some Ta) as Ha2 by done.
      rewrite (bind_Ok _ _ _ _ _
        (bind_Ok _ _ _ _ _ (get_task_Some _ _ _ Ha2))).
      simpl. by rewrite Hg. }
    by rewrite (bind_Ok _ _ _ _ _ Hadd). }
  unfold run. rewrite Hrun. split; [done|].
  exists (set_reverse_dependencies (StableSet_add b)
            (set_gate Finished (λ G, Gate (g_state G) (g_callbacks G ++ [cb])) Ta)),
         (set_pending_dependencies (dict_set a cb)
            (set_dependencies (StableSet_add a) Tb)).
  simpl. split_and!.
  - rewrite lookup_alter_eq, lookup_alter_ne, lookup_alter_eq,
      lookup_alter_ne by done. by rewrite Ha.
  - rewrite lookup_alter_ne, lookup_alter_eq, lookup_alter_ne,
      lookup_alter_eq by done. by rewrite Hb.
  - destruct Ta. simpl. rewrite elem_of_app. right. by left.
  - destruct Tb. simpl. apply dict_get_set.
Qed.
(** The failure of a task hands the callbacks of its finished-gate to the
    loop. *)
Lemma failed_schedules t e cb :
  hoare (λ s, unfinished t s ∧
              ∃ T, tasks s !! t = Some T ∧ cb ∈ g_callbacks (finished T))
    (__failed t (Some e)) (queued cb).
Proof.
  set (P := λ s, unfinished t s ∧
                 ∃ T, tasks s !! t = Some T ∧ cb ∈ g_callbacks (finished T)).
  unfold __failed. apply hoare_get_task_ex.
  { intros s ((_ & T & HT & _) & _). by exists T. }
  intros T. destruct (is_finished T) eqn:Hf.
  { intros s [((_ & T' & HT' & Hl & _) & _) HT]. simplify_eq. congruence. }
  eapply hoare_conseq with (P' := P) (Q' := queued cb);
    [|by intros ? [? ?]|done].
  apply hoare_bind_ok with (R := P).
  { intros s [Hu (T' & HT' & Hcb)]. exists tt. split; [done|]. split.
    - by apply unfinished_alter.
    - eexists. simpl. rewrite lookup_alter_eq, HT'. simpl. split; [done|].
      by destruct T'. }
  intros _. apply hoare_bind_ok with (R := P).
  { intros s [Hu (T' & HT' & Hcb)].
    rewrite (failed_gate_block_run _ _ T') by done. exists tt.
    split; [done|]. simpl. destruct (fut_done _); [by split; eauto|].
    destruct Hu as (Hb & T'' & HT'' & Hl & Hp).
    assert (T'' = T') as -> by congruence. split.
    - split; [by apply tasks_bound_alter|].
      simpl. rewrite lookup_alter_eq, HT'. simpl. eauto.
    - eexists. simpl. rewrite lookup_alter_eq, HT'. simpl. split; [done|].
      by destruct T'. }
  intros _. apply hoare_bind_ok with (R := queued cb).
  { intros s [(Hb & T'' & HT'' & Hl & Hp) (T' & HT' & Hcb)].
    assert (T'' = T') as -> by congruence.
    rewrite (failed_gate_block_run _ _ T') by done. exists tt.
    split; [done|]. simpl. rewrite Hp. unfold queued. simpl.
    rewrite elem_of_app. by right. }
  intros _. apply hoare_inv_bind; [apply queued_change_state|].
  intros _. apply hoare_inv_bind; [apply hoare_inv_get_task|].
  intros T1. apply hoare_for_each. intros c _.
  apply hoare___cancel. intros fuel. apply queued_cancel_rec.
Qed.

(** The task [b] is told that its dependency [a] has failed. *)
Lemma dependency_finished_told (s : sys) (a b : tid) (Ta Tb : Task) (e : exn)
    (cb : callback) :
  tasks_bound s →
  tasks s !! a = Some Ta → g_state (finished Ta) = FException e →
  is_CancelledError e = false →
  tasks s !! b = Some Tb → is_finished Tb = false →
  g_state (finished Tb) = FPending →
  dict_get a (pending_dependencies Tb) = Some cb →
  error_handlers Tb !! Some a = None → error_handlers Tb !! None = None →
  let s' := run (__dependency_finished b a) s in
  ended b failed s' ∧
  gate_resolved b Finished (FException (Exn DependencyFailed (Some a) (Some e))) s' ∧
  ∀ cb', cb' ∈ g_callbacks (finished Tb) → queued cb' s'.
Proof.
  intros Hb Ha He Hc HTb Hl Hp Hcb Hh1 Hh2 s'.
  destruct (dependency_finished_fails s a b Ta Tb e cb) as [H1 H2]; [done..|].
  split; [done|]. split; [done|]. intros cb' Hcb'.
  assert (a ≠ b) as Hab by (intros ->; simplify_eq; congruence).
  set (s1 := set_tasks (alter (set_pending_dependencies (dict_del a)) b) s).
  assert (pop_pending_dependencies b a s = (Ok tt, s1)) as Hpop.
  { unfold pop_pending_dependencies.
    rewrite (bind_Ok _ _ _ _ _ (get_task_Some _ _ _ HTb)). by rewrite Hcb. }
  assert (tasks s1 !! a = Some Ta) as Ha1.
  { unfold s1. simpl. by rewrite lookup_alter_ne. }
  assert (tasks s1 !! b = Some (set_pending_dependencies (dict_del a) Tb)) as Hb1.
  { unfold s1. simpl. by rewrite lookup_alter_eq, HTb. }
  assert (unfinished b s1) as Hu.
  { apply unfinished_alter; [done|done|]. split; [done|]. eauto. }
  unfold s', run, __dependency_finished.
  rewrite (bind_Ok _ _ _ _ _ Hpop).
  pose proof (propagate_failure_unhandled_run s1 b a _ Ta e
    DependencyFailed DependencyCancelled Ha1 He Hc Hb1 Hh1 Hh2 eq_refl) as Hrun.
  unfold bind. rewrite Hrun.
  pose proof (failed_schedules b (Exn DependencyFailed (Some a) (Some e)) cb' s1)
    as HQ.
  pose proof (failed_unfinished b (Exn DependencyFailed (Some a) (Some e)) s1 Hu)
    as [HE _].
  destruct (__failed b _ s1) as [[[]|?|] s2]; simpl in *.
  - rewrite (check_start_ended b failed) by done. apply HQ.
    split; [done|]. eexists. split; [done|]. by destruct Tb.
  - apply HQ. split; [done|]. eexists. split; [done|]. by destruct Tb.
  - apply HQ. split; [done|]. eexists. split; [done|]. by destruct Tb.
Qed.
(** ** A task whose [on_prepare] or [on_run] raises *)

Lemma main_segment_raise_run self e s :
  main_segment self (raise_exn e) None s =
  (set_pc self PcExited;; try_finally (main_except self e) (main_finally self)) s.
Proof. done. Qed.

Lemma task_main_step_raise_run a e s Ta :
  tasks s !! a = Some Ta →
  pc (aio_main_task Ta) = PcOnPrepare ∨ pc (aio_main_task Ta) = PcOnRun →
  is_Exception e = true → is_CancelledError e = false →
  error_handlers Ta !! Some a = None → error_handlers Ta !! None = None →
  task_main_step a (Throw e) s =
  try_finally (__failed a (Some e)) (main_finally a)
    (run (set_pc a PcExited) (set__current_task (Some a) s)).
Proof.
  intros Ha Hpc Hex Hc Hh1 Hh2. unfold task_main_step.
  rewrite (bind_Ok _ _ _ _ _ (get_task_Some _ _ _ Ha)).
  assert ((modify (set__current_task (Some a));;
           main_segment a (raise_exn e) None) s =
          try_finally (__failed a (Some e)) (main_finally a)
            (run (set_pc a PcExited) (set__current_task (Some a) s))) as Hrun.
  { unfold bind at 1. unfold modify at 1. rewrite main_segment_raise_run.
    unfold bind at 1. unfold set_pc at 1, modify_task at 1, modify at 1.
    unfold run, set_pc, modify_task, modify. simpl.
    set (s2 := set_tasks _ _).
    assert (main_except a e s2 = __failed a (Some e) s2) as Hme.
    { unfold main_except. rewrite Hex. unfold __propagate_failure.
      unfold bind at 1. unfold ret at 1.
      assert (tasks s2 !! a =
              Some (set_aio_main_task
                      (λ m, MainTask PcExited (cancel_requested m)) Ta)) as Ha2.
      { unfold s2. simpl. by rewrite lookup_alter_eq, Ha. }
      rewrite (bind_Ok _ _ _ _ _ (get_task_Some _ _ _ Ha2)).
      destruct Ta. simpl in *. by rewrite Hh1, Hh2, Hc. }
    unfold try_finally. by rewrite Hme. }
  destruct Hpc as [Hpc|Hpc]; rewrite Hpc; exact Hrun.
Qed.
Lemma ended_cleanup t st t' : hoare (ended t st) (__cleanup t') (ended t st).
Proof.
  apply I___cleanup;
    [apply ended_fields|apply ended_minor|ended_leaf|intros; ended_leaf].
Qed.

Lemma main_finally_keeps t st g v cb t' :
  hoare (λ s, ended t st s ∧ gate_resolved t g v s ∧ queued cb s)
    (main_finally t')
    (λ s, ended t st s ∧ gate_resolved t g v s ∧ queued cb s).
Proof.
  apply hoare_conj; [|apply hoare_conj]; unfold main_finally.
  - hinv ltac:(first
      [ lazymatch goal with
        | |- hoare _ (__cleanup _) _ => apply ended_cleanup
        end
      | ended_leaf ]).
  - hinv ltac:(first
      [ lazymatch goal with
        | |- hoare _ (__cleanup _) _ => apply once_cleanup
        end
      | gate_leaf ]).
  - hinv ltac:(first
      [ lazymatch goal with
        | |- hoare _ (__cleanup _) _ => apply queued_cleanup
        end
      | queued_leaf ]).
Qed.

(** When [on_prepare] or [on_run] of [a] raises [e], and [a] has no handler
    for itself, [a] fails with [e] and the callbacks of its finished-gate
    are handed to the loop. *)
Lemma task_main_step_fails a e cb s Ta :
  unfinished a s → tasks s !! a = Some Ta →
  cb ∈ g_callbacks (finished Ta) →
  pc (aio_main_task Ta) = PcOnPrepare ∨ pc (aio_main_task Ta) = PcOnRun →
  is_Exception e = true → is_CancelledError e = false →
  error_handlers Ta !! Some a = None → error_handlers Ta !! None = None →
  let s' := run (task_main_step a (Throw e)) s in
  ended a failed s' ∧ gate_resolved a Finished (FException e) s' ∧ queued cb s'.
Proof.
  intros Hu Ha Hcb Hpc Hex Hc Hh1 Hh2 s'. unfold s', run.
  rewrite (task_main_step_raise_run a e s Ta) by done.
  set (s2 := run (set_pc a PcExited) (set__current_task (Some a) s)).
  assert (unfinished a s2 ∧
          ∃ T, tasks s2 !! a = Some T ∧ cb ∈ g_callbacks (finished T)) as H2.
  { unfold s2, run, set_pc, modify_task, modify. simpl. split.
    - apply unfinished_alter; [by intros []|by intros []|].
      destruct Hu as (Hb & Hrest). split; [|done]. done.
    - eexists. rewrite lookup_alter_eq, Ha. simpl. split; [done|].
      by destruct Ta. }
  refine (hoare_try_finally
           (λ s, unfinished a s ∧
                 ∃ T, tasks s !! a = Some T ∧ cb ∈ g_callbacks (finished T))
           (λ s, ended a failed s ∧
                 gate_resolved a Finished (FException e) s ∧ queued cb s)
           (λ s, ended a failed s ∧
                 gate_resolved a Finished (FException e) s ∧ queued cb s)
           (__failed a (Some e)) (main_finally a) _ _ s2 H2).
  - intros s0 [Hu0 Hr0].
    destruct (failed_unfinished a e s0 Hu0) as [? ?].
    split; [done|]. split; [done|]. by apply (failed_schedules a e cb s0).
  - apply main_finally_keeps.
Qed.
Lemma once_run_actions t g v l s :
  gate_resolved t g v s → gate_resolved t g v (run_actions l s).
Proof.
  revert s. induction l as [|a l IH]; intros s H; simpl; [done|].
  apply IH. by apply once_exec.
Qed.

Lemma sys_before_depends_reachable : reachable sys_before_depends.
Proof. apply reachable_run_actions, sys_root_reachable. Qed.

Lemma sys_before_failure_reachable : reachable sys_before_failure.
Proof. apply reachable_run_actions, sys_before_depends_reachable. Qed.

